(** * Audio filter design and application: a shallow embedding

    The development embeds the filter designers of [src/design_fir.py] and
    [src/design_iir.py] and the application engine of [main.py]
    ([apply_fir], [apply_iir]) and proves properties of them.

    Numbers.  Python floats are embedded as the real numbers [R]: every
    statement below is about the exact arithmetic of the formulas the code
    evaluates, not about rounding.  In two places rounding decides what a
    call does at everyday inputs, and there it is a parameter [round] of
    the embedding: the sample counts [int(seconds * sr)] of the generators
    and the guard [peak + 1e-8] of the peak normalisation.  Python integers
    are [Z].

    Failure.  A Python call either returns a value or raises.  The
    embedding threads this through the [outcome] monad; an exception
    carries its Python class and the place it was raised from: in the body
    of the repository's function itself ([Local], e.g. a float division by
    zero or [math.sqrt] of a negative number) or inside a scipy / numpy
    routine the function calls and does not guard ([Callee]). *)

From Stdlib Require Import Reals Lra Lia ZArith String Bool List.
Import ListNotations.

Open Scope R_scope.

(** ** Python exceptions and the outcome monad *)

Inductive exn : Type :=
| ZeroDivisionError : exn
| ValueError (msg : string) : exn.

Inductive origin : Type :=
| Local : origin
| Callee : origin.

Inductive outcome (A : Type) : Type :=
| Ok (a : A) : outcome A
| Raise (o : origin) (e : exn) : outcome A.

Arguments Ok {A} a.
Arguments Raise {A} o e.

Definition bind {A B : Type} (m : outcome A) (k : A -> outcome B) : outcome B :=
  match m with
  | Ok a => k a
  | Raise o e => Raise o e
  end.

Notation "x <- m ;; k" := (bind m (fun x => k))
  (at level 61, m at next level, right associativity).

(** A library routine reports failure as [inl e]; an unguarded call lets
    the exception travel up unchanged, which the embedding records with
    the origin [Callee]. *)
Definition call {A : Type} (r : exn + A) : outcome A :=
  match r with
  | inl e => Raise Callee e
  | inr a => Ok a
  end.

(** [x / y] on Python floats: raises [ZeroDivisionError] on a zero divisor. *)
Definition pydiv (x y : R) : outcome R :=
  if Req_dec_T y 0 then Raise Local ZeroDivisionError else Ok (x / y).

(** [math.sqrt x]: raises [ValueError("math domain error")] below zero. *)
Definition pysqrt (x : R) : outcome R :=
  if Rlt_dec x 0 then Raise Local (ValueError "math domain error")
  else Ok (sqrt x).

(** ** Data model: biquad sections and cascades

    A row [[b0, b1, b2, a0, a1, a2]] of the [sos] array. *)
Record Biquad : Type := mkBiquad {
  b0 : R; b1 : R; b2 : R;
  a0 : R; a1 : R; a2 : R
}.

Definition SOS : Type := list Biquad.

(** ** Analytic biquad designers ([src/design_iir.py], EQ filters) *)

(** [parametric_eq(center_freq, gain_db, q_factor, fs)] *)
Definition parametric_eq (center_freq gain_db q_factor fs : R) : outcome SOS :=
  let A := Rpower 10 (gain_db / 40) in
  w0 <- pydiv (2 * PI * center_freq) fs ;;
  alpha <- pydiv (sin w0) (2 * q_factor) ;;
  let b0 := 1 + alpha * A in
  let b1 := -2 * cos w0 in
  let b2 := 1 - alpha * A in
  aA <- pydiv alpha A ;;
  let a0 := 1 + aA in
  let a1 := -2 * cos w0 in
  aA' <- pydiv alpha A ;;
  let a2 := 1 - aA' in
  c0 <- pydiv b0 a0 ;;
  c1 <- pydiv b1 a0 ;;
  c2 <- pydiv b2 a0 ;;
  c4 <- pydiv a1 a0 ;;
  c5 <- pydiv a2 a0 ;;
  Ok [mkBiquad c0 c1 c2 1 c4 c5].

(** The argument of [math.sqrt] in the shelving designers' [alpha]. *)
Definition shelf_radicand (A q_factor : R) : R :=
  (A + 1 / A) * (1 / q_factor - 1) + 2.

(** [alpha = math.sin(w0) / 2 * math.sqrt((A + 1/A) * (1/q_factor - 1) + 2)] *)
Definition shelf_alpha (A w0 q_factor : R) : outcome R :=
  iA <- pydiv 1 A ;;
  iq <- pydiv 1 q_factor ;;
  r <- pysqrt ((A + iA) * (iq - 1) + 2) ;;
  Ok (sin w0 / 2 * r).

(** [shelving_lowshelf(cutoff, gain_db, fs, q_factor)] *)
Definition shelving_lowshelf (cutoff gain_db fs q_factor : R) : outcome SOS :=
  let A := Rpower 10 (gain_db / 40) in
  w0 <- pydiv (2 * PI * cutoff) fs ;;
  alpha <- shelf_alpha A w0 q_factor ;;
  sA <- pysqrt A ;;
  let b0 := A * ((A + 1) - (A - 1) * cos w0 + 2 * sA * alpha) in
  let b1 := 2 * A * ((A - 1) - (A + 1) * cos w0) in
  let b2 := A * ((A + 1) - (A - 1) * cos w0 - 2 * sA * alpha) in
  let a0 := (A + 1) + (A - 1) * cos w0 + 2 * sA * alpha in
  let a1 := -2 * ((A - 1) + (A + 1) * cos w0) in
  let a2 := (A + 1) + (A - 1) * cos w0 - 2 * sA * alpha in
  c0 <- pydiv b0 a0 ;;
  c1 <- pydiv b1 a0 ;;
  c2 <- pydiv b2 a0 ;;
  c4 <- pydiv a1 a0 ;;
  c5 <- pydiv a2 a0 ;;
  Ok [mkBiquad c0 c1 c2 1 c4 c5].

(** [shelving_highshelf(cutoff, gain_db, fs, q_factor)] *)
Definition shelving_highshelf (cutoff gain_db fs q_factor : R) : outcome SOS :=
  let A := Rpower 10 (gain_db / 40) in
  w0 <- pydiv (2 * PI * cutoff) fs ;;
  alpha <- shelf_alpha A w0 q_factor ;;
  sA <- pysqrt A ;;
  let b0 := A * ((A + 1) + (A - 1) * cos w0 + 2 * sA * alpha) in
  let b1 := -2 * A * ((A - 1) + (A + 1) * cos w0) in
  let b2 := A * ((A + 1) + (A - 1) * cos w0 - 2 * sA * alpha) in
  let a0 := (A + 1) - (A - 1) * cos w0 + 2 * sA * alpha in
  let a1 := 2 * ((A - 1) - (A + 1) * cos w0) in
  let a2 := (A + 1) - (A - 1) * cos w0 - 2 * sA * alpha in
  c0 <- pydiv b0 a0 ;;
  c1 <- pydiv b1 a0 ;;
  c2 <- pydiv b2 a0 ;;
  c4 <- pydiv a1 a0 ;;
  c5 <- pydiv a2 a0 ;;
  Ok [mkBiquad c0 c1 c2 1 c4 c5].

(** ** FIR designers ([src/design_fir.py])

    The designers hand their arguments to scipy's [firwin] and
    [kaiserord].  Both are library routines outside the repository; the
    designers are embedded over arbitrary routines of the right shape. *)

(** [firwin]'s [cutoff] argument: one frequency or a list of two band edges. *)
Inductive cutoffs : Type :=
| Scalar (f : R) : cutoffs
| Band (f_low f_high : R) : cutoffs.

Section DesignFir.

(** [firwin(numtaps, cutoff, window=, pass_zero=, fs=)] *)
Variable firwin : Z -> cutoffs -> string * R -> bool -> R -> exn + list R.

(** [kaiserord(ripple, width)] returns [(numtaps, beta)]. *)
Variable kaiserord : R -> R -> exn + (Z * R).

Definition lowpass (cutoff fs : R) (numtaps : Z) (beta : R) : outcome (list R) :=
  let window := ("kaiser"%string, beta) in
  call (firwin numtaps (Scalar cutoff) window true fs).

Definition highpass (cutoff fs : R) (numtaps : Z) (beta : R) : outcome (list R) :=
  let window := ("kaiser"%string, beta) in
  call (firwin numtaps (Scalar cutoff) window false fs).

Definition bandpass (f_low f_high fs : R) (numtaps : Z) (beta : R) : outcome (list R) :=
  let window := ("kaiser"%string, beta) in
  call (firwin numtaps (Band f_low f_high) window false fs).

Definition bandstop (f_low f_high fs : R) (numtaps : Z) (beta : R) : outcome (list R) :=
  let window := ("kaiser"%string, beta) in
  call (firwin numtaps (Band f_low f_high) window true fs).

Definition notch (center_freq bandwidth fs : R) (numtaps : Z) (beta : R) : outcome (list R) :=
  let f_low := center_freq - bandwidth / 2 in
  let f_high := center_freq + bandwidth / 2 in
  bandstop f_low f_high fs numtaps beta.

Definition adaptive_numtaps (transition_width fs attenuation_db : R) : outcome Z :=
  width <- pydiv transition_width (0.5 * fs) ;;
  nb <- call (kaiserord attenuation_db width) ;;
  let numtaps := fst nb in
  if (numtaps mod 2 =? 0)%Z then Ok (numtaps + 1)%Z else Ok numtaps.

End DesignFir.

(** scipy's [kaiser_beta(a)]. *)
Definition kaiser_beta (a : R) : R :=
  if Rlt_dec 50 a then 0.1102 * (a - 8.7)
  else if Rlt_dec 21 a then 0.5842 * Rpower (a - 21) 0.4 + 0.07886 * (a - 21)
  else 0.

(** scipy's [kaiserord(ripple, width)], the routine [adaptive_numtaps]
    calls: it rejects an attenuation below 8 dB and otherwise evaluates
    Kaiser's formula [(A - 7.95) / 2.285 / (pi * width) + 1] on Python
    floats, rounding up with [int(ceil(.))].  It does not look at the
    sign of [width]. *)
Definition scipy_kaiserord (ripple width : R) : exn + (Z * R) :=
  let A := Rabs ripple in
  if Rlt_dec A 8 then
    inl (ValueError "Requested maximum ripple attenuation is too small for the Kaiser formula.")
  else
    let beta := kaiser_beta A in
    if Req_dec_T (PI * width) 0 then inl ZeroDivisionError
    else
      let numtaps := (A - 7.95) / 2.285 / (PI * width) + 1 in
      inr (Zceil numtaps, beta).

(** ** IIR designers ([src/design_iir.py])

    Every designer computes [nyq = fs / 2], divides its frequencies by it
    and calls the scipy synthesis routine of its family with
    [output='sos'] (and [norm='phase'] for Bessel).  The synthesis
    routines are library code; the designers are embedded over arbitrary
    routines. *)

Inductive FilterType : Type :=
| Lowpass | Highpass | Bandpass | Bandstop.

Section DesignIir.

(** [butter(N, Wn, btype=, output='sos')] *)
Variable butter : Z -> cutoffs -> FilterType -> exn + SOS.
(** [cheby1(N, rp, Wn, btype=, output='sos')] *)
Variable cheby1 : Z -> R -> cutoffs -> FilterType -> exn + SOS.
(** [cheby2(N, rs, Wn, btype=, output='sos')] *)
Variable cheby2 : Z -> R -> cutoffs -> FilterType -> exn + SOS.
(** [ellip(N, rp, rs, Wn, btype=, output='sos')] *)
Variable ellip : Z -> R -> R -> cutoffs -> FilterType -> exn + SOS.
(** [bessel(N, Wn, btype=, output='sos', norm='phase')] *)
Variable bessel : Z -> cutoffs -> FilterType -> exn + SOS.

(** [cutoff / nyq] *)
Definition normalized (cutoff nyq : R) : outcome cutoffs :=
  w <- pydiv cutoff nyq ;;
  Ok (Scalar w).

(** [[f_low / nyq, f_high / nyq]] *)
Definition normalized_band (f_low f_high nyq : R) : outcome cutoffs :=
  lo <- pydiv f_low nyq ;;
  hi <- pydiv f_high nyq ;;
  Ok (Band lo hi).

Definition butter_lowpass (cutoff fs : R) (order : Z) : outcome SOS :=
  let nyq := fs / 2 in
  Wn <- normalized cutoff nyq ;;
  call (butter order Wn Lowpass).

Definition butter_highpass (cutoff fs : R) (order : Z) : outcome SOS :=
  let nyq := fs / 2 in
  Wn <- normalized cutoff nyq ;;
  call (butter order Wn Highpass).

Definition butter_bandpass (f_low f_high fs : R) (order : Z) : outcome SOS :=
  let nyq := fs / 2 in
  Wn <- normalized_band f_low f_high nyq ;;
  call (butter order Wn Bandpass).

Definition butter_bandstop (f_low f_high fs : R) (order : Z) : outcome SOS :=
  let nyq := fs / 2 in
  Wn <- normalized_band f_low f_high nyq ;;
  call (butter order Wn Bandstop).

Definition butter_notch (center_freq bandwidth fs : R) (order : Z) : outcome SOS :=
  let f_low := center_freq - bandwidth / 2 in
  let f_high := center_freq + bandwidth / 2 in
  butter_bandstop f_low f_high fs order.

Definition cheby1_lowpass (cutoff fs : R) (order : Z) (ripple_db : R) : outcome SOS :=
  let nyq := fs / 2 in
  Wn <- normalized cutoff nyq ;;
  call (cheby1 order ripple_db Wn Lowpass).

Definition cheby1_highpass (cutoff fs : R) (order : Z) (ripple_db : R) : outcome SOS :=
  let nyq := fs / 2 in
  Wn <- normalized cutoff nyq ;;
  call (cheby1 order ripple_db Wn Highpass).

Definition cheby1_bandpass (f_low f_high fs : R) (order : Z) (ripple_db : R) : outcome SOS :=
  let nyq := fs / 2 in
  Wn <- normalized_band f_low f_high nyq ;;
  call (cheby1 order ripple_db Wn Bandpass).

Definition cheby1_bandstop (f_low f_high fs : R) (order : Z) (ripple_db : R) : outcome SOS :=
  let nyq := fs / 2 in
  Wn <- normalized_band f_low f_high nyq ;;
  call (cheby1 order ripple_db Wn Bandstop).

Definition cheby2_lowpass (cutoff fs : R) (order : Z) (attenuation_db : R) : outcome SOS :=
  let nyq := fs / 2 in
  Wn <- normalized cutoff nyq ;;
  call (cheby2 order attenuation_db Wn Lowpass).

Definition cheby2_highpass (cutoff fs : R) (order : Z) (attenuation_db : R) : outcome SOS :=
  let nyq := fs / 2 in
  Wn <- normalized cutoff nyq ;;
  call (cheby2 order attenuation_db Wn Highpass).

Definition cheby2_bandstop (f_low f_high fs : R) (order : Z) (attenuation_db : R) : outcome SOS :=
  let nyq := fs / 2 in
  Wn <- normalized_band f_low f_high nyq ;;
  call (cheby2 order attenuation_db Wn Bandstop).

Definition ellip_lowpass (cutoff fs : R) (order : Z) (ripple_db attenuation_db : R) : outcome SOS :=
  let nyq := fs / 2 in
  Wn <- normalized cutoff nyq ;;
  call (ellip order ripple_db attenuation_db Wn Lowpass).

Definition ellip_highpass (cutoff fs : R) (order : Z) (ripple_db attenuation_db : R) : outcome SOS :=
  let nyq := fs / 2 in
  Wn <- normalized cutoff nyq ;;
  call (ellip order ripple_db attenuation_db Wn Highpass).

Definition ellip_bandstop (f_low f_high fs : R) (order : Z) (ripple_db attenuation_db : R) : outcome SOS :=
  let nyq := fs / 2 in
  Wn <- normalized_band f_low f_high nyq ;;
  call (ellip order ripple_db attenuation_db Wn Bandstop).

Definition bessel_lowpass (cutoff fs : R) (order : Z) : outcome SOS :=
  let nyq := fs / 2 in
  Wn <- normalized cutoff nyq ;;
  call (bessel order Wn Lowpass).

Definition bessel_highpass (cutoff fs : R) (order : Z) : outcome SOS :=
  let nyq := fs / 2 in
  Wn <- normalized cutoff nyq ;;
  call (bessel order Wn Highpass).

Definition bessel_bandpass (f_low f_high fs : R) (order : Z) : outcome SOS :=
  let nyq := fs / 2 in
  Wn <- normalized_band f_low f_high nyq ;;
  call (bessel order Wn Bandpass).

End DesignIir.

(** ** Application engine ([main.py]) *)

(** *** [np.convolve(a, v, mode="same")]

    numpy rejects an empty argument, the first one first, then swaps its
    arguments so that the first is the longer one and runs its correlation
    kernel on [a] and the reversed [v].  The kernel produces [length a] outputs in three runs
    (left edge, full overlap, right edge), each output one dot product of
    [n] consecutive elements. *)

Definition dot (xs ys : list R) : R :=
  fold_right Rplus 0 (map (fun p => fst p * snd p) (combine xs ys)).

(** A dot product over the first [n] elements of both arguments. *)
Definition dotn (n : nat) (xs ys : list R) : R :=
  dot (firstn n xs) (firstn n ys).

Definition correlate_same (a w : list R) : list R :=
  let n1 := length a in
  let n2 := length w in
  let n_left := (n2 / 2)%nat in
  let n_right := (n2 - n_left - 1)%nat in
  map (fun i => dotn (n2 - n_left + i) a (skipn (n_left - i) w)) (seq 0 n_left)
  ++ map (fun i => dotn n2 (skipn i a) w) (seq 0 (n1 - n2 + 1))
  ++ map (fun i => dotn (n2 - 1 - i) (skipn (n1 - n2 + 1 + i) a) w) (seq 0 n_right).

Definition np_convolve_same (a v : list R) : exn + list R :=
  if (length a =? 0)%nat then inl (ValueError "a cannot be empty")
  else if (length v =? 0)%nat then inl (ValueError "v cannot be empty")
  else
    let av := if (length a <? length v)%nat then (v, a) else (a, v) in
    let a := fst av in
    let v := snd av in
    inr (correlate_same a (rev v)).

(** [apply_fir(signal, taps)] *)
Definition apply_fir (signal taps : list R) : outcome (list R) :=
  call (np_convolve_same signal taps).

(** *** [scipy.signal.sosfilt(sos, x)]

    scipy validates the cascade first: an array without a row of six
    coefficients is rejected, and so is one with a section whose [a0] is
    not 1.  It then reshapes the signal into rows of [len(x)] samples,
    which numpy refuses for an empty signal, allocates a zero state [zi]
    of one pair per section and, sample by sample, runs the sample through
    the sections in order, each in direct form II transposed.  All three
    rejections are [ValueError]s. *)

(** One section on one sample: the new sample and the section's new state. *)
Definition section_step (s : Biquad) (z : R * R) (x_n : R) : R * (R * R) :=
  let y := b0 s * x_n + fst z in
  (y, (b1 s * x_n - a1 s * y + snd z, b2 s * x_n - a2 s * y)).

(** One sample through all sections, updating each section's state. *)
Fixpoint cascade_step (sos : SOS) (zi : list (R * R)) (x_n : R) : R * list (R * R) :=
  match sos, zi with
  | s :: sos', z :: zi' =>
      let yz := section_step s z x_n in
      let r := cascade_step sos' zi' (fst yz) in
      (fst r, snd yz :: snd r)
  | _, _ => (x_n, [])
  end.

Fixpoint sosfilt_loop (sos : SOS) (zi : list (R * R)) (x : list R) : list R :=
  match x with
  | [] => []
  | x_n :: xs =>
      let r := cascade_step sos zi x_n in
      fst r :: sosfilt_loop sos (snd r) xs
  end.

(** [(sos[:, 3] == 1).all()] *)
Fixpoint a0_all_ones (sos : SOS) : bool :=
  match sos with
  | [] => true
  | s :: sos' => if Req_dec_T (a0 s) 1 then a0_all_ones sos' else false
  end.

Definition zero_state (sos : SOS) : list (R * R) :=
  map (fun _ => (0, 0)) sos.

Definition sosfilt (sos : SOS) (x : list R) : exn + list R :=
  if (length sos =? 0)%nat then
    inl (ValueError "sos array must be shape (n_sections, 6)")
  else if negb (a0_all_ones sos) then
    inl (ValueError "sos[:, 3] should be all ones")
  else if (length x =? 0)%nat then
    inl (ValueError "cannot reshape array of size 0 into shape (0)")
  else inr (sosfilt_loop sos (zero_state sos) x).

(** [apply_iir(signal, sos)] *)
Definition apply_iir (signal : list R) (sos : SOS) : outcome (list R) :=
  call (sosfilt sos signal).

(** ** Notions the statements use *)

(** A cascade as the data model has it: at least one section, every
    section stored with [a0 = 1]. *)
Definition valid_cascade (sos : SOS) : Prop :=
  sos <> [] /\ Forall (fun s => a0 s = 1) sos.

(** [a * x + b * y] on two arrays of one length. *)
Fixpoint lincomb (a : R) (x : list R) (b : R) (y : list R) : list R :=
  match x, y with
  | u :: x', v :: y' => (a * u + b * v) :: lincomb a x' b y'
  | _, _ => []
  end.

(** The same combination of two outcomes: the first failure wins. *)
Definition lincomb_outcome (a : R) (ox : outcome (list R)) (b : R) (oy : outcome (list R))
  : outcome (list R) :=
  x <- ox ;; y <- oy ;; Ok (lincomb a x b y).

(** Sample [i] of a signal, zero outside the signal. *)
Definition sample (x : list R) (i : Z) : R :=
  if (i <? 0)%Z then 0 else nth (Z.to_nat i) x 0.

(** [sum_{j < n} f j] *)
Definition sumf (f : nat -> R) (n : nat) : R :=
  fold_right Rplus 0 (map f (seq 0 n)).

(** Centered linear convolution in the words of the specification: output
    sample [k] is the sum of [kernel[j] * signal[k + c - j]] over the taps,
    with [c = (len(kernel) - 1) // 2] the kernel's centre tap. *)
Definition centered_conv (signal kernel : list R) (k : nat) : R :=
  let c := ((length kernel - 1) / 2)%nat in
  sumf (fun j => nth j kernel 0 * sample signal (Z.of_nat k + Z.of_nat c - Z.of_nat j))
       (length kernel).

(** The frequency response [H(e^{jw})] of one section, numerator and
    denominator split into real and imaginary part, and its squared
    magnitude. *)
Definition num_re (s : Biquad) (w : R) : R := b0 s + b1 s * cos w + b2 s * cos (2 * w).
Definition num_im (s : Biquad) (w : R) : R := - (b1 s * sin w + b2 s * sin (2 * w)).
Definition den_re (s : Biquad) (w : R) : R := a0 s + a1 s * cos w + a2 s * cos (2 * w).
Definition den_im (s : Biquad) (w : R) : R := - (a1 s * sin w + a2 s * sin (2 * w)).

Definition magnitude_sq (s : Biquad) (w : R) : R :=
  ((num_re s w)² + (num_im s w)²) / ((den_re s w)² + (den_im s w)²).

(** The section [parametric_eq] stores, as the cookbook formulas give it. *)
Definition peaking_section (center_freq gain_db q_factor fs : R) : Biquad :=
  let A := Rpower 10 (gain_db / 40) in
  let w0 := 2 * PI * center_freq / fs in
  let alpha := sin w0 / (2 * q_factor) in
  let b0 := 1 + alpha * A in
  let b1 := -2 * cos w0 in
  let b2 := 1 - alpha * A in
  let a0 := 1 + alpha / A in
  let a1 := -2 * cos w0 in
  let a2 := 1 - alpha / A in
  mkBiquad (b0 / a0) (b1 / a0) (b2 / a0) 1 (a1 / a0) (a2 / a0).

(** The unnormalised [a0 = 1 + alpha / A] of the peaking filter. *)
Definition peaking_a0 (center_freq gain_db q_factor fs : R) : R :=
  1 + sin (2 * PI * center_freq / fs) / (2 * q_factor) / Rpower 10 (gain_db / 40).

(** What a designer without checks of its own does with a synthesis
    routine's answer [r]: with [fs = 0] it fails on its own division by
    [fs / 2], otherwise its outcome is [r], a result returned or an
    exception raised inside the routine and not caught. *)
Definition passes_through (o : outcome SOS) (fs : R) (r : exn + SOS) : Prop :=
  (fs = 0 /\ o = Raise Local ZeroDivisionError) \/ (fs <> 0 /\ o = call r).

(** The same linear combination, on the per-section states. *)
Fixpoint lin_state (a : R) (zx : list (R * R)) (b : R) (zy : list (R * R)) : list (R * R) :=
  match zx, zy with
  | p :: zx', q :: zy' =>
      (a * fst p + b * fst q, a * snd p + b * snd q) :: lin_state a zx' b zy'
  | _, _ => []
  end.

(** Output [k] of numpy's correlation kernel, as one sum: [w] slides
    along [a] with its element [len(w) // 2] under [a[k]]. *)
Definition corr_at (a w : list R) (k : nat) : R :=
  sumf (fun u => nth u w 0
                 * sample a (Z.of_nat u + Z.of_nat k - Z.of_nat (length w / 2)))
       (length w).

(** The sections the shelving designers store, as their formulas give
    them ([alpha] with the square root taken, coefficients divided by the
    unnormalised [a0]). *)
Definition lowshelf_section (cutoff gain_db fs q_factor : R) : Biquad :=
  let A := Rpower 10 (gain_db / 40) in
  let w0 := 2 * PI * cutoff / fs in
  let alpha := sin w0 / 2 * sqrt (shelf_radicand A q_factor) in
  let b0 := A * ((A + 1) - (A - 1) * cos w0 + 2 * sqrt A * alpha) in
  let b1 := 2 * A * ((A - 1) - (A + 1) * cos w0) in
  let b2 := A * ((A + 1) - (A - 1) * cos w0 - 2 * sqrt A * alpha) in
  let a0 := (A + 1) + (A - 1) * cos w0 + 2 * sqrt A * alpha in
  let a1 := -2 * ((A - 1) + (A + 1) * cos w0) in
  let a2 := (A + 1) + (A - 1) * cos w0 - 2 * sqrt A * alpha in
  mkBiquad (b0 / a0) (b1 / a0) (b2 / a0) 1 (a1 / a0) (a2 / a0).

Definition highshelf_section (cutoff gain_db fs q_factor : R) : Biquad :=
  let A := Rpower 10 (gain_db / 40) in
  let w0 := 2 * PI * cutoff / fs in
  let alpha := sin w0 / 2 * sqrt (shelf_radicand A q_factor) in
  let b0 := A * ((A + 1) + (A - 1) * cos w0 + 2 * sqrt A * alpha) in
  let b1 := -2 * A * ((A - 1) + (A + 1) * cos w0) in
  let b2 := A * ((A + 1) + (A - 1) * cos w0 - 2 * sqrt A * alpha) in
  let a0 := (A + 1) - (A - 1) * cos w0 + 2 * sqrt A * alpha in
  let a1 := 2 * ((A - 1) - (A + 1) * cos w0) in
  let a2 := (A + 1) - (A - 1) * cos w0 - 2 * sqrt A * alpha in
  mkBiquad (b0 / a0) (b1 / a0) (b2 / a0) 1 (a1 / a0) (a2 / a0).

(** A unit impulse: [p] zeros, a one, [q] zeros. *)
Definition impulse (p q : nat) : list R :=
  repeat 0 p ++ 1 :: repeat 0 q.

(** ** The test-signal generator ([src/generate.py])

    Pure Python on lists.  Lists are assigned by index ([out[i] = v]),
    which raises [IndexError] past the end; the loops are embedded as
    loops over that assignment, in a result monad of their own.

    The number of samples a generator produces is [int(seconds * sr)], a
    truncation of the product as Python computes it: the real product
    rounded to a double, which may lie on the other side of an integer
    (0.35 * 100 is a little below 35 and is rounded to 35.0).  The
    rounding is a parameter, [round], of the three generators that count
    samples this way. *)

Module Generate.

Inductive error : Type :=
| ZeroDivisionError : error
| IndexError : error
| ValueError (msg : string) : error.

Definition result (A : Type) : Type := (error + A)%type.

Definition ret {A : Type} (a : A) : result A := inr a.

Definition raise {A : Type} (e : error) : result A := inl e.

Definition bind {A B : Type} (m : result A) (k : A -> result B) : result B :=
  match m with
  | inr a => k a
  | inl e => inl e
  end.

Notation "x <-- m ;; k" := (bind m (fun x => k))
  (at level 61, m at next level, right associativity).

(** [int(x)] on a float: truncation towards zero. *)
Definition pyint (x : R) : Z :=
  if Rlt_dec x 0 then Zceil x else Zfloor x.

(** [range(n)] *)
Definition range (n : Z) : list Z :=
  map Z.of_nat (seq 0 (Z.to_nat n)).

(** [[v] * n] *)
Definition replicate (n : Z) (v : R) : list R :=
  repeat v (Z.to_nat n).

(** [x / y] on two ints, and on two floats. *)
Definition truediv (x y : Z) : result R :=
  if (y =? 0)%Z then raise ZeroDivisionError else ret (IZR x / IZR y).

Definition fdiv (x y : R) : result R :=
  if Req_dec_T y 0 then raise ZeroDivisionError else ret (x / y).

(** The position a Python index denotes in a list of [n] elements:
    negative indices count from the end. *)
Definition position (n : nat) (i : Z) : option nat :=
  if ((i <? - Z.of_nat n) || (Z.of_nat n <=? i))%Z then None
  else Some (Z.to_nat (if (i <? 0)%Z then i + Z.of_nat n else i)).

(** [l[i]] and [l[i] = v] *)
Definition getitem (l : list R) (i : Z) : result R :=
  match position (length l) i with
  | None => raise IndexError
  | Some j => ret (nth j l 0)
  end.

Definition setitem (l : list R) (i : Z) (v : R) : result (list R) :=
  match position (length l) i with
  | None => raise IndexError
  | Some j => ret (firstn j l ++ v :: skipn (S j) l)
  end.

(** [for i in l: s = body(i, s)] *)
Fixpoint for_each {I S : Type} (l : list I) (body : I -> S -> result S) (s : S)
  : result S :=
  match l with
  | [] => ret s
  | i :: l' => s' <-- body i s ;; for_each l' body s'
  end.

(** [[f(i) for i in l]] *)
Fixpoint comprehension {I A : Type} (f : I -> result A) (l : list I) : result (list A) :=
  match l with
  | [] => ret []
  | i :: l' => v <-- f i ;; vs <-- comprehension f l' ;; ret (v :: vs)
  end.

(** [enumerate(s)] *)
Definition enumerate (s : list R) : list (Z * R) :=
  combine (range (Z.of_nat (length s))) s.

(** [max(len(s) for s in signals)] *)
Definition max_len (signals : list (list R)) : result Z :=
  match signals with
  | [] => raise (ValueError "max() arg is an empty sequence")
  | s :: rest =>
      ret (fold_left (fun m t => Z.max m (Z.of_nat (length t))) rest
                     (Z.of_nat (length s)))
  end.

(** [max((abs(s) for s in samples), default=0.0)] *)
Definition max_abs (samples : list R) : R :=
  match samples with
  | [] => 0
  | s :: rest => fold_left (fun m t => Rmax m (Rabs t)) rest (Rabs s)
  end.

(** [write_wav(path, samples, sr)]: the integers handed to [struct.pack]
    as 16-bit frames; creating the directory and writing the file are
    left out. *)
Definition write_wav (samples : list R) : list Z :=
  let max_abs := max_abs samples in
  let max_abs := if Rlt_dec max_abs (1 / 1000000000) then 1 else max_abs in
  let scale := 0.9 * 32767 / max_abs in
  map (fun s => pyint (Rmax (-32768) (Rmin 32767 (s * scale)))) samples.

Section Rounding.

(** The double nearest to a real number. *)
Variable round : R -> R.

(** [sine_wave(freq, length, sr, phase, amp)] *)
Definition sine_wave (freq length : R) (sr : Z) (phase amp : R) : result (list R) :=
  let n := pyint (round (length * IZR sr)) in
  let two_pi_f := 2 * PI * freq in
  comprehension
    (fun i => t <-- truediv i sr ;; ret (amp * sin (two_pi_f * t + phase)))
    (range n).

(** [generate_hum(sr, duration, freq, amp)] *)
Definition generate_hum (sr : Z) (duration freq amp : R) : result (list R) :=
  let n := pyint (round (duration * IZR sr)) in
  let out := replicate n 0 in
  for_each (range n)
    (fun i out =>
       t <-- truediv i sr ;;
       setitem out i
         (amp * (0.7 * sin (2 * PI * freq * t)
                 + 0.2 * sin (2 * PI * 2 * freq * t)
                 + 0.1 * sin (2 * PI * 3 * freq * t))))
    out.

(** [adsr_envelope(n, sr, a, d, s, r)] *)
Definition adsr_envelope (n sr : Z) (a d s r : R) : result (list R) :=
  let env := replicate n 0 in
  let a_n := Z.max 1 (pyint (round (a * IZR sr))) in
  let d_n := Z.max 1 (pyint (round (d * IZR sr))) in
  let r_n := Z.max 1 (pyint (round (r * IZR sr))) in
  let sustain_n := Z.max 0 (n - (a_n + d_n + r_n)) in
  env <-- for_each (range a_n)
            (fun i env => q <-- truediv i a_n ;; setitem env i q) env ;;
  env <-- for_each (range d_n)
            (fun i env =>
               q <-- truediv i d_n ;; setitem env (a_n + i) (1 - (1 - s) * q)) env ;;
  env <-- for_each (range sustain_n)
            (fun i env => setitem env (a_n + d_n + i) s) env ;;
  env <-- for_each (range r_n)
            (fun i env =>
               let idx := (a_n + d_n + sustain_n + i)%Z in
               if (idx <? n)%Z then
                 q <-- truediv i r_n ;; setitem env idx (s * (1 - q))
               else ret env) env ;;
  ret env.

End Rounding.

(** [mix(signals)] *)
Definition mix (signals : list (list R)) : result (list R) :=
  maxlen <-- max_len signals ;;
  let out := replicate maxlen 0 in
  out <-- for_each signals
            (fun s out =>
               for_each (enumerate s)
                 (fun iv out =>
                    x <-- getitem out (fst iv) ;;
                    setitem out (fst iv) (x + snd iv)) out) out ;;
  comprehension
    (fun x => fdiv x (Rmax 1 (IZR (Z.of_nat (length signals)) * 0.9))) out.

End Generate.

(** The four phases of the envelope, [aN], [dN], [sN] and [rel] samples
    long. *)
Definition adsr_phases (aN dN sN rel rN : nat) (s : R) : list R :=
  map (fun i => IZR (Z.of_nat i) / IZR (Z.of_nat aN)) (seq 0 aN)
  ++ map (fun i => 1 - (1 - s) * (IZR (Z.of_nat i) / IZR (Z.of_nat dN))) (seq 0 dN)
  ++ map (fun _ => s) (seq 0 sN)
  ++ map (fun i => s * (1 - IZR (Z.of_nat i) / IZR (Z.of_nat rN))) (seq 0 rel).

(** One signal added into the running mix: sample by sample over its own
    length, the rest of the mix untouched. *)
Definition accumulate (out s : list R) : list R :=
  map (fun p => fst p + snd p) (combine (firstn (length s) out) s)
  ++ skipn (length s) out.

(** The sum of sample [k] over all the signals, a signal read as zero
    past its end. *)
Definition sum_at (signals : list (list R)) (k : nat) : R :=
  fold_right (fun s acc => nth k s 0 + acc) 0 signals.

(** ** Peak normalisation ([main.py], [app.py])

    Both programs scale a signal by its peak before using it:
    [x = x / (np.max(np.abs(x)) + 1e-8)].  The guard [1e-8] is added in
    double precision: the sum is rounded, and a peak of about 1.3e8 or
    more absorbs the guard altogether, so that the divisor is the peak
    itself.  The rounding of the sum is a parameter, [round]. *)


Section PeakNormalisation.

(** The double nearest to a real number. *)
Variable round : R -> R.


End PeakNormalisation.

(** ** Command line of the GUI ([app.py]) *)

Section AppCli.

(** [s.strip().lower()], Python's Unicode-aware string methods. *)
Variable strip_lower : string -> string.

(** [option in {...}] *)
Definition in_set (option : string) (set : list string) : bool :=
  existsb (String.eqb option) set.

(** [_resolve_host(host_option)]; [None] and the empty string are the
    two falsy values of [str | None]. *)
Definition _resolve_host (host_option : option string) : string :=
  match host_option with
  | None => "127.0.0.1"%string
  | Some h =>
      if String.eqb h ""%string then "127.0.0.1"%string
      else
        let option := strip_lower h in
        if in_set option ["global"%string; "public"%string; "all"%string; "0.0.0.0"%string]
        then "0.0.0.0"%string
        else if in_set option ["local"%string; "localhost"%string; "127.0.0.1"%string]
             then "127.0.0.1"%string
             else h
  end.

End AppCli.

(** [args.index(option)], for an [option] that occurs in [args]. *)
Fixpoint list_index (option : string) (args : list string) : nat :=
  match args with
  | [] => 0
  | a :: rest => if String.eqb a option then 0 else S (list_index option rest)
  end.

(** [args.pop(i)], the list that is left. *)
Definition list_pop (i : nat) (args : list string) : list string :=
  firstn i args ++ skipn (S i) args.

(** [pop_opt(option)] of [run_app]: the value returned and the [args]
    list as the call leaves it. *)
Definition pop_opt (option : string) (args : list string)
  : Datatypes.option string * list string :=
  if negb (existsb (String.eqb option) args) then (None, args)
  else
    let idx := list_index option args in
    if (idx + 1 <? length args)%nat then
      let value := nth (idx + 1) args ""%string in
      let args := list_pop (idx + 1) args in
      (Some value, list_pop idx args)
    else (None, list_pop idx args).

(** Python's [str.lower] and [str.strip] on strings of ASCII characters. *)
Definition ascii_lower (c : Ascii.ascii) : Ascii.ascii :=
  let n := Ascii.nat_of_ascii c in
  if ((65 <=? n) && (n <=? 90))%nat then Ascii.ascii_of_nat (n + 32) else c.

Definition ascii_space (c : Ascii.ascii) : bool :=
  let n := Ascii.nat_of_ascii c in
  (((9 <=? n) && (n <=? 13)) || ((28 <=? n) && (n <=? 32)))%nat.

Fixpoint lstrip (s : string) : string :=
  match s with
  | EmptyString => EmptyString
  | String c rest => if ascii_space c then lstrip rest else s
  end.

Fixpoint string_rev (s acc : string) : string :=
  match s with
  | EmptyString => acc
  | String c rest => string_rev rest (String c acc)
  end.

Fixpoint string_map (f : Ascii.ascii -> Ascii.ascii) (s : string) : string :=
  match s with
  | EmptyString => EmptyString
  | String c rest => String (f c) (string_map f rest)
  end.

Definition ascii_strip_lower (s : string) : string :=
  let stripped :=
    string_rev (lstrip (string_rev (lstrip s) EmptyString)) EmptyString in
  string_map ascii_lower stripped.

(** * Properties *)

(** ** Basic facts about the outcome monad and Python arithmetic *)

Lemma pydiv_ok (x y : R) : y <> 0 -> pydiv x y = Ok (x / y).
Proof.
  intros Hy. unfold pydiv. destruct (Req_dec_T y 0) as [E | _]; [contradiction | reflexivity].
Qed.

Lemma pydiv_zero (x : R) : pydiv x 0 = Raise Local ZeroDivisionError.
Proof.
  unfold pydiv. destruct (Req_dec_T 0 0) as [_ | N]; [reflexivity | contradiction N; reflexivity].
Qed.

Lemma pydiv_inv (x y v : R) : pydiv x y = Ok v -> y <> 0 /\ v = x / y.
Proof.
  unfold pydiv. destruct (Req_dec_T y 0) as [E | N]; intros H.
  - discriminate H.
  - injection H as <-. split; [exact N | reflexivity].
Qed.

Lemma pysqrt_ok (x : R) : 0 <= x -> pysqrt x = Ok (sqrt x).
Proof.
  intros Hx. unfold pysqrt. destruct (Rlt_dec x 0) as [L | _]; [lra | reflexivity].
Qed.

Lemma pysqrt_neg (x : R) : x < 0 -> pysqrt x = Raise Local (ValueError "math domain error").
Proof.
  intros Hx. unfold pysqrt. destruct (Rlt_dec x 0) as [_ | N]; [reflexivity | contradiction].
Qed.

Lemma pysqrt_inv (x v : R) : pysqrt x = Ok v -> 0 <= x /\ v = sqrt x.
Proof.
  unfold pysqrt. destruct (Rlt_dec x 0) as [L | N]; intros H.
  - discriminate H.
  - injection H as <-. split; [lra | reflexivity].
Qed.

Lemma bind_ok_inv {A B : Type} (m : outcome A) (k : A -> outcome B) (b : B) :
  bind m k = Ok b -> exists a, m = Ok a /\ k a = Ok b.
Proof.
  destruct m as [a | o e]; simpl; intros H.
  - exists a. split; [reflexivity | exact H].
  - discriminate H.
Qed.

(** The linear gain [A = 10 ** (gain_db / 40)] is positive. *)
Lemma gain_pos (gain_db : R) : 0 < Rpower 10 (gain_db / 40).
Proof. unfold Rpower. apply exp_pos. Qed.

Lemma gain_zero_db : Rpower 10 (0 / 40) = 1.
Proof.
  replace (0 / 40) with 0 by lra. apply Rpower_O. lra.
Qed.

(** ** The peaking filter *)

Lemma parametric_eq_returns (center_freq gain_db q_factor fs : R) :
  fs <> 0 -> q_factor <> 0 -> peaking_a0 center_freq gain_db q_factor fs <> 0 ->
  parametric_eq center_freq gain_db q_factor fs
  = Ok [peaking_section center_freq gain_db q_factor fs].
Proof.
  intros Hfs Hq Ha0. unfold parametric_eq, peaking_a0 in *.
  assert (HA : Rpower 10 (gain_db / 40) <> 0)
    by (apply Rgt_not_eq, Rlt_gt, gain_pos).
  rewrite (pydiv_ok _ fs Hfs). simpl.
  rewrite pydiv_ok by lra. simpl.
  rewrite (pydiv_ok _ _ HA). simpl.
  rewrite !(pydiv_ok _ _ Ha0). simpl.
  reflexivity.
Qed.

Lemma parametric_eq_inv (center_freq gain_db q_factor fs : R) (sos : SOS) :
  parametric_eq center_freq gain_db q_factor fs = Ok sos ->
  fs <> 0 /\ q_factor <> 0 /\ peaking_a0 center_freq gain_db q_factor fs <> 0.
Proof.
  unfold parametric_eq. intros H.
  apply bind_ok_inv in H. destruct H as [w0 [Hw0 H]].
  apply pydiv_inv in Hw0. destruct Hw0 as [Hfs ->].
  apply bind_ok_inv in H. destruct H as [alpha [Hal H]].
  apply pydiv_inv in Hal. destruct Hal as [Hq ->].
  apply bind_ok_inv in H. destruct H as [aA [HaA H]].
  apply pydiv_inv in HaA. destruct HaA as [HA ->].
  apply bind_ok_inv in H. destruct H as [aA' [HaA' H]].
  apply bind_ok_inv in H. destruct H as [c0 [Hc0 H]].
  apply pydiv_inv in Hc0. destruct Hc0 as [Ha0 _].
  split; [exact Hfs | split; [lra | exact Ha0]].
Qed.

(** C1.  [parametric_eq] returns exactly when [fs], [q_factor] and the
    unnormalised [a0 = 1 + alpha / A] are non-zero, and what it returns is
    one section holding [(b0/a0, b1/a0, b2/a0, 1, a1/a0, a2/a0)] for the
    cookbook values [A = 10^(gain_db/40)], [w0 = 2 pi center_freq / fs],
    [alpha = sin w0 / (2 q_factor)], [b0 = 1 + alpha A], [b1 = -2 cos w0],
    [b2 = 1 - alpha A], [a0 = 1 + alpha / A], [a1 = -2 cos w0],
    [a2 = 1 - alpha / A]; the stored [a0] is exactly 1. *)
Theorem parametric_eq_coefficients (center_freq gain_db q_factor fs : R) :
  let A := Rpower 10 (gain_db / 40) in
  let w0 := 2 * PI * center_freq / fs in
  let alpha := sin w0 / (2 * q_factor) in
  let c_b0 := 1 + alpha * A in
  let c_b1 := -2 * cos w0 in
  let c_b2 := 1 - alpha * A in
  let c_a0 := 1 + alpha / A in
  let c_a1 := -2 * cos w0 in
  let c_a2 := 1 - alpha / A in
  (forall sos : SOS,
      parametric_eq center_freq gain_db q_factor fs = Ok sos ->
      exists s : Biquad,
        sos = [s] /\
        b0 s = c_b0 / c_a0 /\ b1 s = c_b1 / c_a0 /\ b2 s = c_b2 / c_a0 /\
        a0 s = 1 /\ a1 s = c_a1 / c_a0 /\ a2 s = c_a2 / c_a0)
  /\ (fs <> 0 -> q_factor <> 0 -> c_a0 <> 0 ->
      exists sos : SOS, parametric_eq center_freq gain_db q_factor fs = Ok sos).
Proof.
  intros A w0 alpha c_b0 c_b1 c_b2 c_a0 c_a1 c_a2. split.
  - intros sos H.
    destruct (parametric_eq_inv _ _ _ _ _ H) as [Hfs [Hq Ha0]].
    rewrite (parametric_eq_returns _ _ _ _ Hfs Hq Ha0) in H.
    injection H as <-.
    exists (peaking_section center_freq gain_db q_factor fs).
    unfold peaking_section. simpl. repeat split; reflexivity.
  - intros Hfs Hq Ha0.
    exists [peaking_section center_freq gain_db q_factor fs].
    apply parametric_eq_returns; assumption.
Qed.

(** A run of C1 on the demo's boost, scaled to [fs = 4]: the centre sits
    at a quarter of the sample rate, so [w0 = pi / 2]. *)
Lemma parametric_eq_coefficients_witness :
  exists sos : SOS, parametric_eq 1 6 2 4 = Ok sos.
Proof.
  apply (proj2 (parametric_eq_coefficients 1 6 2 4)).
  - lra.
  - lra.
  - replace (2 * PI * 1 / 4) with (PI / 2) by lra.
    rewrite sin_PI2.
    assert (HA := gain_pos 6).
    assert (0 < 1 / (2 * 2) / Rpower 10 (6 / 40)) by (apply Rdiv_lt_0_compat; lra).
    lra.
Defined.

(** ** Zero gain: the peaking filter is the identity *)

(** A section whose numerator equals its denominator leaves the state of
    [sosfilt] at zero and passes every sample through; the empty signal
    is rejected as by every cascade. *)
Lemma identity_section_loop (s : Biquad) (x : list R) :
  b0 s = 1 -> b1 s = a1 s -> b2 s = a2 s ->
  sosfilt_loop [s] [(0, 0)] x = x.
Proof.
  intros H0 H1 H2. induction x as [| x_n xs IH]; simpl.
  - reflexivity.
  - unfold section_step. simpl.
    replace (b0 s * x_n + 0) with x_n by (rewrite H0; ring).
    replace (b1 s * x_n - a1 s * x_n + 0) with 0 by (rewrite H1; ring).
    replace (b2 s * x_n - a2 s * x_n) with 0 by (rewrite H2; ring).
    rewrite IH. reflexivity.
Qed.

Lemma identity_section_apply (s : Biquad) (x : list R) :
  a0 s = 1 -> b0 s = 1 -> b1 s = a1 s -> b2 s = a2 s ->
  x <> [] ->
  apply_iir x [s] = Ok x.
Proof.
  intros Ha H0 H1 H2 Hx. unfold apply_iir, sosfilt. simpl.
  destruct (Req_dec_T (a0 s) 1) as [_ | N]; [| contradiction].
  destruct x as [| x_n xs]; [contradiction |].
  cbn [negb length Nat.eqb call].
  rewrite identity_section_loop by assumption. reflexivity.
Qed.

(** The denominator of a section with [a1 = -2 c / (1 + al)] and
    [a2 = (1 - al) / (1 + al)], [al > 0] and [|c| < 1], does not vanish on
    the unit circle. *)
Lemma stable_denominator (s : Biquad) (al c w : R) :
  0 < al -> c * c < 1 ->
  a0 s = 1 -> a1 s = -2 * c / (1 + al) -> a2 s = (1 - al) / (1 + al) ->
  (den_re s w)² + (den_im s w)² <> 0.
Proof.
  intros Hal Hc Ha0 Ha1 Ha2 Hz.
  assert (Hre : den_re s w = 0).
  { unfold Rsqr in Hz. nra. }
  assert (Him : den_im s w = 0).
  { unfold Rsqr in Hz. nra. }
  unfold den_re, den_im in Hre, Him.
  rewrite cos_2a in Hre. rewrite sin_2a in Him.
  rewrite Ha0, Ha1, Ha2 in Hre. rewrite Ha1, Ha2 in Him.
  assert (Hcs := sin2_cos2 w). unfold Rsqr in Hcs.
  set (C := cos w) in *. set (S := sin w) in *.
  assert (Hre' : (1 + al) + -2 * c * C + (1 - al) * (C * C - S * S) = 0).
  { apply (Rmult_eq_compat_r (1 + al)) in Hre.
    rewrite Rmult_0_l in Hre. rewrite <- Hre. field. lra. }
  assert (Him' : -2 * c * S + (1 - al) * (2 * S * C) = 0).
  { apply (Rmult_eq_compat_r (1 + al)) in Him.
    rewrite Rmult_0_l in Him.
    transitivity (- (- (-2 * c / (1 + al) * S + (1 - al) / (1 + al) * (2 * S * C)) * (1 + al))).
    - field. lra.
    - rewrite Him. ring. }
  assert (HS : S = 0).
  { assert (E : 2 * al * S = 0).
    { replace (2 * al * S)
        with (((1 + al) + -2 * c * C + (1 - al) * (C * C - S * S)) * S
              - (-2 * c * S + (1 - al) * (2 * S * C)) * C
              - (1 - al) * S * (1 - (S * S + C * C)))
        by ring.
      rewrite Hre', Him', Hcs. ring. }
    apply Rmult_integral in E. destruct E as [E | E]; [lra | exact E]. }
  rewrite HS in *.
  assert (HCC : C * C = 1) by lra.
  assert (E : C = c) by nra.
  rewrite E in HCC. lra.
Qed.

Lemma unit_magnitude (s : Biquad) (w : R) :
  b0 s = a0 s -> b1 s = a1 s -> b2 s = a2 s ->
  (den_re s w)² + (den_im s w)² <> 0 ->
  magnitude_sq s w = 1.
Proof.
  intros H0 H1 H2 Hd. unfold magnitude_sq.
  replace (num_re s w) with (den_re s w)
    by (unfold num_re, den_re; rewrite H0, H1, H2; reflexivity).
  replace (num_im s w) with (den_im s w)
    by (unfold num_im, den_im; rewrite H1, H2; reflexivity).
  field. exact Hd.
Qed.

(** A centre frequency strictly inside [(0, fs/2)] puts [w0] strictly
    inside [(0, pi)]. *)
Lemma w0_in_range (center_freq fs : R) :
  0 < center_freq < fs / 2 ->
  0 < 2 * PI * center_freq / fs < PI.
Proof.
  intros [Hc Hn]. assert (Hfs : 0 < fs) by lra.
  assert (Hpi := PI_RGT_0).
  split.
  - apply Rdiv_lt_0_compat; [nra | exact Hfs].
  - apply (Rmult_lt_reg_r fs); [exact Hfs |].
    replace (2 * PI * center_freq / fs * fs) with (2 * PI * center_freq) by (field; lra).
    nra.
Qed.

(** C4.  With [gain_db = 0], a centre frequency strictly between 0 and
    [fs/2] and a positive [q_factor], [parametric_eq] returns one section
    whose numerator [(b0, b1, b2)] equals its denominator [(1, a1, a2)];
    the section's frequency response has magnitude 1 at every frequency
    (its denominator never vanishes there), and filtering a signal of at
    least one sample with it returns the signal. *)
Theorem parametric_eq_zero_gain_identity (center_freq q_factor fs : R) :
  0 < center_freq < fs / 2 -> 0 < q_factor ->
  exists s : Biquad,
    parametric_eq center_freq 0 q_factor fs = Ok [s] /\
    a0 s = 1 /\ b0 s = 1 /\ b1 s = a1 s /\ b2 s = a2 s /\
    (forall w : R, (den_re s w)² + (den_im s w)² <> 0 /\ magnitude_sq s w = 1) /\
    (forall x : list R, x <> [] -> apply_iir x [s] = Ok x).
Proof.
  intros Hc Hq.
  assert (Hfs : 0 < fs) by lra.
  destruct (w0_in_range _ _ Hc) as [Hw0 Hw1].
  set (w0 := 2 * PI * center_freq / fs) in *.
  assert (Hsin : 0 < sin w0) by (apply sin_gt_0; assumption).
  set (al := sin w0 / (2 * q_factor)).
  assert (Hal : 0 < al) by (apply Rdiv_lt_0_compat; lra).
  assert (Hcos : cos w0 * cos w0 < 1).
  { assert (H := sin2_cos2 w0). unfold Rsqr in H. nra. }
  assert (Hret : parametric_eq center_freq 0 q_factor fs
                 = Ok [peaking_section center_freq 0 q_factor fs]).
  { apply parametric_eq_returns; try lra.
    unfold peaking_a0. rewrite gain_zero_db. fold w0. fold al. lra. }
  exists (peaking_section center_freq 0 q_factor fs).
  assert (E0 : b0 (peaking_section center_freq 0 q_factor fs) = 1).
  { unfold peaking_section. simpl. rewrite gain_zero_db. fold w0. fold al. field. lra. }
  assert (E1 : b1 (peaking_section center_freq 0 q_factor fs)
               = a1 (peaking_section center_freq 0 q_factor fs)) by reflexivity.
  assert (E2 : b2 (peaking_section center_freq 0 q_factor fs)
               = a2 (peaking_section center_freq 0 q_factor fs)).
  { unfold peaking_section. simpl. rewrite gain_zero_db. fold w0. fold al. field. lra. }
  assert (Ea : a0 (peaking_section center_freq 0 q_factor fs) = 1) by reflexivity.
  split; [exact Hret |].
  split; [exact Ea |]. split; [exact E0 |]. split; [exact E1 |]. split; [exact E2 |].
  split.
  - intros w.
    assert (Hd : (den_re (peaking_section center_freq 0 q_factor fs) w)²
                 + (den_im (peaking_section center_freq 0 q_factor fs) w)² <> 0).
    { apply (stable_denominator _ al (cos w0) w Hal Hcos Ea).
      - unfold peaking_section. simpl. rewrite gain_zero_db. fold w0. fold al. field. lra.
      - unfold peaking_section. simpl. rewrite gain_zero_db. fold w0. fold al. field. lra. }
    split; [exact Hd |].
    apply unit_magnitude; assumption.
  - intros x Hx. apply identity_section_apply; assumption.
Qed.

(** C4 at [center_freq = 1000], [q_factor = 2], [fs = 44100]. *)
Lemma parametric_eq_zero_gain_identity_witness :
  exists s : Biquad,
    parametric_eq 1000 0 2 44100 = Ok [s] /\
    a0 s = 1 /\ b0 s = 1 /\ b1 s = a1 s /\ b2 s = a2 s /\
    (forall w : R, (den_re s w)² + (den_im s w)² <> 0 /\ magnitude_sq s w = 1) /\
    (forall x : list R, x <> [] -> apply_iir x [s] = Ok x).
Proof.
  apply (parametric_eq_zero_gain_identity 1000 2 44100); lra.
Defined.

(** ** The cascade filter [apply_iir] *)

Lemma a0_all_ones_Forall (sos : SOS) :
  a0_all_ones sos = true <-> Forall (fun s => a0 s = 1) sos.
Proof.
  induction sos as [| s sos IH]; simpl.
  - split; [constructor | reflexivity].
  - destruct (Req_dec_T (a0 s) 1) as [E | N].
    + rewrite IH. split.
      * intros H. constructor; assumption.
      * intros H. inversion H; assumption.
    + split; [discriminate |].
      intros H. inversion H. contradiction.
Qed.

Lemma length_eqb_nonempty {A : Type} (l : list A) :
  l <> [] -> (length l =? 0)%nat = false.
Proof.
  intros H. destruct l; [contradiction | reflexivity].
Qed.

(** The four ways a call of [apply_iir] ends. *)
Lemma apply_iir_valid (sos : SOS) (x : list R) :
  sos <> [] -> Forall (fun s => a0 s = 1) sos -> x <> [] ->
  apply_iir x sos = Ok (sosfilt_loop sos (zero_state sos) x).
Proof.
  intros Hs H Hx. apply a0_all_ones_Forall in H.
  unfold apply_iir, sosfilt.
  rewrite (length_eqb_nonempty _ Hs), H, (length_eqb_nonempty _ Hx). reflexivity.
Qed.

Lemma apply_iir_invalid (sos : SOS) (x : list R) :
  sos <> [] -> a0_all_ones sos = false ->
  apply_iir x sos = Raise Callee (ValueError "sos[:, 3] should be all ones").
Proof.
  intros Hs H. unfold apply_iir, sosfilt.
  rewrite (length_eqb_nonempty _ Hs), H. reflexivity.
Qed.

Lemma apply_iir_no_section (x : list R) :
  apply_iir x [] = Raise Callee (ValueError "sos array must be shape (n_sections, 6)").
Proof. reflexivity. Qed.

Lemma apply_iir_no_sample (sos : SOS) :
  sos <> [] -> Forall (fun s => a0 s = 1) sos ->
  apply_iir [] sos
  = Raise Callee (ValueError "cannot reshape array of size 0 into shape (0)").
Proof.
  intros Hs H. apply a0_all_ones_Forall in H.
  unfold apply_iir, sosfilt.
  rewrite (length_eqb_nonempty _ Hs), H. reflexivity.
Qed.

(** Output length equals input length, whatever the state. *)
Lemma sosfilt_loop_length (sos : SOS) (x : list R) :
  forall zi, length (sosfilt_loop sos zi x) = length x.
Proof.
  induction x as [| x_n xs IH]; intros zi; simpl.
  - reflexivity.
  - rewrite IH. reflexivity.
Qed.

(** A zero sample leaves a zero state at zero and comes out as zero. *)
Lemma cascade_step_zero (sos : SOS) :
  cascade_step sos (zero_state sos) 0 = (0, zero_state sos).
Proof.
  induction sos as [| s sos IH]; simpl.
  - reflexivity.
  - unfold section_step. simpl.
    replace (b0 s * 0 + 0) with 0 by ring.
    rewrite IH. simpl.
    replace (b1 s * 0 - a1 s * 0 + 0) with 0 by ring.
    replace (b2 s * 0 - a2 s * 0) with 0 by ring.
    reflexivity.
Qed.

Lemma sosfilt_loop_zero (sos : SOS) (n : nat) :
  sosfilt_loop sos (zero_state sos) (repeat 0 n) = repeat 0 n.
Proof.
  induction n as [| n IH]; simpl.
  - reflexivity.
  - rewrite cascade_step_zero. simpl. rewrite IH. reflexivity.
Qed.

(** C5, as the code has it.  Through any valid cascade, [apply_iir] of
    the all-zero signal of length [n >= 1] returns the all-zero signal of
    length [n]: the state starts at zero in every call and a zero sample
    keeps it there.  For [n = 0] the call does not return: scipy's
    [sosfilt] rejects the empty signal with a [ValueError]. *)
Theorem apply_iir_zero_signal (sos : SOS) (n : nat) :
  valid_cascade sos ->
  ((1 <= n)%nat -> apply_iir (repeat 0 n) sos = Ok (repeat 0 n))
  /\ (n = 0%nat ->
      exists msg, apply_iir (repeat 0 n) sos = Raise Callee (ValueError msg)).
Proof.
  intros [Hs Hone]. split.
  - intros Hn. rewrite (apply_iir_valid _ _ Hs Hone).
    + rewrite sosfilt_loop_zero. reflexivity.
    + destruct n; [lia | discriminate].
  - intros ->. eexists. apply (apply_iir_no_sample _ Hs Hone).
Qed.

(** C5 as amended, on a two-section cascade and three samples. *)
Lemma apply_iir_zero_signal_witness :
  apply_iir (repeat 0 3%nat)
            [mkBiquad 1 2 1 1 (-1) (1 / 2); mkBiquad (1 / 4) 0 (-1 / 4) 1 0 (1 / 2)]
  = Ok (repeat 0 3%nat).
Proof.
  refine (proj1 (apply_iir_zero_signal
                   [mkBiquad 1 2 1 1 (-1) (1 / 2); mkBiquad (1 / 4) 0 (-1 / 4) 1 0 (1 / 2)]
                   3 _) _).
  - split.
    + discriminate.
    + repeat constructor.
  - lia.
Defined.

(** C5 as stated fails at [n = 0]: the all-zero signal of length 0 is the
    empty signal, which a valid one-section cascade does not return. *)
Lemma apply_iir_empty_signal_counterexample :
  valid_cascade [mkBiquad 1 2 1 1 (-1) (1 / 2)]
  /\ apply_iir (repeat 0 0%nat) [mkBiquad 1 2 1 1 (-1) (1 / 2)]
     = Raise Callee (ValueError "cannot reshape array of size 0 into shape (0)")
  /\ apply_iir (repeat 0 0%nat) [mkBiquad 1 2 1 1 (-1) (1 / 2)] <> Ok (repeat 0 0%nat).
Proof.
  assert (V : valid_cascade [mkBiquad 1 2 1 1 (-1) (1 / 2)]).
  { split; [discriminate | repeat constructor]. }
  assert (E : apply_iir (repeat 0 0%nat) [mkBiquad 1 2 1 1 (-1) (1 / 2)]
              = Raise Callee (ValueError "cannot reshape array of size 0 into shape (0)")).
  { destruct V as [Hs Hone]. exact (apply_iir_no_sample _ Hs Hone). }
  split; [exact V |]. split; [exact E |].
  rewrite E. discriminate.
Qed.

(** *** Linearity *)

Lemma lin_state_zero (a b : R) (sos : SOS) :
  lin_state a (zero_state sos) b (zero_state sos) = zero_state sos.
Proof.
  induction sos as [| s sos IH]; simpl.
  - reflexivity.
  - rewrite IH. f_equal. f_equal; ring.
Qed.

Lemma cascade_step_state_length (sos : SOS) :
  forall zi x_n, length zi = length sos ->
                 length (snd (cascade_step sos zi x_n)) = length sos.
Proof.
  induction sos as [| s sos IH]; intros zi x_n Hl; simpl.
  - reflexivity.
  - destruct zi as [| z zi]; [discriminate Hl |].
    simpl. rewrite IH; [reflexivity | simpl in Hl; lia].
Qed.

(** One sample: the step of the combined state on the combined sample is
    the combination of the two steps. *)
Lemma cascade_step_linear (a b : R) (sos : SOS) :
  forall zx zy u v,
    length zx = length sos -> length zy = length sos ->
    cascade_step sos (lin_state a zx b zy) (a * u + b * v)
    = (a * fst (cascade_step sos zx u) + b * fst (cascade_step sos zy v),
       lin_state a (snd (cascade_step sos zx u)) b (snd (cascade_step sos zy v))).
Proof.
  induction sos as [| s sos IH]; intros zx zy u v Hx Hy.
  - destruct zx; [| discriminate Hx]. destruct zy; [| discriminate Hy]. reflexivity.
  - destruct zx as [| p zx]; [discriminate Hx |].
    destruct zy as [| q zy]; [discriminate Hy |].
    simpl in Hx, Hy. simpl.
    replace (b0 s * (a * u + b * v) + (a * fst p + b * fst q))
      with (a * (b0 s * u + fst p) + b * (b0 s * v + fst q)) by ring.
    rewrite IH by lia. simpl. f_equal. f_equal. f_equal; ring.
Qed.

Lemma sosfilt_loop_linear (a b : R) (sos : SOS) (x : list R) :
  forall y zx zy,
    length zx = length sos -> length zy = length sos ->
    sosfilt_loop sos (lin_state a zx b zy) (lincomb a x b y)
    = lincomb a (sosfilt_loop sos zx x) b (sosfilt_loop sos zy y).
Proof.
  induction x as [| u x IH]; intros y zx zy Hx Hy.
  - reflexivity.
  - destruct y as [| v y]; [reflexivity |].
    simpl. rewrite cascade_step_linear by assumption. simpl.
    rewrite IH by (apply cascade_step_state_length; assumption).
    reflexivity.
Qed.

Lemma zero_state_length (sos : SOS) : length (zero_state sos) = length sos.
Proof. unfold zero_state. apply length_map. Qed.

(** C10.  [apply_iir] is linear over the reals: on two signals of one
    length, filtering [a x + b y] gives [a] times the filtered [x] plus
    [b] times the filtered [y]; what [sosfilt] rejects (a cascade without
    sections or with a section whose [a0] is not 1, empty signals) is
    rejected on all three signals alike, and a valid cascade filters all
    three signals when they are not empty. *)
Theorem apply_iir_linear (sos : SOS) (x y : list R) (a b : R) :
  length x = length y ->
  apply_iir (lincomb a x b y) sos
  = lincomb_outcome a (apply_iir x sos) b (apply_iir y sos)
  /\ (valid_cascade sos -> x <> [] ->
      exists fx fy : list R,
        apply_iir x sos = Ok fx /\ apply_iir y sos = Ok fy /\
        length fx = length x /\ length fy = length y /\
        apply_iir (lincomb a x b y) sos = Ok (lincomb a fx b fy)).
Proof.
  intros Hlen.
  assert (Hne : x <> [] -> y <> [] /\ lincomb a x b y <> []).
  { intros Hx. destruct x as [| u x]; [contradiction |].
    destruct y as [| v y]; [discriminate Hlen |].
    split; discriminate. }
  assert (Hval : sos <> [] -> Forall (fun s => a0 s = 1) sos -> x <> [] ->
                 apply_iir (lincomb a x b y) sos
                 = Ok (lincomb a (sosfilt_loop sos (zero_state sos) x)
                               b (sosfilt_loop sos (zero_state sos) y))).
  { intros Hs Hone Hx. destruct (Hne Hx) as [_ Hl].
    rewrite (apply_iir_valid _ _ Hs Hone Hl).
    rewrite <- (lin_state_zero a b sos) at 1.
    rewrite sosfilt_loop_linear by apply zero_state_length.
    reflexivity. }
  split.
  - destruct sos as [| s0 sos0] eqn:Es; [reflexivity |].
    assert (Hs : s0 :: sos0 <> []) by discriminate.
    destruct (a0_all_ones (s0 :: sos0)) eqn:E.
    + apply a0_all_ones_Forall in E.
      destruct x as [| u x'] eqn:Ex.
      * destruct y as [| v y']; [| discriminate Hlen].
        simpl lincomb. rewrite (apply_iir_no_sample _ Hs E). reflexivity.
      * assert (Hx : u :: x' <> []) by discriminate.
        destruct (Hne Hx) as [Hy _].
        rewrite (Hval Hs E Hx), (apply_iir_valid _ _ Hs E Hx), (apply_iir_valid _ _ Hs E Hy).
        reflexivity.
    + rewrite !(apply_iir_invalid _ _ Hs E). reflexivity.
  - intros [Hs Hone] Hx. destruct (Hne Hx) as [Hy _].
    exists (sosfilt_loop sos (zero_state sos) x), (sosfilt_loop sos (zero_state sos) y).
    rewrite (apply_iir_valid _ _ Hs Hone Hx), (apply_iir_valid _ _ Hs Hone Hy),
      !sosfilt_loop_length.
    repeat split. exact (Hval Hs Hone Hx).
Qed.

(** C10 on one section, two samples, [a = 2] and [b = 3]. *)
Lemma apply_iir_linear_witness :
  apply_iir (lincomb 2 [1; 0] 3 [0; 1]) [mkBiquad 1 2 1 1 (-1) (1 / 2)]
  = lincomb_outcome 2 (apply_iir [1; 0] [mkBiquad 1 2 1 1 (-1) (1 / 2)])
                    3 (apply_iir [0; 1] [mkBiquad 1 2 1 1 (-1) (1 / 2)]).
Proof.
  apply (apply_iir_linear [mkBiquad 1 2 1 1 (-1) (1 / 2)] [1; 0] [0; 1] 2 3).
  reflexivity.
Defined.

(** ** The FIR application [apply_fir] *)

(** *** Finite sums *)

Lemma sumf_S (f : nat -> R) (n : nat) : sumf f (S n) = sumf f n + f n.
Proof.
  unfold sumf. rewrite seq_S, map_app, fold_right_app. simpl.
  generalize (map f (seq 0 n)) as l. intros l.
  induction l as [| r l IH]; simpl.
  - ring.
  - rewrite IH. ring.
Qed.

Lemma sumf_ext (f g : nat -> R) (n : nat) :
  (forall i, (i < n)%nat -> f i = g i) -> sumf f n = sumf g n.
Proof.
  induction n as [| n IH]; intros H.
  - reflexivity.
  - rewrite !sumf_S, IH, (H n) by (intros; auto with arith). reflexivity.
Qed.

Lemma sumf_zero (f : nat -> R) (n : nat) :
  (forall i, (i < n)%nat -> f i = 0) -> sumf f n = 0.
Proof.
  induction n as [| n IH]; intros H.
  - reflexivity.
  - rewrite sumf_S, IH, (H n) by (intros; auto with arith). ring.
Qed.

Lemma sumf_app (f : nat -> R) (p q : nat) :
  sumf f (p + q) = sumf f p + sumf (fun i => f (p + i)%nat) q.
Proof.
  induction q as [| q IH].
  - rewrite Nat.add_0_r. unfold sumf at 3. simpl. ring.
  - rewrite Nat.add_succ_r, !sumf_S, IH. ring.
Qed.

Lemma sumf_split (f : nat -> R) (p q n : nat) :
  n = (p + q)%nat -> sumf f n = sumf f p + sumf (fun i => f (p + i)%nat) q.
Proof. intros ->. apply sumf_app. Qed.

Lemma sumf_head (f : nat -> R) (n : nat) :
  sumf f (S n) = f 0%nat + sumf (fun i => f (S i)) n.
Proof.
  change (S n) with (1 + n)%nat. rewrite sumf_app.
  unfold sumf at 1. simpl. ring.
Qed.

Lemma sumf_rev (f : nat -> R) (n : nat) :
  sumf f n = sumf (fun i => f (n - 1 - i)%nat) n.
Proof.
  revert f. induction n as [| n IH]; intros f.
  - reflexivity.
  - rewrite sumf_S, sumf_head.
    replace (S n - 1 - 0)%nat with n by lia.
    rewrite (IH f). rewrite Rplus_comm. f_equal.
    apply sumf_ext. intros i Hi. f_equal. lia.
Qed.

(** *** Dot products as sums *)

Lemma dotn_nil_l (n : nat) (ys : list R) : dotn n [] ys = 0.
Proof. unfold dotn. rewrite firstn_nil. reflexivity. Qed.

Lemma dotn_nil_r (n : nat) (xs : list R) : dotn n xs [] = 0.
Proof.
  unfold dotn. rewrite firstn_nil. unfold dot. rewrite combine_nil. reflexivity.
Qed.

Lemma dotn_sumf (n : nat) :
  forall xs ys, dotn n xs ys = sumf (fun m => nth m xs 0 * nth m ys 0) n.
Proof.
  induction n as [| n IH]; intros xs ys.
  - reflexivity.
  - destruct xs as [| x xs].
    + rewrite dotn_nil_l. symmetry. apply sumf_zero.
      intros i _. destruct i; simpl; ring.
    + destruct ys as [| y ys].
      * rewrite dotn_nil_r. symmetry. apply sumf_zero.
        intros i _. destruct i; simpl; ring.
      * rewrite sumf_head. simpl. rewrite <- IH. reflexivity.
Qed.

(** *** Samples *)

Lemma sample_nat (x : list R) (p : nat) : sample x (Z.of_nat p) = nth p x 0.
Proof.
  unfold sample. destruct (Z.of_nat p <? 0)%Z eqn:E.
  - apply Z.ltb_lt in E. lia.
  - rewrite Nat2Z.id. reflexivity.
Qed.

Lemma sample_neg (x : list R) (i : Z) : (i < 0)%Z -> sample x i = 0.
Proof.
  intros H. unfold sample. apply Z.ltb_lt in H. rewrite H. reflexivity.
Qed.

Lemma sample_beyond (x : list R) (i : Z) : (Z.of_nat (length x) <= i)%Z -> sample x i = 0.
Proof.
  intros H. unfold sample. destruct (i <? 0)%Z; [reflexivity |].
  apply nth_overflow. lia.
Qed.

(** *** The correlation kernel, output by output *)

Lemma nth_map_seq (f : nat -> R) (n k : nat) :
  (k < n)%nat -> nth k (map f (seq 0 n)) 0 = f k.
Proof.
  intros H. rewrite (nth_indep _ 0 (f 0%nat)) by (rewrite length_map, length_seq; exact H).
  rewrite map_nth, seq_nth by exact H. reflexivity.
Qed.

Lemma correlate_same_length (a w : list R) :
  (0 < length w <= length a)%nat ->
  length (correlate_same a w) = length a.
Proof.
  intros H. unfold correlate_same.
  rewrite !length_app, !length_map, !length_seq.
  assert (length w / 2 < length w)%nat by (apply Nat.div_lt; lia).
  lia.
Qed.

Lemma correlate_same_left (a w : list R) (k : nat) :
  (k < length w / 2)%nat ->
  dotn (length w - length w / 2 + k) a (skipn (length w / 2 - k) w) = corr_at a w k.
Proof.
  intros Hk. unfold corr_at.
  assert (Hpos : (0 < length w)%nat).
  { destruct (length w); [simpl in Hk; lia | lia]. }
  assert (Hh : (length w / 2 < length w)%nat) by (apply Nat.div_lt; lia).
  set (h := (length w / 2)%nat) in *.
  rewrite dotn_sumf.
  rewrite (sumf_split _ (h - k) (length w - h + k) (length w)) by lia.
  rewrite (sumf_zero _ (h - k)).
  - rewrite Rplus_0_l. apply sumf_ext. intros m Hm.
    rewrite nth_skipn, Rmult_comm. f_equal.
    replace (Z.of_nat (h - k + m) + Z.of_nat k - Z.of_nat h)%Z with (Z.of_nat m) by lia.
    symmetry. apply sample_nat.
  - intros u Hu. rewrite sample_neg by lia. ring.
Qed.

Lemma correlate_same_middle (a w : list R) (i : nat) :
  dotn (length w) (skipn i a) w = corr_at a w (length w / 2 + i).
Proof.
  unfold corr_at. rewrite dotn_sumf. apply sumf_ext. intros m Hm.
  rewrite nth_skipn, Rmult_comm. f_equal.
  replace (Z.of_nat m + Z.of_nat (length w / 2 + i) - Z.of_nat (length w / 2))%Z
    with (Z.of_nat (i + m)) by lia.
  symmetry. apply sample_nat.
Qed.

Lemma correlate_same_right (a w : list R) (i : nat) :
  (0 < length w <= length a)%nat ->
  (i < length w - length w / 2 - 1)%nat ->
  dotn (length w - 1 - i) (skipn (length a - length w + 1 + i) a) w
  = corr_at a w (length w / 2 + (length a - length w + 1) + i).
Proof.
  intros Hlen Hi. unfold corr_at.
  set (h := (length w / 2)%nat) in *.
  rewrite dotn_sumf.
  rewrite (sumf_split _ (length w - 1 - i) (1 + i) (length w)) by lia.
  rewrite (sumf_zero _ (1 + i)).
  - rewrite Rplus_0_r. apply sumf_ext. intros m Hm.
    rewrite nth_skipn, Rmult_comm. f_equal.
    replace (Z.of_nat m + Z.of_nat (h + (length a - length w + 1) + i) - Z.of_nat h)%Z
      with (Z.of_nat (length a - length w + 1 + i + m)) by lia.
    symmetry. apply sample_nat.
  - intros u Hu. rewrite sample_beyond by lia. ring.
Qed.

Lemma correlate_same_nth (a w : list R) (k : nat) :
  (0 < length w <= length a)%nat -> (k < length a)%nat ->
  nth k (correlate_same a w) 0 = corr_at a w k.
Proof.
  intros Hlen Hk. unfold correlate_same.
  assert (Hh : (length w / 2 < length w)%nat) by (apply Nat.div_lt; lia).
  set (h := (length w / 2)%nat) in *.
  destruct (Nat.lt_ge_cases k h) as [Hl | Hge].
  - rewrite app_nth1 by (rewrite length_map, length_seq; exact Hl).
    rewrite nth_map_seq by exact Hl.
    apply correlate_same_left. exact Hl.
  - rewrite app_nth2 by (rewrite length_map, length_seq; lia).
    rewrite length_map, length_seq.
    destruct (Nat.lt_ge_cases (k - h) (length a - length w + 1)) as [Hm | Hr].
    + rewrite app_nth1 by (rewrite length_map, length_seq; exact Hm).
      rewrite nth_map_seq by exact Hm.
      rewrite correlate_same_middle. fold h. f_equal. lia.
    + rewrite app_nth2 by (rewrite length_map, length_seq; lia).
      rewrite length_map, length_seq.
      rewrite nth_map_seq by lia.
      rewrite correlate_same_right by (fold h; lia).
      fold h. f_equal. lia.
Qed.

(** Reversing the kernel turns the correlation into the centered
    convolution. *)
Lemma corr_at_rev (a v : list R) (k : nat) :
  (0 < length v)%nat ->
  corr_at a (rev v) k = centered_conv a v k.
Proof.
  intros Hv. unfold corr_at, centered_conv. rewrite length_rev.
  rewrite sumf_rev. apply sumf_ext. intros j Hj.
  rewrite rev_nth by lia.
  replace (length v - S (length v - 1 - j))%nat with j by lia.
  f_equal. f_equal.
  assert (E : (length v - 1 - length v / 2 = (length v - 1) / 2)%nat).
  { destruct (length v) as [| n]; [lia |].
    replace (S n - 1)%nat with n by lia.
    pose proof (Nat.div_mod_eq (S n) 2) as E1.
    pose proof (Nat.div_mod_eq n 2) as E2.
    pose proof (Nat.mod_upper_bound (S n) 2) as B1.
    pose proof (Nat.mod_upper_bound n 2) as B2.
    lia. }
  assert (Hh : (length v / 2 < length v)%nat) by (apply Nat.div_lt; lia).
  lia.
Qed.

(** *** What [apply_fir] returns *)

Lemma apply_fir_long_signal (signal kernel : list R) :
  (0 < length kernel <= length signal)%nat ->
  apply_fir signal kernel = Ok (correlate_same signal (rev kernel)).
Proof.
  intros [Hk Hs]. unfold apply_fir, np_convolve_same.
  destruct (length signal <? length kernel)%nat eqn:E.
  - apply Nat.ltb_lt in E. lia.
  - simpl.
    destruct (length signal =? 0)%nat eqn:E1; [apply Nat.eqb_eq in E1; lia |].
    destruct (length kernel =? 0)%nat eqn:E2; [apply Nat.eqb_eq in E2; lia |].
    reflexivity.
Qed.

Lemma apply_fir_long_kernel (signal kernel : list R) :
  (0 < length signal < length kernel)%nat ->
  apply_fir signal kernel = Ok (correlate_same kernel (rev signal)).
Proof.
  intros [Hs Hk]. unfold apply_fir, np_convolve_same.
  destruct (length signal <? length kernel)%nat eqn:E.
  - simpl.
    destruct (length kernel =? 0)%nat eqn:E1; [apply Nat.eqb_eq in E1; lia |].
    destruct (length signal =? 0)%nat eqn:E2; [apply Nat.eqb_eq in E2; lia |].
    reflexivity.
  - apply Nat.ltb_ge in E. lia.
Qed.

Lemma apply_fir_empty (signal kernel : list R) :
  signal = [] \/ kernel = [] ->
  exists msg, apply_fir signal kernel = Raise Callee (ValueError msg).
Proof.
  intros H. unfold apply_fir, np_convolve_same.
  destruct signal as [| s signal]; destruct kernel as [| t kernel]; simpl.
  - eexists. reflexivity.
  - eexists. reflexivity.
  - eexists. reflexivity.
  - destruct H as [H | H]; discriminate H.
Qed.

(** C3, as the code has it.  For a non-empty kernel no longer than the
    signal, [apply_fir] returns the centered linear convolution, sample
    [k] being the sum over the taps [j] of [kernel[j] * signal[k + c - j]]
    with [c = (len(kernel) - 1) // 2] and the signal read as zero outside
    its range, and the output is as long as the signal.  For a kernel
    longer than the (non-empty) signal the output is as long as the
    kernel, and an empty signal or kernel is rejected by numpy with a
    [ValueError]. *)
Theorem apply_fir_centered_same_length (signal kernel : list R) :
  ((0 < length kernel <= length signal)%nat ->
   exists out : list R,
     apply_fir signal kernel = Ok out /\
     length out = length signal /\
     forall k : nat, (k < length signal)%nat ->
                     nth k out 0 = centered_conv signal kernel k)
  /\ ((0 < length signal < length kernel)%nat ->
      exists out : list R,
        apply_fir signal kernel = Ok out /\ length out = length kernel)
  /\ (signal = [] \/ kernel = [] ->
      exists msg, apply_fir signal kernel = Raise Callee (ValueError msg)).
Proof.
  split; [| split].
  - intros H. exists (correlate_same signal (rev kernel)).
    split; [apply apply_fir_long_signal; exact H |].
    split.
    + apply correlate_same_length. rewrite length_rev. exact H.
    + intros k Hk.
      rewrite correlate_same_nth by (rewrite ?length_rev; assumption).
      apply corr_at_rev. lia.
  - intros H. exists (correlate_same kernel (rev signal)).
    split; [apply apply_fir_long_kernel; exact H |].
    apply correlate_same_length. rewrite length_rev. lia.
  - apply apply_fir_empty.
Qed.

(** C3 as amended, on a three-sample signal and a two-tap kernel. *)
Lemma apply_fir_centered_same_length_witness :
  exists out : list R,
    apply_fir [1; 2; 3] [1; 1] = Ok out /\
    length out = length [1; 2; 3] /\
    forall k : nat, (k < length [1; 2; 3])%nat ->
                    nth k out 0 = centered_conv [1; 2; 3] [1; 1] k.
Proof.
  apply (proj1 (apply_fir_centered_same_length [1; 2; 3] [1; 1])).
  simpl. lia.
Defined.

(** C3 as stated fails: a one-sample signal through a three-tap kernel
    comes back three samples long. *)
Lemma apply_fir_length_counterexample :
  apply_fir [1] [1; 2; 3] = Ok [1; 2; 3]
  /\ length [1; 2; 3] <> length [1].
Proof.
  split.
  - unfold apply_fir, np_convolve_same, correlate_same, dotn, dot. simpl.
    repeat f_equal; ring.
  - simpl. discriminate.
Qed.

(** A run of numpy's documented example:
    [np.convolve([1, 2, 3], [0, 1, 0.5], 'same')] is [[1, 2.5, 4]]. *)
Example apply_fir_numpy_example :
  apply_fir [1; 2; 3] [0; 1; 1 / 2] = Ok [1; 5 / 2; 4].
Proof.
  unfold apply_fir, np_convolve_same, correlate_same, dotn, dot. simpl.
  apply f_equal. repeat (apply f_equal2; [field |]). reflexivity.
Qed.

(** ** FIR designers *)

Section FirProperties.

Variable firwin : Z -> cutoffs -> string * R -> bool -> R -> exn + list R.
Variable kaiserord : R -> R -> exn + (Z * R).

(** Python's [numtaps % 2 == 0] bump makes any integer odd. *)
Lemma bump_to_odd (m : Z) :
  Z.odd (if (m mod 2 =? 0)%Z then (m + 1)%Z else m) = true.
Proof.
  rewrite Zmod_odd. destruct (Z.odd m) eqn:E; simpl.
  - exact E.
  - change (m + 1)%Z with (Z.succ m). rewrite Z.odd_succ, <- Z.negb_odd, E. reflexivity.
Qed.

Lemma adaptive_numtaps_value (transition_width fs attenuation_db : R) (m : Z) (beta : R) :
  0.5 * fs <> 0 ->
  kaiserord attenuation_db (transition_width / (0.5 * fs)) = inr (m, beta) ->
  adaptive_numtaps kaiserord transition_width fs attenuation_db
  = Ok (if (m mod 2 =? 0)%Z then (m + 1)%Z else m).
Proof.
  intros Hfs Hk. unfold adaptive_numtaps.
  rewrite (pydiv_ok _ _ Hfs). simpl. rewrite Hk. simpl.
  destruct (m mod 2 =? 0)%Z; reflexivity.
Qed.

Lemma adaptive_numtaps_inv (transition_width fs attenuation_db : R) (n : Z) :
  adaptive_numtaps kaiserord transition_width fs attenuation_db = Ok n ->
  exists (m : Z) (beta : R),
    0.5 * fs <> 0 /\
    kaiserord attenuation_db (transition_width / (0.5 * fs)) = inr (m, beta) /\
    n = (if (m mod 2 =? 0)%Z then (m + 1)%Z else m).
Proof.
  unfold adaptive_numtaps. intros H.
  apply bind_ok_inv in H. destruct H as [width [Hw H]].
  apply pydiv_inv in Hw. destruct Hw as [Hfs ->].
  apply bind_ok_inv in H. destruct H as [[m beta] [Hk H]].
  unfold call in Hk.
  destruct (kaiserord attenuation_db (transition_width / (0.5 * fs))) as [e | r] eqn:E;
    [discriminate Hk |].
  injection Hk as ->. simpl in H.
  exists m, beta. split; [exact Hfs | split; [reflexivity |]].
  destruct (m mod 2 =? 0)%Z; injection H as <-; reflexivity.
Qed.

End FirProperties.

(** C6.  The FIR [notch] returns what [bandstop] returns on the band
    [center_freq - bandwidth/2 .. center_freq + bandwidth/2], which is
    [firwin] on that band with the Kaiser window and [pass_zero=True]. *)
Theorem notch_is_bandstop
  (firwin : Z -> cutoffs -> string * R -> bool -> R -> exn + list R)
  (center_freq bandwidth fs : R) (numtaps : Z) (beta : R) :
  notch firwin center_freq bandwidth fs numtaps beta
  = bandstop firwin (center_freq - bandwidth / 2) (center_freq + bandwidth / 2)
             fs numtaps beta
  /\ notch firwin center_freq bandwidth fs numtaps beta
     = call (firwin numtaps
                    (Band (center_freq - bandwidth / 2) (center_freq + bandwidth / 2))
                    ("kaiser"%string, beta) true fs).
Proof.
  split; reflexivity.
Qed.

(** C7.  Whatever [adaptive_numtaps] returns is odd: it is the Kaiser
    estimate itself when that is odd and the estimate plus one when it is
    even.  It returns whenever [fs] is non-zero and the estimate exists. *)
Theorem adaptive_numtaps_odd
  (kaiserord : R -> R -> exn + (Z * R))
  (transition_width fs attenuation_db : R) :
  (forall n : Z,
      adaptive_numtaps kaiserord transition_width fs attenuation_db = Ok n ->
      Z.odd n = true /\
      exists (m : Z) (beta : R),
        kaiserord attenuation_db (transition_width / (0.5 * fs)) = inr (m, beta) /\
        (Z.even m = true -> n = (m + 1)%Z) /\
        (Z.odd m = true -> n = m))
  /\ (forall (m : Z) (beta : R),
         fs <> 0 ->
         kaiserord attenuation_db (transition_width / (0.5 * fs)) = inr (m, beta) ->
         exists n : Z,
           adaptive_numtaps kaiserord transition_width fs attenuation_db = Ok n).
Proof.
  split.
  - intros n H.
    destruct (adaptive_numtaps_inv _ _ _ _ _ H) as [m [beta [Hfs [Hk ->]]]].
    split; [apply bump_to_odd |].
    exists m, beta. split; [exact Hk |].
    rewrite Zmod_odd. split; intros E.
    + rewrite <- Z.negb_odd in E. destruct (Z.odd m); [discriminate E | reflexivity].
    + rewrite E. reflexivity.
  - intros m beta Hfs Hk. eexists.
    apply (adaptive_numtaps_value kaiserord _ _ _ m beta); [lra | exact Hk].
Qed.

(** *** The Kaiser estimate scipy computes *)

Lemma PI_gt_3 : 3 < PI.
Proof. assert (H := PI2_3_2). lra. Qed.

Lemma scipy_kaiserord_returns (ripple width : R) :
  8 <= Rabs ripple -> width <> 0 ->
  scipy_kaiserord ripple width
  = inr (Zceil ((Rabs ripple - 7.95) / 2.285 / (PI * width) + 1),
         kaiser_beta (Rabs ripple)).
Proof.
  intros HA Hw. unfold scipy_kaiserord.
  destruct (Rlt_dec (Rabs ripple) 8) as [L | _]; [lra |].
  destruct (Req_dec_T (PI * width) 0) as [E | _]; [| reflexivity].
  apply Rmult_integral in E. assert (H := PI_gt_3).
  destruct E as [E | E]; [lra | contradiction].
Qed.

Lemma scipy_kaiserord_zero_width (ripple : R) :
  8 <= Rabs ripple ->
  scipy_kaiserord ripple 0 = inl ZeroDivisionError.
Proof.
  intros HA. unfold scipy_kaiserord.
  destruct (Rlt_dec (Rabs ripple) 8) as [L | _]; [lra |].
  destruct (Req_dec_T (PI * 0) 0) as [_ | N]; [reflexivity |].
  contradiction N. ring.
Qed.

Lemma scipy_kaiserord_small_ripple (ripple width : R) :
  Rabs ripple < 8 ->
  exists msg, scipy_kaiserord ripple width = inl (ValueError msg).
Proof.
  intros HA. unfold scipy_kaiserord.
  destruct (Rlt_dec (Rabs ripple) 8) as [_ | N]; [| contradiction].
  eexists. reflexivity.
Qed.

(** Kaiser's quotient [(A - 7.95) / 2.285 / (pi * width)] at 60 dB lies
    strictly between 0 and 1 once the normalised width reaches 10. *)
Lemma kaiser_quotient_60 (width : R) :
  10 <= width ->
  0 < (60 - 7.95) / 2.285 / (PI * width) < 1.
Proof.
  intros Hw. assert (Hpi := PI_gt_3).
  set (P := PI * width).
  assert (HP : 30 < P) by (unfold P; nra).
  set (t := (60 - 7.95) / 2.285 / P).
  assert (Ht : t * P = (60 - 7.95) / 2.285) by (unfold t; field; lra).
  assert (Hc : 0 < (60 - 7.95) / 2.285 < 30) by lra.
  split; nra.
Qed.

Lemma adaptive_numtaps_wide_60 :
  adaptive_numtaps scipy_kaiserord 10 2 60 = Ok 3%Z.
Proof.
  assert (Hfs : 0.5 * 2 <> 0) by lra.
  assert (Hw : 10 / (0.5 * 2) = 10) by lra.
  rewrite (adaptive_numtaps_value scipy_kaiserord 10 2 60 2 (kaiser_beta 60) Hfs).
  - reflexivity.
  - rewrite Hw, scipy_kaiserord_returns by (rewrite ?Rabs_pos_eq; lra).
    rewrite Rabs_pos_eq by lra. f_equal. f_equal.
    apply Zceil_eq. assert (H := kaiser_quotient_60 10). simpl. lra.
Qed.

Lemma adaptive_numtaps_negative_60 :
  adaptive_numtaps scipy_kaiserord (-10) 2 60 = Ok 1%Z.
Proof.
  assert (Hfs : 0.5 * 2 <> 0) by lra.
  assert (Hw : -10 / (0.5 * 2) = -10) by lra.
  rewrite (adaptive_numtaps_value scipy_kaiserord (-10) 2 60 1 (kaiser_beta 60) Hfs).
  - reflexivity.
  - rewrite Hw, scipy_kaiserord_returns by (rewrite ?Rabs_pos_eq; lra).
    rewrite Rabs_pos_eq by lra. f_equal. f_equal.
    apply Zceil_eq. assert (H := kaiser_quotient_60 10).
    replace ((60 - 7.95) / 2.285 / (PI * -10))
      with (- ((60 - 7.95) / 2.285 / (PI * 10)))
      by (field; assert (Hpi := PI_gt_3); lra).
    simpl. lra.
Qed.

(** C7 on scipy's estimate: a normalised width of 10 at 60 dB asks for 2
    taps, and [adaptive_numtaps] answers 3. *)
Lemma adaptive_numtaps_odd_witness :
  Z.odd 3 = true /\
  exists (m : Z) (beta : R),
    scipy_kaiserord 60 (10 / (0.5 * 2)) = inr (m, beta) /\
    (Z.even m = true -> 3%Z = (m + 1)%Z) /\
    (Z.odd m = true -> 3%Z = m).
Proof.
  apply (proj1 (adaptive_numtaps_odd scipy_kaiserord 10 2 60) 3%Z).
  exact adaptive_numtaps_wide_60.
Defined.

(** C8 as stated fails: with [transition_width = -10], [fs = 2] and the
    default 60 dB, the call returns the integer 1. *)
Lemma adaptive_numtaps_negative_width_counterexample :
  -10 <= 0 /\ adaptive_numtaps scipy_kaiserord (-10) 2 60 = Ok 1%Z.
Proof.
  split; [lra | exact adaptive_numtaps_negative_60].
Qed.

(** C8, as the code has it.  [adaptive_numtaps] does not look at the sign
    of [transition_width].  With [fs] non-zero and an attenuation scipy
    accepts ([|attenuation_db| >= 8]): a zero width fails with the
    [ZeroDivisionError] of Kaiser's formula, raised inside [kaiserord];
    a negative width does not fail, it returns an odd integer, which for
    a positive [fs] is at most 1. *)
Theorem adaptive_numtaps_nonpositive_width (transition_width fs attenuation_db : R) :
  transition_width <= 0 -> fs <> 0 -> 8 <= Rabs attenuation_db ->
  (transition_width = 0 ->
   adaptive_numtaps scipy_kaiserord transition_width fs attenuation_db
   = Raise Callee ZeroDivisionError)
  /\ (transition_width < 0 ->
      exists n : Z,
        adaptive_numtaps scipy_kaiserord transition_width fs attenuation_db = Ok n /\
        Z.odd n = true /\
        (0 < fs -> (n <= 1)%Z)).
Proof.
  intros Hle Hfs HA.
  assert (Hhalf : 0.5 * fs <> 0) by lra.
  split.
  - intros ->. unfold adaptive_numtaps.
    rewrite (pydiv_ok _ _ Hhalf). simpl.
    replace (0 / (0.5 * fs)) with 0 by (field; lra).
    rewrite (scipy_kaiserord_zero_width _ HA). reflexivity.
  - intros Hneg.
    set (width := transition_width / (0.5 * fs)).
    assert (Hw : width <> 0).
    { unfold width. intros E.
      apply (Rmult_eq_compat_r (0.5 * fs)) in E.
      replace (transition_width / (0.5 * fs) * (0.5 * fs)) with transition_width in E
        by (field; lra).
      lra. }
    set (m := Zceil ((Rabs attenuation_db - 7.95) / 2.285 / (PI * width) + 1)).
    exists (if (m mod 2 =? 0)%Z then (m + 1)%Z else m).
    split; [| split].
    + apply (adaptive_numtaps_value scipy_kaiserord _ _ _ m
                                    (kaiser_beta (Rabs attenuation_db)) Hhalf).
      fold width. apply scipy_kaiserord_returns; assumption.
    + apply bump_to_odd.
    + intros Hpos.
      assert (Hwneg : width < 0).
      { unfold width. apply Ropp_lt_cancel. rewrite Ropp_0.
        replace (- (transition_width / (0.5 * fs)))
          with ((- transition_width) / (0.5 * fs)) by (field; lra).
        apply Rdiv_lt_0_compat; lra. }
      assert (Hq : (Rabs attenuation_db - 7.95) / 2.285 / (PI * width) < 0).
      { assert (Hpi := PI_gt_3).
        apply Ropp_lt_cancel. rewrite Ropp_0.
        replace (- ((Rabs attenuation_db - 7.95) / 2.285 / (PI * width)))
          with ((Rabs attenuation_db - 7.95) / 2.285 / (PI * - width))
          by (field; lra).
        apply Rdiv_lt_0_compat; [lra | nra]. }
      assert (Hm : (m <= 1)%Z).
      { apply le_IZR.
        destruct (Zceil_bound ((Rabs attenuation_db - 7.95) / 2.285 / (PI * width) + 1))
          as [Hlo _].
        fold m in Hlo.
        assert (IZR m < 2) by lra.
        apply IZR_le. apply lt_IZR in H. lia. }
      rewrite Zmod_odd. destruct (Z.odd m) eqn:Eo; simpl; [exact Hm |].
      assert (m <> 1%Z) by (intros ->; discriminate Eo). lia.
Qed.

(** C8 as amended, at [transition_width = -10], [fs = 2], 60 dB. *)
Lemma adaptive_numtaps_nonpositive_width_witness :
  exists n : Z,
    adaptive_numtaps scipy_kaiserord (-10) 2 60 = Ok n /\
    Z.odd n = true /\
    (0 < 2 -> (n <= 1)%Z).
Proof.
  apply (proj2 (adaptive_numtaps_nonpositive_width (-10) 2 60
                  ltac:(lra) ltac:(lra) ltac:(rewrite Rabs_pos_eq; lra))).
  lra.
Defined.

(** ** The shelving filters *)

(** *** When they return *)

Lemma shelf_alpha_inv (A w0 q_factor alpha : R) :
  shelf_alpha A w0 q_factor = Ok alpha ->
  A <> 0 /\ q_factor <> 0 /\ 0 <= shelf_radicand A q_factor.
Proof.
  unfold shelf_alpha, shelf_radicand. intros H.
  apply bind_ok_inv in H. destruct H as [iA [HiA H]].
  apply pydiv_inv in HiA. destruct HiA as [HA ->].
  apply bind_ok_inv in H. destruct H as [iq [Hiq H]].
  apply pydiv_inv in Hiq. destruct Hiq as [Hq ->].
  apply bind_ok_inv in H. destruct H as [r [Hr H]].
  apply pysqrt_inv in Hr. destruct Hr as [Hr _].
  split; [exact HA | split; [exact Hq | exact Hr]].
Qed.

Lemma shelf_alpha_ok (A w0 q_factor : R) :
  A <> 0 -> q_factor <> 0 -> 0 <= shelf_radicand A q_factor ->
  shelf_alpha A w0 q_factor = Ok (sin w0 / 2 * sqrt (shelf_radicand A q_factor)).
Proof.
  intros HA Hq Hr. unfold shelf_alpha.
  rewrite (pydiv_ok _ _ HA). simpl. rewrite (pydiv_ok _ _ Hq). simpl.
  fold (shelf_radicand A q_factor). rewrite (pysqrt_ok _ Hr). reflexivity.
Qed.

Lemma shelf_alpha_domain_error (A w0 q_factor : R) :
  A <> 0 -> q_factor <> 0 -> shelf_radicand A q_factor < 0 ->
  shelf_alpha A w0 q_factor = Raise Local (ValueError "math domain error").
Proof.
  intros HA Hq Hr. unfold shelf_alpha.
  rewrite (pydiv_ok _ _ HA). simpl. rewrite (pydiv_ok _ _ Hq). simpl.
  fold (shelf_radicand A q_factor). rewrite (pysqrt_neg _ Hr). reflexivity.
Qed.

Lemma shelving_lowshelf_domain (cutoff gain_db fs q_factor : R) (sos : SOS) :
  shelving_lowshelf cutoff gain_db fs q_factor = Ok sos ->
  0 <= shelf_radicand (Rpower 10 (gain_db / 40)) q_factor.
Proof.
  unfold shelving_lowshelf. intros H.
  apply bind_ok_inv in H. destruct H as [w0 [_ H]].
  apply bind_ok_inv in H. destruct H as [alpha [Hal _]].
  apply shelf_alpha_inv in Hal. tauto.
Qed.

Lemma shelving_highshelf_domain (cutoff gain_db fs q_factor : R) (sos : SOS) :
  shelving_highshelf cutoff gain_db fs q_factor = Ok sos ->
  0 <= shelf_radicand (Rpower 10 (gain_db / 40)) q_factor.
Proof.
  unfold shelving_highshelf. intros H.
  apply bind_ok_inv in H. destruct H as [w0 [_ H]].
  apply bind_ok_inv in H. destruct H as [alpha [Hal _]].
  apply shelf_alpha_inv in Hal. tauto.
Qed.

Lemma shelving_lowshelf_domain_error (cutoff gain_db fs q_factor : R) :
  fs <> 0 -> q_factor <> 0 ->
  shelf_radicand (Rpower 10 (gain_db / 40)) q_factor < 0 ->
  shelving_lowshelf cutoff gain_db fs q_factor
  = Raise Local (ValueError "math domain error").
Proof.
  intros Hfs Hq Hr. unfold shelving_lowshelf.
  rewrite (pydiv_ok _ _ Hfs). simpl.
  rewrite shelf_alpha_domain_error;
    [reflexivity | apply Rgt_not_eq, Rlt_gt, gain_pos | exact Hq | exact Hr].
Qed.

Lemma shelving_highshelf_domain_error (cutoff gain_db fs q_factor : R) :
  fs <> 0 -> q_factor <> 0 ->
  shelf_radicand (Rpower 10 (gain_db / 40)) q_factor < 0 ->
  shelving_highshelf cutoff gain_db fs q_factor
  = Raise Local (ValueError "math domain error").
Proof.
  intros Hfs Hq Hr. unfold shelving_highshelf.
  rewrite (pydiv_ok _ _ Hfs). simpl.
  rewrite shelf_alpha_domain_error;
    [reflexivity | apply Rgt_not_eq, Rlt_gt, gain_pos | exact Hq | exact Hr].
Qed.

(** At a quarter of the sample rate ([w0 = pi/2]) both shelving designers
    return as soon as the radicand is non-negative. *)
Lemma shelving_quarter_rate_returns (gain_db q_factor : R) :
  q_factor <> 0 ->
  0 <= shelf_radicand (Rpower 10 (gain_db / 40)) q_factor ->
  (exists s, shelving_lowshelf 1 gain_db 4 q_factor = Ok [s])
  /\ (exists s, shelving_highshelf 1 gain_db 4 q_factor = Ok [s]).
Proof.
  intros Hq Hr.
  assert (HA := gain_pos gain_db).
  set (A := Rpower 10 (gain_db / 40)) in *.
  assert (Hw : 2 * PI * 1 / 4 = PI / 2) by lra.
  assert (Hs := sqrt_pos (shelf_radicand A q_factor)).
  assert (HsA := sqrt_pos A).
  assert (Hal : shelf_alpha A (PI / 2) q_factor
                = Ok (sin (PI / 2) / 2 * sqrt (shelf_radicand A q_factor)))
    by (apply shelf_alpha_ok; [lra | exact Hq | exact Hr]).
  set (al := sin (PI / 2) / 2 * sqrt (shelf_radicand A q_factor)) in *.
  assert (Hal0 : 0 <= al) by (unfold al; rewrite sin_PI2; lra).
  assert (Hprod : 0 <= 2 * sqrt A * al) by nra.
  split.
  - unfold shelving_lowshelf. fold A.
    rewrite pydiv_ok by lra. simpl. rewrite Hw, Hal. simpl.
    rewrite pysqrt_ok by lra. simpl. rewrite cos_PI2.
    rewrite !pydiv_ok by lra. simpl. eexists. reflexivity.
  - unfold shelving_highshelf. fold A.
    rewrite pydiv_ok by lra. simpl. rewrite Hw, Hal. simpl.
    rewrite pysqrt_ok by lra. simpl. rewrite cos_PI2.
    rewrite !pydiv_ok by lra. simpl. eexists. reflexivity.
Qed.

(** *** The sign of the radicand *)

(** The radicand is negative exactly when [A + 1/A] exceeds
    [2 q / (q - 1)], for [q > 1]. *)
Lemma shelf_radicand_neg (A q_factor : R) :
  0 < A -> 1 < q_factor ->
  2 * q_factor / (q_factor - 1) < A + 1 / A ->
  shelf_radicand A q_factor < 0.
Proof.
  intros HA Hq H. unfold shelf_radicand.
  set (S := A + 1 / A) in *.
  assert (Hd : 0 < q_factor - 1) by lra.
  assert (HS : 2 * q_factor < S * (q_factor - 1)).
  { apply (Rmult_lt_compat_r (q_factor - 1)) in H; [| exact Hd].
    replace (2 * q_factor / (q_factor - 1) * (q_factor - 1)) with (2 * q_factor) in H
      by (field; lra).
    exact H. }
  assert (E : S * (1 / q_factor - 1) + 2
              = (2 * q_factor - S * (q_factor - 1)) / q_factor) by (field; lra).
  rewrite E. apply Ropp_lt_cancel. rewrite Ropp_0.
  replace (- ((2 * q_factor - S * (q_factor - 1)) / q_factor))
    with ((S * (q_factor - 1) - 2 * q_factor) / q_factor) by (field; lra).
  apply Rdiv_lt_0_compat; lra.
Qed.

(** For [q > 1] a gain of large enough magnitude makes the radicand
    negative. *)
Lemma shelf_radicand_eventually_neg (q_factor : R) :
  1 < q_factor ->
  exists G : R, 0 < G /\
    forall gain_db : R, G < Rabs gain_db ->
      shelf_radicand (Rpower 10 (gain_db / 40)) q_factor < 0.
Proof.
  intros Hq.
  set (B := 2 * q_factor / (q_factor - 1)).
  assert (HB : 1 < B).
  { unfold B. apply (Rmult_lt_reg_r (q_factor - 1)); [lra |].
    replace (2 * q_factor / (q_factor - 1) * (q_factor - 1)) with (2 * q_factor)
      by (field; lra).
    lra. }
  assert (Hl10 : 0 < ln 10).
  { rewrite <- ln_1. apply ln_increasing; lra. }
  assert (HlB : 0 < ln B).
  { rewrite <- ln_1. apply ln_increasing; lra. }
  exists (40 * ln B / ln 10). split.
  - apply Rdiv_lt_0_compat; lra.
  - intros gain_db HG.
    assert (Hbig : forall x : R, 40 * ln B / ln 10 < x -> B < Rpower 10 (x / 40)).
    { intros x Hx. unfold Rpower.
      rewrite <- (exp_ln B) at 1 by lra.
      apply exp_increasing.
      apply (Rmult_lt_compat_r (ln 10)) in Hx; [| exact Hl10].
      replace (40 * ln B / ln 10 * ln 10) with (40 * ln B) in Hx by (field; lra).
      lra. }
    assert (HA := gain_pos gain_db).
    apply shelf_radicand_neg; [exact HA | exact Hq |]. fold B.
    assert (Hinv : 0 < 1 / Rpower 10 (gain_db / 40)).
    { apply Rdiv_lt_0_compat; lra. }
    unfold Rabs in HG. destruct (Rcase_abs gain_db) as [Hn | Hp].
    + assert (H := Hbig _ HG).
      replace (- gain_db / 40) with (- (gain_db / 40)) in H by lra.
      rewrite Rpower_Ropp in H.
      replace (1 / Rpower 10 (gain_db / 40)) with (/ Rpower 10 (gain_db / 40))
        by (field; lra).
      lra.
    + assert (H := Hbig _ HG). lra.
Qed.

(** [10 ** (12/40)] stays below 2 (because [10^3 < 2^10]) and
    [10 ** (13/40)] exceeds it (because [2^40 < 10^13]). *)
Lemma gain_12_lt_2 : 1 <= Rpower 10 (12 / 40) < 2.
Proof.
  split.
  - rewrite <- (Rpower_O 10) by lra. apply Rle_Rpower; lra.
  - destruct (Rlt_le_dec (Rpower 10 (12 / 40)) 2) as [L | G]; [exact L | exfalso].
    assert (H : 2 ^ 10 <= Rpower 10 (12 / 40) ^ 10) by (apply pow_incr; lra).
    rewrite <- (Rpower_pow 10 (Rpower 10 (12 / 40))) in H by apply gain_pos.
    rewrite Rpower_mult in H.
    replace (12 / 40 * INR 10) with (INR 3) in H by (simpl; lra).
    rewrite (Rpower_pow 3 10) in H by lra.
    simpl in H. lra.
Qed.

Lemma gain_13_gt_2 : 2 < Rpower 10 (13 / 40).
Proof.
  destruct (Rlt_le_dec 2 (Rpower 10 (13 / 40))) as [L | G]; [exact L | exfalso].
  assert (HA := gain_pos 13).
  assert (H : Rpower 10 (13 / 40) ^ 40 <= 2 ^ 40) by (apply pow_incr; lra).
  rewrite <- (Rpower_pow 40 (Rpower 10 (13 / 40))) in H by exact HA.
  rewrite Rpower_mult in H.
  replace (13 / 40 * INR 40) with (INR 13) in H by (simpl; lra).
  rewrite (Rpower_pow 13 10) in H by lra.
  simpl in H. lra.
Qed.

Lemma shelf_radicand_q5_gain12 : 0 < shelf_radicand (Rpower 10 (12 / 40)) 5.
Proof.
  destruct gain_12_lt_2 as [H1 H2]. unfold shelf_radicand.
  set (A := Rpower 10 (12 / 40)) in *.
  replace ((A + 1 / A) * (1 / 5 - 1) + 2) with ((2 * A - 1) * (2 - A) * (2 / 5) / A)
    by (field; lra).
  apply Rdiv_lt_0_compat; nra.
Qed.

Lemma shelf_radicand_q5_gain13 : shelf_radicand (Rpower 10 (13 / 40)) 5 < 0.
Proof.
  assert (H := gain_13_gt_2).
  apply shelf_radicand_neg; [lra | lra |].
  set (A := Rpower 10 (13 / 40)) in *.
  assert (Hi : 0 < 1 / A) by (apply Rdiv_lt_0_compat; lra).
  assert (E : A * (1 / A) = 1) by (field; lra).
  set (i := 1 / A) in *.
  assert (Hi2 : i < 2) by nra.
  assert (Hp : 0 < (A - 2) * (2 - i)) by (apply Rmult_lt_0_compat; lra).
  lra.
Qed.

(** C9 as stated fails in its example: at [q_factor = 5] and
    [gain_db = 12] the radicand is still positive and both shelving
    designers return a section. *)
Lemma shelving_q5_gain12_counterexample :
  0 < shelf_radicand (Rpower 10 (12 / 40)) 5
  /\ (exists s, shelving_lowshelf 1 12 4 5 = Ok [s])
  /\ (exists s, shelving_highshelf 1 12 4 5 = Ok [s]).
Proof.
  assert (H := shelf_radicand_q5_gain12).
  split; [exact H |].
  apply shelving_quarter_rate_returns; lra.
Qed.

(** C9, as the code has it.  With [A = 10^(gain_db/40)], the shelving
    designers return a section only when
    [(A + 1/A) * (1/q_factor - 1) + 2 >= 0]; when it is negative (and
    [fs], [q_factor] are non-zero) [math.sqrt] raises its domain error
    and no coefficients are returned.  For [q_factor > 1] every gain of
    large enough magnitude makes it negative; [q_factor = 5] with
    [gain_db = 13] does. *)
Theorem shelving_domain (cutoff gain_db fs q_factor : R) :
  let A := Rpower 10 (gain_db / 40) in
  (forall sos : SOS,
      shelving_lowshelf cutoff gain_db fs q_factor = Ok sos ->
      0 <= shelf_radicand A q_factor)
  /\ (forall sos : SOS,
         shelving_highshelf cutoff gain_db fs q_factor = Ok sos ->
         0 <= shelf_radicand A q_factor)
  /\ (fs <> 0 -> q_factor <> 0 -> shelf_radicand A q_factor < 0 ->
      shelving_lowshelf cutoff gain_db fs q_factor
      = Raise Local (ValueError "math domain error")
      /\ shelving_highshelf cutoff gain_db fs q_factor
         = Raise Local (ValueError "math domain error"))
  /\ (1 < q_factor ->
      exists G : R, 0 < G /\
        forall g : R, G < Rabs g -> shelf_radicand (Rpower 10 (g / 40)) q_factor < 0)
  /\ shelf_radicand (Rpower 10 (13 / 40)) 5 < 0.
Proof.
  intros A. split; [| split; [| split; [| split]]].
  - intros sos H. exact (shelving_lowshelf_domain _ _ _ _ _ H).
  - intros sos H. exact (shelving_highshelf_domain _ _ _ _ _ H).
  - intros Hfs Hq Hr. split.
    + apply shelving_lowshelf_domain_error; assumption.
    + apply shelving_highshelf_domain_error; assumption.
  - apply shelf_radicand_eventually_neg.
  - exact shelf_radicand_q5_gain13.
Qed.

(** C9 as amended, at [q_factor = 5] with [gain_db = 13]: both calls end
    in the domain error. *)
Lemma shelving_domain_witness :
  shelving_lowshelf 200 13 44100 5 = Raise Local (ValueError "math domain error")
  /\ shelving_highshelf 200 13 44100 5 = Raise Local (ValueError "math domain error").
Proof.
  apply (proj1 (proj2 (proj2 (shelving_domain 200 13 44100 5)))).
  - lra.
  - lra.
  - exact shelf_radicand_q5_gain13.
Defined.

(** ** IIR designers *)

Section IirProperties.

Variable butter : Z -> cutoffs -> FilterType -> exn + SOS.
Variable cheby1 : Z -> R -> cutoffs -> FilterType -> exn + SOS.
Variable cheby2 : Z -> R -> cutoffs -> FilterType -> exn + SOS.
Variable ellip : Z -> R -> R -> cutoffs -> FilterType -> exn + SOS.
Variable bessel : Z -> cutoffs -> FilterType -> exn + SOS.

Lemma normalized_value (cutoff fs : R) :
  fs <> 0 -> normalized cutoff (fs / 2) = Ok (Scalar (cutoff / (fs / 2))).
Proof.
  intros Hfs. unfold normalized. rewrite pydiv_ok by lra. reflexivity.
Qed.

Lemma normalized_band_value (f_low f_high fs : R) :
  fs <> 0 ->
  normalized_band f_low f_high (fs / 2)
  = Ok (Band (f_low / (fs / 2)) (f_high / (fs / 2))).
Proof.
  intros Hfs. unfold normalized_band. rewrite !pydiv_ok by lra. reflexivity.
Qed.

Lemma normalized_zero_rate (cutoff : R) :
  normalized cutoff (0 / 2) = Raise Local ZeroDivisionError.
Proof.
  unfold normalized. replace (0 / 2) with 0 by lra. rewrite pydiv_zero. reflexivity.
Qed.

Lemma normalized_band_zero_rate (f_low f_high : R) :
  normalized_band f_low f_high (0 / 2) = Raise Local ZeroDivisionError.
Proof.
  unfold normalized_band. replace (0 / 2) with 0 by lra. rewrite pydiv_zero. reflexivity.
Qed.

Lemma passes_through_scalar (cutoff fs : R) (k : cutoffs -> exn + SOS) :
  passes_through (Wn <- normalized cutoff (fs / 2) ;; call (k Wn)) fs
                 (k (Scalar (cutoff / (fs / 2)))).
Proof.
  unfold passes_through. destruct (Req_dec_T fs 0) as [-> | Hfs].
  - left. split; [reflexivity |]. rewrite normalized_zero_rate. reflexivity.
  - right. split; [exact Hfs |]. rewrite (normalized_value _ _ Hfs). reflexivity.
Qed.

Lemma passes_through_band (f_low f_high fs : R) (k : cutoffs -> exn + SOS) :
  passes_through (Wn <- normalized_band f_low f_high (fs / 2) ;; call (k Wn)) fs
                 (k (Band (f_low / (fs / 2)) (f_high / (fs / 2)))).
Proof.
  unfold passes_through. destruct (Req_dec_T fs 0) as [-> | Hfs].
  - left. split; [reflexivity |]. rewrite normalized_band_zero_rate. reflexivity.
  - right. split; [exact Hfs |]. rewrite (normalized_band_value _ _ _ Hfs). reflexivity.
Qed.

End IirProperties.

(** An outcome that passes a routine's result through is never an error
    of the designer's own making about its parameters. *)
Lemma passes_through_no_rejection (o : outcome SOS) (fs : R) (r : exn + SOS) :
  passes_through o fs r -> forall msg, o <> Raise Local (ValueError msg).
Proof.
  intros [[_ ->] | [_ ->]] msg.
  - discriminate.
  - destruct r; simpl; discriminate.
Qed.

(** C2, as the code has it.  No IIR designer checks its parameters.
    Each one divides its frequencies by [fs / 2], failing with
    [ZeroDivisionError] when [fs = 0], and otherwise hands the order and
    the normalised frequencies to the synthesis routine of its family and
    passes on what the routine answers: its sections, or the exception
    raised inside it. *)
Theorem iir_designers_pass_through
  (butter : Z -> cutoffs -> FilterType -> exn + SOS)
  (cheby1 cheby2 : Z -> R -> cutoffs -> FilterType -> exn + SOS)
  (ellip : Z -> R -> R -> cutoffs -> FilterType -> exn + SOS)
  (bessel : Z -> cutoffs -> FilterType -> exn + SOS)
  (cutoff f_low f_high center_freq bandwidth fs : R) (order : Z)
  (ripple_db attenuation_db : R) :
  let Wn := Scalar (cutoff / (fs / 2)) in
  let Wb := Band (f_low / (fs / 2)) (f_high / (fs / 2)) in
  let Wc := Band ((center_freq - bandwidth / 2) / (fs / 2))
                 ((center_freq + bandwidth / 2) / (fs / 2)) in
  passes_through (butter_lowpass butter cutoff fs order) fs
                 (butter order Wn Lowpass)
  /\ passes_through (butter_highpass butter cutoff fs order) fs
                    (butter order Wn Highpass)
  /\ passes_through (butter_bandpass butter f_low f_high fs order) fs
                    (butter order Wb Bandpass)
  /\ passes_through (butter_bandstop butter f_low f_high fs order) fs
                    (butter order Wb Bandstop)
  /\ passes_through (butter_notch butter center_freq bandwidth fs order) fs
                    (butter order Wc Bandstop)
  /\ passes_through (cheby1_lowpass cheby1 cutoff fs order ripple_db) fs
                    (cheby1 order ripple_db Wn Lowpass)
  /\ passes_through (cheby1_highpass cheby1 cutoff fs order ripple_db) fs
                    (cheby1 order ripple_db Wn Highpass)
  /\ passes_through (cheby1_bandpass cheby1 f_low f_high fs order ripple_db) fs
                    (cheby1 order ripple_db Wb Bandpass)
  /\ passes_through (cheby1_bandstop cheby1 f_low f_high fs order ripple_db) fs
                    (cheby1 order ripple_db Wb Bandstop)
  /\ passes_through (cheby2_lowpass cheby2 cutoff fs order attenuation_db) fs
                    (cheby2 order attenuation_db Wn Lowpass)
  /\ passes_through (cheby2_highpass cheby2 cutoff fs order attenuation_db) fs
                    (cheby2 order attenuation_db Wn Highpass)
  /\ passes_through (cheby2_bandstop cheby2 f_low f_high fs order attenuation_db) fs
                    (cheby2 order attenuation_db Wb Bandstop)
  /\ passes_through (ellip_lowpass ellip cutoff fs order ripple_db attenuation_db) fs
                    (ellip order ripple_db attenuation_db Wn Lowpass)
  /\ passes_through (ellip_highpass ellip cutoff fs order ripple_db attenuation_db) fs
                    (ellip order ripple_db attenuation_db Wn Highpass)
  /\ passes_through (ellip_bandstop ellip f_low f_high fs order ripple_db attenuation_db) fs
                    (ellip order ripple_db attenuation_db Wb Bandstop)
  /\ passes_through (bessel_lowpass bessel cutoff fs order) fs
                    (bessel order Wn Lowpass)
  /\ passes_through (bessel_highpass bessel cutoff fs order) fs
                    (bessel order Wn Highpass)
  /\ passes_through (bessel_bandpass bessel f_low f_high fs order) fs
                    (bessel order Wb Bandpass).
Proof.
  intros Wn Wb Wc.
  repeat split;
    first [ exact (passes_through_scalar cutoff fs _)
          | exact (passes_through_band f_low f_high fs _)
          | exact (passes_through_band (center_freq - bandwidth / 2)
                                       (center_freq + bandwidth / 2) fs _) ].
Qed.

(** C2 as stated fails: a cutoff of 30000 Hz at [fs = 44100] lies above
    [fs / 2], yet [butter_lowpass] raises nothing of its own.  When the
    synthesis routine rejects the frequency, the exception the caller
    sees is the routine's, raised inside it; whatever the routine does,
    the designer's outcome is never a parameter error of the designer's. *)
Lemma iir_designer_unchecked_counterexample :
  44100 / 2 <= 30000
  /\ butter_lowpass
       (fun _ _ _ =>
          inl (ValueError "Digital filter critical frequencies must be 0 < Wn < 1"))
       30000 44100 6
     = Raise Callee (ValueError "Digital filter critical frequencies must be 0 < Wn < 1")
  /\ (forall (butter : Z -> cutoffs -> FilterType -> exn + SOS) (msg : string),
         butter_lowpass butter 30000 44100 6 <> Raise Local (ValueError msg)).
Proof.
  split; [lra |]. split.
  - unfold butter_lowpass. rewrite normalized_value by lra. reflexivity.
  - intros butter msg.
    apply (passes_through_no_rejection _ 44100
             (butter 6%Z (Scalar (30000 / (44100 / 2))) Lowpass)).
    exact (passes_through_scalar 30000 44100 _).
Qed.

(** * Further properties of the code *)

(** ** More on [apply_iir] *)

Lemma a0_all_ones_app (sos1 sos2 : SOS) :
  a0_all_ones (sos1 ++ sos2) = a0_all_ones sos1 && a0_all_ones sos2.
Proof.
  induction sos1 as [| s sos1 IH]; simpl.
  - reflexivity.
  - destruct (Req_dec_T (a0 s) 1); [exact IH | reflexivity].
Qed.

Lemma a0_all_ones_false (sos : SOS) :
  a0_all_ones sos = false -> Exists (fun s => a0 s <> 1) sos.
Proof.
  induction sos as [| s sos IH]; simpl.
  - discriminate.
  - destruct (Req_dec_T (a0 s) 1) as [E | N]; intros H.
    + apply Exists_cons_tl. exact (IH H).
    + apply Exists_cons_hd. exact N.
Qed.

(** X1.  How a call of [apply_iir] ends.  A signal of at least one
    sample through a cascade of at least one section, every section
    storing [a0 = 1], is filtered, and as many samples come back as went
    in.  Every other call fails with a [ValueError]: scipy's complaint
    about [sos[:, 3]] when some section stores another [a0], and a
    complaint about the shape for a cascade without sections or a signal
    without samples. *)
Theorem apply_iir_length_or_rejection (signal : list R) (sos : SOS) :
  (valid_cascade sos /\ signal <> []
   /\ exists out : list R,
       apply_iir signal sos = Ok out /\ length out = length signal)
  \/ (Exists (fun s => a0 s <> 1) sos
      /\ apply_iir signal sos
         = Raise Callee (ValueError "sos[:, 3] should be all ones"))
  \/ ((sos = [] \/ signal = [])
      /\ exists msg : string, apply_iir signal sos = Raise Callee (ValueError msg)).
Proof.
  destruct sos as [| s0 sos0].
  { right. right. split; [left; reflexivity |].
    eexists. apply apply_iir_no_section. }
  assert (Hs : s0 :: sos0 <> []) by discriminate.
  destruct (a0_all_ones (s0 :: sos0)) eqn:E.
  - apply a0_all_ones_Forall in E.
    destruct signal as [| x0 xs].
    + right. right. split; [right; reflexivity |].
      eexists. apply (apply_iir_no_sample _ Hs E).
    + left. split; [split; assumption |]. split; [discriminate |].
      exists (sosfilt_loop (s0 :: sos0) (zero_state (s0 :: sos0)) (x0 :: xs)).
      split; [apply apply_iir_valid; [exact Hs | exact E | discriminate]
             | apply sosfilt_loop_length].
  - right. left.
    split; [apply a0_all_ones_false; exact E | apply apply_iir_invalid; assumption].
Qed.

(** One sample through two cascades laid end to end is the sample
    through the first, then through the second. *)
Lemma cascade_step_app (sos1 sos2 : SOS) :
  forall (z1 z2 : list (R * R)) (x_n : R),
    length z1 = length sos1 ->
    cascade_step (sos1 ++ sos2) (z1 ++ z2) x_n
    = (fst (cascade_step sos2 z2 (fst (cascade_step sos1 z1 x_n))),
       snd (cascade_step sos1 z1 x_n)
       ++ snd (cascade_step sos2 z2 (fst (cascade_step sos1 z1 x_n)))).
Proof.
  induction sos1 as [| s sos1 IH]; intros z1 z2 x_n Hl.
  - destruct z1; [| discriminate Hl]. simpl.
    destruct (cascade_step sos2 z2 x_n). reflexivity.
  - destruct z1 as [| z z1]; [discriminate Hl |].
    simpl in Hl. simpl. rewrite IH by lia. reflexivity.
Qed.

Lemma sosfilt_loop_app (sos1 sos2 : SOS) (x : list R) :
  forall z1 z2 : list (R * R),
    length z1 = length sos1 ->
    sosfilt_loop (sos1 ++ sos2) (z1 ++ z2) x
    = sosfilt_loop sos2 z2 (sosfilt_loop sos1 z1 x).
Proof.
  induction x as [| x_n xs IH]; intros z1 z2 Hl.
  - reflexivity.
  - simpl. rewrite cascade_step_app by exact Hl. simpl.
    rewrite IH by (apply cascade_step_state_length; exact Hl).
    reflexivity.
Qed.

Lemma zero_state_app (sos1 sos2 : SOS) :
  zero_state (sos1 ++ sos2) = zero_state sos1 ++ zero_state sos2.
Proof. unfold zero_state. apply map_app. Qed.

Lemma sosfilt_loop_nonempty (sos : SOS) (zi : list (R * R)) (x : list R) :
  x <> [] -> sosfilt_loop sos zi x <> [].
Proof.
  intros Hx. destruct x; [contradiction | discriminate].
Qed.

(** X2.  Filtering a signal of at least one sample with two cascades laid
    end to end, each of at least one section, is filtering with the first
    and then, from a fresh zero state, with the second: the chained
    [apply_iir] calls of the demo's mastering chain amount to one call on
    the concatenated sections.  A section the one call rejects is rejected
    by the chain as well, with the same error. *)
Theorem apply_iir_concat (signal : list R) (sos1 sos2 : SOS) :
  sos1 <> [] -> sos2 <> [] -> signal <> [] ->
  apply_iir signal (sos1 ++ sos2)
  = (y <- apply_iir signal sos1 ;; apply_iir y sos2).
Proof.
  intros H1 H2 Hx.
  assert (H12 : sos1 ++ sos2 <> []).
  { destruct sos1; [contradiction | discriminate]. }
  assert (Happ := a0_all_ones_app sos1 sos2).
  destruct (a0_all_ones sos1) eqn:E1.
  - assert (F1 : Forall (fun s => a0 s = 1) sos1) by (apply a0_all_ones_Forall; exact E1).
    rewrite (apply_iir_valid sos1 signal H1 F1 Hx). cbn [bind].
    assert (Hy := sosfilt_loop_nonempty sos1 (zero_state sos1) signal Hx).
    destruct (a0_all_ones sos2) eqn:E2.
    + assert (F2 : Forall (fun s => a0 s = 1) sos2) by (apply a0_all_ones_Forall; exact E2).
      assert (F12 : Forall (fun s => a0 s = 1) (sos1 ++ sos2))
        by (apply a0_all_ones_Forall; rewrite Happ; reflexivity).
      rewrite (apply_iir_valid _ _ H12 F12 Hx), (apply_iir_valid _ _ H2 F2 Hy).
      rewrite zero_state_app, sosfilt_loop_app by apply zero_state_length.
      reflexivity.
    + rewrite (apply_iir_invalid _ _ H12), (apply_iir_invalid _ _ H2 E2);
        [reflexivity | rewrite Happ; reflexivity].
  - rewrite (apply_iir_invalid _ _ H12), (apply_iir_invalid _ _ H1 E1);
      [reflexivity | rewrite Happ; reflexivity].
Qed.

(** X2 on the impulse through two one-section cascades. *)
Lemma apply_iir_concat_witness :
  apply_iir [1; 0; 0]
            ([mkBiquad 1 2 1 1 (-1) (1 / 2)] ++ [mkBiquad (1 / 4) 0 (-1 / 4) 1 0 (1 / 2)])
  = (y <- apply_iir [1; 0; 0] [mkBiquad 1 2 1 1 (-1) (1 / 2)] ;;
     apply_iir y [mkBiquad (1 / 4) 0 (-1 / 4) 1 0 (1 / 2)]).
Proof.
  apply (apply_iir_concat [1; 0; 0] [mkBiquad 1 2 1 1 (-1) (1 / 2)]
                          [mkBiquad (1 / 4) 0 (-1 / 4) 1 0 (1 / 2)]); discriminate.
Defined.

(** The output of one section started in state [(z1, z2)]: the first two
    samples see the state, every later one is the difference equation. *)
Lemma section_loop_recurrence (s : Biquad) (x : list R) :
  forall (z1 z2 : R) (n : nat),
    (n < length x)%nat ->
    nth n (sosfilt_loop [s] [(z1, z2)] x) 0
    = b0 s * nth n x 0
      + match n with
        | O => z1
        | S O => b1 s * nth 0 x 0
                 - a1 s * nth 0 (sosfilt_loop [s] [(z1, z2)] x) 0 + z2
        | S (S m) =>
            b1 s * nth (S m) x 0 + b2 s * nth m x 0
            - a1 s * nth (S m) (sosfilt_loop [s] [(z1, z2)] x) 0
            - a2 s * nth m (sosfilt_loop [s] [(z1, z2)] x) 0
        end.
Proof.
  induction x as [| x0 xs IH]; intros z1 z2 n Hn.
  - simpl in Hn. lia.
  - simpl. unfold section_step. simpl.
    destruct n as [| n]; [reflexivity |].
    simpl in Hn. rewrite IH by lia.
    destruct n as [| n].
    + destruct xs; [simpl in Hn; lia | simpl; ring].
    + destruct n as [| n]; simpl.
      * destruct xs as [| x1 xs]; [simpl in Hn; lia |].
        simpl. unfold section_step. simpl. ring.
      * ring.
Qed.

(** X3.  On a signal of at least one sample, one section with [a0 = 1]
    realises the difference equation
    [y[n] = b0 x[n] + b1 x[n-1] + b2 x[n-2] - a1 y[n-1] - a2 y[n-2]],
    input and output read as zero before the first sample. *)
Theorem apply_iir_difference_equation (s : Biquad) (x : list R) :
  a0 s = 1 -> x <> [] ->
  exists y : list R,
    apply_iir x [s] = Ok y /\
    length y = length x /\
    forall n : nat, (n < length x)%nat ->
      nth n y 0
      = b0 s * sample x (Z.of_nat n)
        + b1 s * sample x (Z.of_nat n - 1)
        + b2 s * sample x (Z.of_nat n - 2)
        - a1 s * sample y (Z.of_nat n - 1)
        - a2 s * sample y (Z.of_nat n - 2).
Proof.
  intros Ha Hx.
  assert (Hone : Forall (fun t => a0 t = 1) [s]) by (constructor; [exact Ha | constructor]).
  assert (Hs : [s] <> []) by discriminate.
  exists (sosfilt_loop [s] [(0, 0)] x).
  split; [exact (apply_iir_valid [s] x Hs Hone Hx) |].
  split; [apply sosfilt_loop_length |].
  intros n Hn. rewrite section_loop_recurrence by exact Hn.
  rewrite sample_nat.
  destruct n as [| [| m]].
  - rewrite !sample_neg by lia. ring.
  - replace (Z.of_nat 1 - 1)%Z with (Z.of_nat 0) by lia.
    rewrite !sample_nat. rewrite !sample_neg by lia. ring.
  - replace (Z.of_nat (S (S m)) - 1)%Z with (Z.of_nat (S m)) by lia.
    replace (Z.of_nat (S (S m)) - 2)%Z with (Z.of_nat m) by lia.
    rewrite !sample_nat. ring.
Qed.

(** X3 on the section of the demo's 6 dB boost pattern and three samples. *)
Lemma apply_iir_difference_equation_witness :
  exists y : list R,
    apply_iir [1; 0; 0] [mkBiquad 1 2 1 1 (-1) (1 / 2)] = Ok y /\
    length y = length [1; 0; 0] /\
    forall n : nat, (n < length [1; 0; 0])%nat ->
      nth n y 0
      = b0 (mkBiquad 1 2 1 1 (-1) (1 / 2)) * sample [1; 0; 0] (Z.of_nat n)
        + b1 (mkBiquad 1 2 1 1 (-1) (1 / 2)) * sample [1; 0; 0] (Z.of_nat n - 1)
        + b2 (mkBiquad 1 2 1 1 (-1) (1 / 2)) * sample [1; 0; 0] (Z.of_nat n - 2)
        - a1 (mkBiquad 1 2 1 1 (-1) (1 / 2)) * sample y (Z.of_nat n - 1)
        - a2 (mkBiquad 1 2 1 1 (-1) (1 / 2)) * sample y (Z.of_nat n - 2).
Proof.
  apply (apply_iir_difference_equation (mkBiquad 1 2 1 1 (-1) (1 / 2)) [1; 0; 0]).
  - reflexivity.
  - discriminate.
Defined.

(** The loop is causal: the output on a prefix is the prefix of the
    output. *)
Lemma sosfilt_loop_firstn (sos : SOS) (k : nat) :
  forall (x : list R) (zi : list (R * R)),
    sosfilt_loop sos zi (firstn k x) = firstn k (sosfilt_loop sos zi x).
Proof.
  induction k as [| k IH]; intros x zi.
  - reflexivity.
  - destruct x as [| x_n xs]; [reflexivity |].
    simpl. rewrite IH. reflexivity.
Qed.

(** X4.  [apply_iir] is causal: for [k >= 1], filtering the first [k]
    samples gives the first [k] samples of filtering the whole signal,
    and fails as filtering the whole signal fails. *)
Theorem apply_iir_causal (signal : list R) (sos : SOS) (k : nat) :
  (1 <= k)%nat ->
  apply_iir (firstn k signal) sos
  = (y <- apply_iir signal sos ;; Ok (firstn k y)).
Proof.
  intros Hk.
  destruct sos as [| s0 sos0]; [reflexivity |].
  assert (Hs : s0 :: sos0 <> []) by discriminate.
  destruct (a0_all_ones (s0 :: sos0)) eqn:E.
  - apply a0_all_ones_Forall in E.
    destruct signal as [| x0 xs].
    + rewrite firstn_nil, (apply_iir_no_sample _ Hs E). reflexivity.
    + assert (Hx : x0 :: xs <> []) by discriminate.
      assert (Hf : firstn k (x0 :: xs) <> []) by (destruct k; [lia | discriminate]).
      rewrite (apply_iir_valid _ _ Hs E Hf), (apply_iir_valid _ _ Hs E Hx).
      cbn [bind]. rewrite sosfilt_loop_firstn. reflexivity.
  - rewrite !(apply_iir_invalid _ _ Hs E). reflexivity.
Qed.

(** X4 on a three-sample signal cut after two samples. *)
Lemma apply_iir_causal_witness :
  apply_iir (firstn 2 [1; 2; 3]) [mkBiquad 1 2 1 1 (-1) (1 / 2)]
  = (y <- apply_iir [1; 2; 3] [mkBiquad 1 2 1 1 (-1) (1 / 2)] ;; Ok (firstn 2 y)).
Proof.
  apply (apply_iir_causal [1; 2; 3] [mkBiquad 1 2 1 1 (-1) (1 / 2)] 2). lia.
Defined.

Lemma sosfilt_loop_leading_zeros (sos : SOS) (k : nat) (x : list R) :
  sosfilt_loop sos (zero_state sos) (repeat 0 k ++ x)
  = repeat 0 k ++ sosfilt_loop sos (zero_state sos) x.
Proof.
  induction k as [| k IH]; simpl.
  - reflexivity.
  - rewrite cascade_step_zero. simpl. rewrite IH. reflexivity.
Qed.

(** X5.  [apply_iir] is time-invariant for delays: [k] zero samples put
    in front of a signal of at least one sample come out as [k] zero
    samples in front of the filtered signal; a cascade that is rejected
    is rejected on the delayed signal as well. *)
Theorem apply_iir_delay (signal : list R) (sos : SOS) (k : nat) :
  signal <> [] ->
  apply_iir (repeat 0 k ++ signal) sos
  = (y <- apply_iir signal sos ;; Ok (repeat 0 k ++ y)).
Proof.
  intros Hx.
  destruct sos as [| s0 sos0]; [reflexivity |].
  assert (Hs : s0 :: sos0 <> []) by discriminate.
  assert (Hd : repeat 0 k ++ signal <> []).
  { intros Ed. apply app_eq_nil in Ed. destruct Ed as [_ Ed]. contradiction. }
  destruct (a0_all_ones (s0 :: sos0)) eqn:E.
  - apply a0_all_ones_Forall in E.
    rewrite (apply_iir_valid _ _ Hs E Hd), (apply_iir_valid _ _ Hs E Hx).
    cbn [bind]. rewrite sosfilt_loop_leading_zeros. reflexivity.
  - rewrite !(apply_iir_invalid _ _ Hs E). reflexivity.
Qed.

(** X5 on the impulse delayed by two samples. *)
Lemma apply_iir_delay_witness :
  apply_iir (repeat 0 2 ++ [1; 0]) [mkBiquad 1 2 1 1 (-1) (1 / 2)]
  = (y <- apply_iir [1; 0] [mkBiquad 1 2 1 1 (-1) (1 / 2)] ;; Ok (repeat 0 2 ++ y)).
Proof.
  apply (apply_iir_delay [1; 0] [mkBiquad 1 2 1 1 (-1) (1 / 2)] 2). discriminate.
Defined.

(** ** More on the peaking filter *)

(** What a centre frequency strictly inside [(0, fs/2)] and a positive
    [q_factor] give: [sin w0] and [alpha] are positive, [|cos w0| < 1],
    the unnormalised [a0] is positive and the designer returns. *)
Lemma peaking_in_band (center_freq gain_db q_factor fs : R) :
  0 < center_freq < fs / 2 -> 0 < q_factor ->
  let w0 := 2 * PI * center_freq / fs in
  0 < sin w0
  /\ cos w0 * cos w0 < 1
  /\ 0 < sin w0 / (2 * q_factor)
  /\ 0 < sin w0 / (2 * q_factor) / Rpower 10 (gain_db / 40)
  /\ parametric_eq center_freq gain_db q_factor fs
     = Ok [peaking_section center_freq gain_db q_factor fs].
Proof.
  intros Hc Hq w0.
  destruct (w0_in_range _ _ Hc) as [Hw0 Hw1]. fold w0 in Hw0, Hw1.
  assert (Hsin : 0 < sin w0) by (apply sin_gt_0; assumption).
  assert (Hcos : cos w0 * cos w0 < 1).
  { assert (H := sin2_cos2 w0). unfold Rsqr in H. nra. }
  assert (Hal : 0 < sin w0 / (2 * q_factor)) by (apply Rdiv_lt_0_compat; lra).
  assert (HA := gain_pos gain_db).
  assert (Hk : 0 < sin w0 / (2 * q_factor) / Rpower 10 (gain_db / 40))
    by (apply Rdiv_lt_0_compat; assumption).
  repeat (split; [assumption |]).
  apply parametric_eq_returns; try lra.
  unfold peaking_a0. fold w0. lra.
Qed.

Lemma gain_fourth_power (gain_db : R) :
  Rpower 10 (gain_db / 40) * Rpower 10 (gain_db / 40)
  * (Rpower 10 (gain_db / 40) * Rpower 10 (gain_db / 40))
  = Rpower 10 (gain_db / 10).
Proof.
  rewrite <- !Rpower_plus. f_equal. lra.
Qed.

(** The response of the peaking section at its centre frequency. *)
Lemma peaking_center_response (center_freq gain_db q_factor fs : R) :
  0 < center_freq < fs / 2 -> 0 < q_factor ->
  let A := Rpower 10 (gain_db / 40) in
  let w0 := 2 * PI * center_freq / fs in
  let alpha := sin w0 / (2 * q_factor) in
  let s := peaking_section center_freq gain_db q_factor fs in
  num_re s w0 = 2 * (alpha * A) * (sin w0 * sin w0) / (1 + alpha / A)
  /\ num_im s w0 = 2 * (alpha * A) * (sin w0 * cos w0) / (1 + alpha / A)
  /\ den_re s w0 = 2 * (alpha / A) * (sin w0 * sin w0) / (1 + alpha / A)
  /\ den_im s w0 = 2 * (alpha / A) * (sin w0 * cos w0) / (1 + alpha / A).
Proof.
  intros Hc Hq A w0 alpha s.
  destruct (peaking_in_band center_freq gain_db q_factor fs Hc Hq)
    as [Hsin [Hcos [Hal [Hk _]]]].
  fold w0 in Hsin, Hcos, Hal, Hk. fold alpha in Hal, Hk. fold A in Hk.
  assert (HA : 0 < A) by apply gain_pos.
  assert (Hcs := sin2_cos2 w0). unfold Rsqr in Hcs.
  unfold s, num_re, num_im, den_re, den_im, peaking_section. simpl.
  fold w0. fold A. fold alpha.
  rewrite cos_2a, sin_2a.
  replace (cos w0 * cos w0 - sin w0 * sin w0) with (1 - 2 * (sin w0 * sin w0)) by lra.
  assert (Hre : forall u v : R,
             u = v + 2 * (1 - (sin w0 * sin w0 + cos w0 * cos w0)) / (1 + alpha / A) ->
             u = v).
  { intros u v ->. rewrite Hcs. field. lra. }
  split; [| split; [| split]].
  - apply Hre. field. lra.
  - field. lra.
  - apply Hre. field. lra.
  - field. lra.
Qed.

(** X6.  At its centre frequency the peaking filter has exactly the
    requested gain: the squared magnitude of the response at
    [w0 = 2 pi center_freq / fs] is [10^(gain_db/10)], that is [gain_db]
    decibels. *)
Theorem parametric_eq_center_gain (center_freq gain_db q_factor fs : R) :
  0 < center_freq < fs / 2 -> 0 < q_factor ->
  exists s : Biquad,
    parametric_eq center_freq gain_db q_factor fs = Ok [s] /\
    magnitude_sq s (2 * PI * center_freq / fs) = Rpower 10 (gain_db / 10).
Proof.
  intros Hc Hq.
  destruct (peaking_in_band center_freq gain_db q_factor fs Hc Hq)
    as [Hsin [Hcos [Hal [Hk Hret]]]].
  destruct (peaking_center_response center_freq gain_db q_factor fs Hc Hq)
    as [E1 [E2 [E3 E4]]].
  exists (peaking_section center_freq gain_db q_factor fs).
  split; [exact Hret |].
  unfold magnitude_sq. rewrite E1, E2, E3, E4.
  assert (HA := gain_pos gain_db).
  set (A := Rpower 10 (gain_db / 40)) in *.
  set (w0 := 2 * PI * center_freq / fs) in *.
  set (alpha := sin w0 / (2 * q_factor)) in *.
  assert (Hcs := sin2_cos2 w0). unfold Rsqr in Hcs.
  rewrite <- gain_fourth_power. fold A. unfold Rsqr.
  set (sn := sin w0) in *. set (c := cos w0) in *.
  assert (Hn : 2 * (alpha * A) * (sn * sn) / (1 + alpha / A)
               * (2 * (alpha * A) * (sn * sn) / (1 + alpha / A))
               + 2 * (alpha * A) * (sn * c) / (1 + alpha / A)
                 * (2 * (alpha * A) * (sn * c) / (1 + alpha / A))
               = 4 * (alpha * A) * (alpha * A) * (sn * sn)
                 / ((1 + alpha / A) * (1 + alpha / A))).
  { transitivity (4 * (alpha * A) * (alpha * A) * (sn * sn) * (sn * sn + c * c)
                  / ((1 + alpha / A) * (1 + alpha / A))).
    - field. split; lra.
    - rewrite Hcs. field. split; lra. }
  assert (Hd : 2 * (alpha / A) * (sn * sn) / (1 + alpha / A)
               * (2 * (alpha / A) * (sn * sn) / (1 + alpha / A))
               + 2 * (alpha / A) * (sn * c) / (1 + alpha / A)
                 * (2 * (alpha / A) * (sn * c) / (1 + alpha / A))
               = 4 * (alpha / A) * (alpha / A) * (sn * sn)
                 / ((1 + alpha / A) * (1 + alpha / A))).
  { transitivity (4 * (alpha / A) * (alpha / A) * (sn * sn) * (sn * sn + c * c)
                  / ((1 + alpha / A) * (1 + alpha / A))).
    - field. split; lra.
    - rewrite Hcs. field. split; lra. }
  rewrite Hn, Hd. field.
  repeat split; lra.
Qed.

(** X6 on the demo's boost: 6 dB at 1 kHz, [q_factor = 2], 44.1 kHz. *)
Lemma parametric_eq_center_gain_witness :
  exists s : Biquad,
    parametric_eq 1000 6 2 44100 = Ok [s] /\
    magnitude_sq s (2 * PI * 1000 / 44100) = Rpower 10 (6 / 10).
Proof.
  apply (parametric_eq_center_gain 1000 6 2 44100); lra.
Defined.

(** X7.  The section of a peaking filter designed inside the band is
    stable: its denominator coefficients lie strictly inside the
    stability triangle [|a2| < 1], [|a1| < 1 + a2], and its denominator
    does not vanish anywhere on the unit circle. *)
Theorem parametric_eq_stable (center_freq gain_db q_factor fs : R) :
  0 < center_freq < fs / 2 -> 0 < q_factor ->
  exists s : Biquad,
    parametric_eq center_freq gain_db q_factor fs = Ok [s] /\
    Rabs (a2 s) < 1 /\
    Rabs (a1 s) < 1 + a2 s /\
    forall w : R, (den_re s w)² + (den_im s w)² <> 0.
Proof.
  intros Hc Hq.
  destruct (peaking_in_band center_freq gain_db q_factor fs Hc Hq)
    as [Hsin [Hcos [Hal [Hk Hret]]]].
  exists (peaking_section center_freq gain_db q_factor fs).
  split; [exact Hret |].
  set (w0 := 2 * PI * center_freq / fs) in *.
  set (k := sin w0 / (2 * q_factor) / Rpower 10 (gain_db / 40)) in *.
  assert (E1 : a1 (peaking_section center_freq gain_db q_factor fs)
               = -2 * cos w0 / (1 + k)) by reflexivity.
  assert (E2 : a2 (peaking_section center_freq gain_db q_factor fs)
               = (1 - k) / (1 + k)) by reflexivity.
  assert (Hd : 0 < / (1 + k)) by (apply Rinv_0_lt_compat; lra).
  assert (Hdk : (1 + k) * / (1 + k) = 1) by (field; lra).
  set (i := / (1 + k)) in *.
  assert (Hc1 : -1 < cos w0 < 1) by nra.
  split; [| split].
  - rewrite E2. unfold Rdiv. fold i. apply Rabs_def1; nra.
  - rewrite E1, E2. unfold Rdiv. fold i. apply Rabs_def1; nra.
  - intros w. apply (stable_denominator _ k (cos w0) w Hk Hcos); reflexivity.
Qed.

(** X7 on the demo's cut: -6 dB at 500 Hz, [q_factor = 1.5]. *)
Lemma parametric_eq_stable_witness :
  exists s : Biquad,
    parametric_eq 500 (-6) (3 / 2) 44100 = Ok [s] /\
    Rabs (a2 s) < 1 /\
    Rabs (a1 s) < 1 + a2 s /\
    forall w : R, (den_re s w)² + (den_im s w)² <> 0.
Proof.
  apply (parametric_eq_stable 500 (-6) (3 / 2) 44100); lra.
Defined.

(** A section and the section with numerator and denominator exchanged
    undo each other, sample by sample: the states of the second stay at
    [-1/b0] times the states of the first. *)
Lemma inverse_section_loop (s t : Biquad) (x : list R) :
  b0 s <> 0 ->
  b0 t = 1 / b0 s -> b1 t = a1 s / b0 s -> b2 t = a2 s / b0 s ->
  a1 t = b1 s / b0 s -> a2 t = b2 s / b0 s ->
  forall z1 z2 : R,
    sosfilt_loop [t] [(- z1 / b0 s, - z2 / b0 s)] (sosfilt_loop [s] [(z1, z2)] x) = x.
Proof.
  intros Hb E0 E1 E2 E3 E4.
  induction x as [| x_n xs IH]; intros z1 z2.
  - reflexivity.
  - simpl. unfold section_step. simpl.
    assert (Hu : b0 t * (b0 s * x_n + z1) + - z1 / b0 s = x_n)
      by (rewrite E0; field; exact Hb).
    rewrite Hu.
    replace (b1 t * (b0 s * x_n + z1) - a1 t * x_n + - z2 / b0 s)
      with (- (b1 s * x_n - a1 s * (b0 s * x_n + z1) + z2) / b0 s)
      by (rewrite E1, E3; field; exact Hb).
    replace (b2 t * (b0 s * x_n + z1) - a2 t * x_n)
      with (- (b2 s * x_n - a2 s * (b0 s * x_n + z1)) / b0 s)
      by (rewrite E2, E4; field; exact Hb).
    rewrite IH. reflexivity.
Qed.

Lemma gain_opposite (gain_db : R) :
  Rpower 10 (- gain_db / 40) = / Rpower 10 (gain_db / 40).
Proof.
  replace (- gain_db / 40) with (- (gain_db / 40)) by lra. apply Rpower_Ropp.
Qed.

(** X8.  A boost and the cut of the same size undo each other: filtering
    a signal of at least one sample with
    [parametric_eq(center_freq, gain_db, q_factor, fs)] and then with
    [parametric_eq(center_freq, -gain_db, q_factor, fs)] returns the
    signal, and so does one call on the two sections together. *)
Theorem parametric_eq_boost_cut_cancel (center_freq gain_db q_factor fs : R) :
  0 < center_freq < fs / 2 -> 0 < q_factor ->
  exists s t : Biquad,
    parametric_eq center_freq gain_db q_factor fs = Ok [s] /\
    parametric_eq center_freq (- gain_db) q_factor fs = Ok [t] /\
    forall x : list R, x <> [] ->
      (y <- apply_iir x [s] ;; apply_iir y [t]) = Ok x
      /\ apply_iir x [s; t] = Ok x.
Proof.
  intros Hc Hq.
  destruct (peaking_in_band center_freq gain_db q_factor fs Hc Hq)
    as [Hsin [_ [Hal [Hk Hs]]]].
  destruct (peaking_in_band center_freq (- gain_db) q_factor fs Hc Hq)
    as [_ [_ [_ [Hk' Ht]]]].
  exists (peaking_section center_freq gain_db q_factor fs),
         (peaking_section center_freq (- gain_db) q_factor fs).
  split; [exact Hs |]. split; [exact Ht |].
  assert (HA := gain_pos gain_db).
  rewrite gain_opposite in Hk'.
  set (w0 := 2 * PI * center_freq / fs) in *.
  set (alpha := sin w0 / (2 * q_factor)) in *.
  set (A := Rpower 10 (gain_db / 40)) in *.
  assert (HaA : 0 < alpha * A) by (apply Rmult_lt_0_compat; assumption).
  assert (Hk2 : 0 < alpha / / A) by exact Hk'.
  assert (Hloop : forall x : list R,
             sosfilt_loop [peaking_section center_freq (- gain_db) q_factor fs] [(0, 0)]
               (sosfilt_loop [peaking_section center_freq gain_db q_factor fs] [(0, 0)] x)
             = x).
  { intros x.
    replace (0, 0) with (- 0 / b0 (peaking_section center_freq gain_db q_factor fs),
                         - 0 / b0 (peaking_section center_freq gain_db q_factor fs)) at 1.
    - apply inverse_section_loop;
        unfold peaking_section; simpl; rewrite ?gain_opposite;
        fold w0; fold alpha; fold A.
      + assert (0 < (1 + alpha * A) / (1 + alpha / A)) by (apply Rdiv_lt_0_compat; lra).
        lra.
      + field. repeat split; lra.
      + field. repeat split; lra.
      + field. repeat split; lra.
      + field. repeat split; lra.
      + field. repeat split; lra.
    - f_equal; unfold Rdiv; ring. }
  intros x Hx.
  assert (Hseq : (y <- apply_iir x [peaking_section center_freq gain_db q_factor fs] ;;
                  apply_iir y [peaking_section center_freq (- gain_db) q_factor fs])
                 = Ok x).
  { rewrite (apply_iir_valid [peaking_section center_freq gain_db q_factor fs] x)
      by (try discriminate; try exact Hx; repeat constructor).
    cbn [bind].
    rewrite (apply_iir_valid [peaking_section center_freq (- gain_db) q_factor fs])
      by (try discriminate; try (apply sosfilt_loop_nonempty; exact Hx);
          repeat constructor).
    f_equal. exact (Hloop x). }
  split; [exact Hseq |].
  rewrite apply_iir_valid by (try discriminate; try exact Hx; repeat constructor).
  f_equal.
  change (sosfilt_loop ([peaking_section center_freq gain_db q_factor fs]
                        ++ [peaking_section center_freq (- gain_db) q_factor fs])
                       ([(0, 0)] ++ [(0, 0)]) x = x).
  rewrite sosfilt_loop_app by reflexivity.
  exact (Hloop x).
Qed.

(** X8 on a 6 dB boost at 1 kHz followed by the 6 dB cut. *)
Lemma parametric_eq_boost_cut_cancel_witness :
  exists s t : Biquad,
    parametric_eq 1000 6 2 44100 = Ok [s] /\
    parametric_eq 1000 (- 6) 2 44100 = Ok [t] /\
    forall x : list R, x <> [] ->
      (y <- apply_iir x [s] ;; apply_iir y [t]) = Ok x
      /\ apply_iir x [s; t] = Ok x.
Proof.
  apply (parametric_eq_boost_cut_cancel 1000 6 2 44100); lra.
Defined.

(** X9.  The peaking filter leaves the two ends of the band alone: its
    response has magnitude 1 at DC ([w = 0]) and at the Nyquist
    frequency ([w = pi]), whatever the gain. *)
Theorem parametric_eq_unity_at_band_edges (center_freq gain_db q_factor fs : R) :
  0 < center_freq < fs / 2 -> 0 < q_factor ->
  exists s : Biquad,
    parametric_eq center_freq gain_db q_factor fs = Ok [s] /\
    magnitude_sq s 0 = 1 /\ magnitude_sq s PI = 1.
Proof.
  intros Hc Hq.
  destruct (peaking_in_band center_freq gain_db q_factor fs Hc Hq)
    as [Hsin [Hcos [Hal [Hk Hret]]]].
  exists (peaking_section center_freq gain_db q_factor fs).
  split; [exact Hret |].
  assert (HA := gain_pos gain_db).
  set (w0 := 2 * PI * center_freq / fs) in *.
  set (alpha := sin w0 / (2 * q_factor)) in *.
  set (A := Rpower 10 (gain_db / 40)) in *.
  assert (Hc1 : -1 < cos w0 < 1) by nra.
  unfold magnitude_sq, num_re, num_im, den_re, den_im, peaking_section. simpl.
  fold w0. fold alpha. fold A. unfold Rsqr.
  split.
  - rewrite Rmult_0_r, cos_0, sin_0. field. repeat split; nra.
  - rewrite cos_PI, sin_PI, cos_2PI, sin_2PI. field. repeat split; nra.
Qed.

(** X9 on the demo's presence boost: 3 dB at 3 kHz, [q_factor = 1.5]. *)
Lemma parametric_eq_unity_at_band_edges_witness :
  exists s : Biquad,
    parametric_eq 3000 3 (3 / 2) 44100 = Ok [s] /\
    magnitude_sq s 0 = 1 /\ magnitude_sq s PI = 1.
Proof.
  apply (parametric_eq_unity_at_band_edges 3000 3 (3 / 2) 44100); lra.
Defined.

(** ** More on the shelving filters *)

(** Inside the band and with a non-negative radicand both designers
    return the section of their formulas; the unnormalised [a0] is
    positive there. *)
Lemma shelving_in_band (cutoff gain_db fs q_factor : R) :
  0 < cutoff < fs / 2 -> 0 < q_factor ->
  0 <= shelf_radicand (Rpower 10 (gain_db / 40)) q_factor ->
  let A := Rpower 10 (gain_db / 40) in
  let w0 := 2 * PI * cutoff / fs in
  let alpha := sin w0 / 2 * sqrt (shelf_radicand A q_factor) in
  0 <= alpha
  /\ -1 < cos w0 < 1
  /\ 0 < (A + 1) + (A - 1) * cos w0 + 2 * sqrt A * alpha
  /\ 0 < (A + 1) - (A - 1) * cos w0 + 2 * sqrt A * alpha
  /\ shelving_lowshelf cutoff gain_db fs q_factor
     = Ok [lowshelf_section cutoff gain_db fs q_factor]
  /\ shelving_highshelf cutoff gain_db fs q_factor
     = Ok [highshelf_section cutoff gain_db fs q_factor].
Proof.
  intros Hc Hq Hr A w0 alpha.
  destruct (w0_in_range _ _ Hc) as [Hw0 Hw1]. fold w0 in Hw0, Hw1.
  assert (Hsin : 0 < sin w0) by (apply sin_gt_0; assumption).
  assert (Hcos : -1 < cos w0 < 1).
  { assert (H := sin2_cos2 w0). unfold Rsqr in H. nra. }
  assert (HA : 0 < A) by apply gain_pos.
  assert (Hs := sqrt_pos (shelf_radicand A q_factor)).
  assert (HsA := sqrt_pos A).
  assert (Hal : 0 <= alpha) by (unfold alpha; nra).
  assert (Hprod : 0 <= 2 * sqrt A * alpha) by nra.
  assert (Hlo : 0 < (A + 1) + (A - 1) * cos w0 + 2 * sqrt A * alpha) by nra.
  assert (Hhi : 0 < (A + 1) - (A - 1) * cos w0 + 2 * sqrt A * alpha) by nra.
  assert (Halpha : shelf_alpha A w0 q_factor = Ok alpha)
    by (apply shelf_alpha_ok; [lra | lra | exact Hr]).
  repeat (split; [assumption |]).
  split.
  - unfold shelving_lowshelf. fold A.
    rewrite pydiv_ok by lra. simpl. fold w0. rewrite Halpha. simpl.
    rewrite pysqrt_ok by lra. simpl.
    rewrite !pydiv_ok by lra. reflexivity.
  - unfold shelving_highshelf. fold A.
    rewrite pydiv_ok by lra. simpl. fold w0. rewrite Halpha. simpl.
    rewrite pysqrt_ok by lra. simpl.
    rewrite !pydiv_ok by lra. reflexivity.
Qed.

Lemma shelf_radicand_low_q (A q_factor : R) :
  0 < A -> 0 < q_factor <= 1 -> 2 <= shelf_radicand A q_factor.
Proof.
  intros HA [Hq0 Hq1]. unfold shelf_radicand.
  assert (Hi : 0 < 1 / A) by (apply Rdiv_lt_0_compat; lra).
  assert (Hq : 1 <= 1 / q_factor).
  { apply (Rmult_le_reg_r q_factor); [exact Hq0 |].
    replace (1 / q_factor * q_factor) with 1 by (field; lra). lra. }
  nra.
Qed.

(** X10.  With [0 < q_factor <= 1] (the default 0.707 included) and the
    cutoff strictly inside [(0, fs/2)], the shelving designers return a
    section for every gain: the square root never sees a negative
    number and no division is by zero. *)
Theorem shelving_returns_for_low_q (cutoff gain_db fs q_factor : R) :
  0 < cutoff < fs / 2 -> 0 < q_factor <= 1 ->
  exists s t : Biquad,
    shelving_lowshelf cutoff gain_db fs q_factor = Ok [s] /\
    shelving_highshelf cutoff gain_db fs q_factor = Ok [t] /\
    a0 s = 1 /\ a0 t = 1.
Proof.
  intros Hc Hq.
  assert (Hr : 0 <= shelf_radicand (Rpower 10 (gain_db / 40)) q_factor).
  { assert (H := shelf_radicand_low_q (Rpower 10 (gain_db / 40)) q_factor
                   (gain_pos gain_db) Hq).
    lra. }
  destruct (shelving_in_band cutoff gain_db fs q_factor Hc (proj1 Hq) Hr)
    as [_ [_ [_ [_ [Hlo Hhi]]]]].
  exists (lowshelf_section cutoff gain_db fs q_factor),
         (highshelf_section cutoff gain_db fs q_factor).
  repeat split; assumption.
Qed.

(** X10 on the demo's bass boost, [q_factor] at its default. *)
Lemma shelving_returns_for_low_q_witness :
  exists s t : Biquad,
    shelving_lowshelf 200 6 44100 (707 / 1000) = Ok [s] /\
    shelving_highshelf 200 6 44100 (707 / 1000) = Ok [t] /\
    a0 s = 1 /\ a0 t = 1.
Proof.
  apply (shelving_returns_for_low_q 200 6 44100 (707 / 1000)); lra.
Defined.

(** X11.  What the shelves do at the two ends of the band.  The low
    shelf has exactly the requested gain at DC (squared magnitude
    [10^(gain_db/10)]) and unit gain at the Nyquist frequency; the high
    shelf has unit gain at DC and the requested gain at Nyquist. *)
Theorem shelving_gain_at_band_edges (cutoff gain_db fs q_factor : R) :
  0 < cutoff < fs / 2 -> 0 < q_factor ->
  0 <= shelf_radicand (Rpower 10 (gain_db / 40)) q_factor ->
  exists s t : Biquad,
    shelving_lowshelf cutoff gain_db fs q_factor = Ok [s] /\
    shelving_highshelf cutoff gain_db fs q_factor = Ok [t] /\
    magnitude_sq s 0 = Rpower 10 (gain_db / 10) /\
    magnitude_sq s PI = 1 /\
    magnitude_sq t 0 = 1 /\
    magnitude_sq t PI = Rpower 10 (gain_db / 10).
Proof.
  intros Hc Hq Hr.
  destruct (shelving_in_band cutoff gain_db fs q_factor Hc Hq Hr)
    as [Hal [Hcos [Hlo [Hhi [Hs Ht]]]]].
  exists (lowshelf_section cutoff gain_db fs q_factor),
         (highshelf_section cutoff gain_db fs q_factor).
  split; [exact Hs |]. split; [exact Ht |].
  assert (HA := gain_pos gain_db).
  rewrite <- gain_fourth_power.
  set (A := Rpower 10 (gain_db / 40)) in *.
  set (w0 := 2 * PI * cutoff / fs) in *.
  set (alpha := sin w0 / 2 * sqrt (shelf_radicand A q_factor)) in *.
  unfold magnitude_sq, num_re, num_im, den_re, den_im,
    lowshelf_section, highshelf_section.
  simpl. fold A. fold w0. fold alpha. unfold Rsqr.
  set (sA := sqrt A) in *. set (c := cos w0) in *.
  rewrite Rmult_0_r, cos_0, sin_0, cos_PI, sin_PI, cos_2PI, sin_2PI.
  repeat split; field; repeat split; nra.
Qed.

(** X11 on the demo's treble cut: -6 dB above 5 kHz. *)
Lemma shelving_gain_at_band_edges_witness :
  exists s t : Biquad,
    shelving_lowshelf 5000 (-6) 44100 (707 / 1000) = Ok [s] /\
    shelving_highshelf 5000 (-6) 44100 (707 / 1000) = Ok [t] /\
    magnitude_sq s 0 = Rpower 10 (-6 / 10) /\
    magnitude_sq s PI = 1 /\
    magnitude_sq t 0 = 1 /\
    magnitude_sq t PI = Rpower 10 (-6 / 10).
Proof.
  apply (shelving_gain_at_band_edges 5000 (-6) 44100 (707 / 1000));
    [lra | lra |].
  assert (H := shelf_radicand_low_q (Rpower 10 (-6 / 40)) (707 / 1000)
                 (gain_pos (-6)) ltac:(lra)).
  lra.
Defined.

(** X12.  With [gain_db = 0] both shelves are the identity: numerator
    and denominator of the section coincide and filtering a signal of at
    least one sample with it returns the signal. *)
Theorem shelving_zero_gain_identity (cutoff fs q_factor : R) :
  0 < cutoff < fs / 2 -> 0 < q_factor ->
  exists s t : Biquad,
    shelving_lowshelf cutoff 0 fs q_factor = Ok [s] /\
    shelving_highshelf cutoff 0 fs q_factor = Ok [t] /\
    (b0 s = 1 /\ b1 s = a1 s /\ b2 s = a2 s) /\
    (b0 t = 1 /\ b1 t = a1 t /\ b2 t = a2 t) /\
    forall x : list R, x <> [] -> apply_iir x [s] = Ok x /\ apply_iir x [t] = Ok x.
Proof.
  intros Hc Hq.
  assert (Hr : 0 <= shelf_radicand (Rpower 10 (0 / 40)) q_factor).
  { rewrite gain_zero_db. unfold shelf_radicand.
    assert (0 < 1 / q_factor) by (apply Rdiv_lt_0_compat; lra).
    replace ((1 + 1 / 1) * (1 / q_factor - 1) + 2) with (2 * (1 / q_factor))
      by (field; lra).
    lra. }
  destruct (shelving_in_band cutoff 0 fs q_factor Hc Hq Hr)
    as [Hal [Hcos [Hlo [Hhi [Hs Ht]]]]].
  exists (lowshelf_section cutoff 0 fs q_factor),
         (highshelf_section cutoff 0 fs q_factor).
  split; [exact Hs |]. split; [exact Ht |].
  rewrite gain_zero_db in Hlo, Hhi, Hal.
  set (w0 := 2 * PI * cutoff / fs) in *.
  set (alpha := sin w0 / 2 * sqrt (shelf_radicand 1 q_factor)) in *.
  rewrite sqrt_1 in Hlo, Hhi.
  assert (Els : b0 (lowshelf_section cutoff 0 fs q_factor) = 1
                /\ b1 (lowshelf_section cutoff 0 fs q_factor)
                   = a1 (lowshelf_section cutoff 0 fs q_factor)
                /\ b2 (lowshelf_section cutoff 0 fs q_factor)
                   = a2 (lowshelf_section cutoff 0 fs q_factor)).
  { unfold lowshelf_section. simpl. rewrite gain_zero_db, sqrt_1.
    fold w0. fold alpha. repeat split; field; lra. }
  assert (Ehs : b0 (highshelf_section cutoff 0 fs q_factor) = 1
                /\ b1 (highshelf_section cutoff 0 fs q_factor)
                   = a1 (highshelf_section cutoff 0 fs q_factor)
                /\ b2 (highshelf_section cutoff 0 fs q_factor)
                   = a2 (highshelf_section cutoff 0 fs q_factor)).
  { unfold highshelf_section. simpl. rewrite gain_zero_db, sqrt_1.
    fold w0. fold alpha. repeat split; field; lra. }
  split; [exact Els |]. split; [exact Ehs |].
  intros x Hx. split.
  - apply identity_section_apply; [reflexivity | tauto | tauto | tauto | exact Hx].
  - apply identity_section_apply; [reflexivity | tauto | tauto | tauto | exact Hx].
Qed.

(** X12 at 200 Hz, [fs = 44100] and the default [q_factor]. *)
Lemma shelving_zero_gain_identity_witness :
  exists s t : Biquad,
    shelving_lowshelf 200 0 44100 (707 / 1000) = Ok [s] /\
    shelving_highshelf 200 0 44100 (707 / 1000) = Ok [t] /\
    (b0 s = 1 /\ b1 s = a1 s /\ b2 s = a2 s) /\
    (b0 t = 1 /\ b1 t = a1 t /\ b2 t = a2 t) /\
    forall x : list R, x <> [] -> apply_iir x [s] = Ok x /\ apply_iir x [t] = Ok x.
Proof.
  apply (shelving_zero_gain_identity 200 44100 (707 / 1000)); lra.
Defined.

(** ** More on [apply_fir] *)

Lemma nth_map_mult (g : R) (x : list R) (k : nat) :
  nth k (map (Rmult g) x) 0 = g * nth k x 0.
Proof.
  revert k. induction x as [| v x IH]; intros k.
  - destruct k; simpl; ring.
  - destruct k; simpl; [reflexivity | apply IH].
Qed.

Lemma sumf_one (f : nat -> R) : sumf f 1 = f 0%nat.
Proof. unfold sumf. simpl. ring. Qed.

(** X13.  A one-tap kernel scales: [apply_fir(signal, [g])] multiplies
    every sample of a non-empty signal by [g], and the kernel [[1]]
    returns the signal itself. *)
Theorem apply_fir_one_tap (signal : list R) (g : R) :
  signal <> [] ->
  apply_fir signal [g] = Ok (map (Rmult g) signal)
  /\ apply_fir signal [1] = Ok signal.
Proof.
  intros Hne.
  assert (Hlen : (0 < length signal)%nat).
  { destruct signal; [contradiction Hne; reflexivity | simpl; lia]. }
  assert (Hscale : forall h : R, apply_fir signal [h] = Ok (map (Rmult h) signal)).
  { intros h. rewrite apply_fir_long_signal by (simpl; lia).
    f_equal. apply (nth_ext _ _ 0 0).
    - rewrite correlate_same_length by (simpl; lia). rewrite length_map. reflexivity.
    - intros k Hk. rewrite correlate_same_length in Hk by (simpl; lia).
      rewrite correlate_same_nth by (simpl; lia).
      rewrite nth_map_mult. unfold corr_at. simpl length.
      rewrite sumf_one. simpl nth.
      replace (Z.of_nat 0 + Z.of_nat k - Z.of_nat (1 / 2))%Z with (Z.of_nat k)
        by (simpl; lia).
      rewrite sample_nat. reflexivity. }
  split; [apply Hscale |].
  rewrite Hscale. f_equal.
  rewrite <- (map_id signal) at 2. apply map_ext. intros v. apply Rmult_1_l.
Qed.

(** X13 on three samples and the tap 2. *)
Lemma apply_fir_one_tap_witness :
  apply_fir [1; 2; 3] [2] = Ok (map (Rmult 2) [1; 2; 3])
  /\ apply_fir [1; 2; 3] [1] = Ok [1; 2; 3].
Proof.
  apply (apply_fir_one_tap [1; 2; 3] 2). discriminate.
Defined.

(** Linear combinations, sample by sample. *)
Lemma lincomb_length (a b : R) (x : list R) :
  forall y, length x = length y -> length (lincomb a x b y) = length x.
Proof.
  induction x as [| u x IH]; intros y Hl.
  - reflexivity.
  - destruct y as [| v y]; [discriminate Hl |].
    simpl. rewrite IH; [reflexivity | simpl in Hl; lia].
Qed.

Lemma lincomb_nth (a b : R) (x : list R) :
  forall y k, length x = length y ->
              nth k (lincomb a x b y) 0 = a * nth k x 0 + b * nth k y 0.
Proof.
  induction x as [| u x IH]; intros y k Hl.
  - destruct y; [| discriminate Hl]. destruct k; simpl; ring.
  - destruct y as [| v y]; [discriminate Hl |].
    destruct k; simpl; [reflexivity |].
    apply IH. simpl in Hl. lia.
Qed.

Lemma lincomb_sample (a b : R) (x y : list R) (i : Z) :
  length x = length y ->
  sample (lincomb a x b y) i = a * sample x i + b * sample y i.
Proof.
  intros Hl. unfold sample. destruct (i <? 0)%Z.
  - ring.
  - apply lincomb_nth. exact Hl.
Qed.

Lemma sumf_lincomb (a b : R) (f g : nat -> R) (n : nat) :
  sumf (fun u => a * f u + b * g u) n = a * sumf f n + b * sumf g n.
Proof.
  induction n as [| n IH].
  - unfold sumf. simpl. ring.
  - rewrite !sumf_S, IH. ring.
Qed.

(** X14.  [apply_fir] is linear in the signal: for two signals of one
    length and a non-empty kernel no longer than they are, filtering
    [a x + b y] gives [a] times the filtered [x] plus [b] times the
    filtered [y]. *)
Theorem apply_fir_linear (x y kernel : list R) (a b : R) :
  length x = length y ->
  (0 < length kernel <= length x)%nat ->
  exists fx fy : list R,
    apply_fir x kernel = Ok fx /\
    apply_fir y kernel = Ok fy /\
    apply_fir (lincomb a x b y) kernel = Ok (lincomb a fx b fy).
Proof.
  intros Hl Hk.
  assert (Hw : (0 < length (rev kernel) <= length x)%nat) by (rewrite length_rev; exact Hk).
  assert (Hwy : (0 < length (rev kernel) <= length y)%nat) by (rewrite <- Hl; exact Hw).
  assert (Hll := lincomb_length a b x y Hl).
  exists (correlate_same x (rev kernel)), (correlate_same y (rev kernel)).
  split; [apply apply_fir_long_signal; exact Hk |].
  split; [apply apply_fir_long_signal; rewrite <- Hl; exact Hk |].
  rewrite apply_fir_long_signal by (rewrite Hll; exact Hk).
  f_equal. apply (nth_ext _ _ 0 0).
  - rewrite lincomb_length
      by (rewrite !correlate_same_length by assumption; exact Hl).
    rewrite !correlate_same_length by (rewrite ?Hll; assumption).
    exact Hll.
  - intros k Hkl.
    rewrite correlate_same_length in Hkl by (rewrite Hll; exact Hw).
    rewrite Hll in Hkl.
    rewrite lincomb_nth
      by (rewrite !correlate_same_length by assumption; exact Hl).
    rewrite !correlate_same_nth by (rewrite ?Hll, <- ?Hl; assumption).
    unfold corr_at. rewrite <- sumf_lincomb.
    apply sumf_ext. intros u _.
    rewrite lincomb_sample by exact Hl. ring.
Qed.

(** X14 on two three-sample signals and a two-tap kernel. *)
Lemma apply_fir_linear_witness :
  exists fx fy : list R,
    apply_fir [1; 0; 2] [1; 1] = Ok fx /\
    apply_fir [0; 1; 1] [1; 1] = Ok fy /\
    apply_fir (lincomb 2 [1; 0; 2] 3 [0; 1; 1]) [1; 1] = Ok (lincomb 2 fx 3 fy).
Proof.
  apply (apply_fir_linear [1; 0; 2] [0; 1; 1] [1; 1] 2 3).
  - reflexivity.
  - simpl. lia.
Defined.

(** *** Impulses *)

Lemma impulse_length (p q : nat) : length (impulse p q) = (p + 1 + q)%nat.
Proof.
  unfold impulse. rewrite length_app, repeat_length. simpl.
  rewrite repeat_length. lia.
Qed.

Lemma nth_repeat_zero (n k : nat) : nth k (repeat 0 n) 0 = 0.
Proof.
  revert k. induction n as [| n IH]; intros k; destruct k; simpl; auto.
Qed.

Lemma impulse_nth (p q k : nat) :
  nth k (impulse p q) 0 = if (k =? p)%nat then 1 else 0.
Proof.
  unfold impulse. destruct (Nat.lt_ge_cases k p) as [Hlt | Hge].
  - rewrite app_nth1 by (rewrite repeat_length; exact Hlt).
    rewrite nth_repeat_zero.
    destruct (k =? p)%nat eqn:E; [apply Nat.eqb_eq in E; lia | reflexivity].
  - rewrite app_nth2 by (rewrite repeat_length; lia).
    rewrite repeat_length.
    destruct (k =? p)%nat eqn:E.
    + apply Nat.eqb_eq in E. subst k. rewrite Nat.sub_diag. reflexivity.
    + apply Nat.eqb_neq in E.
      destruct (k - p)%nat as [| d] eqn:Ed; [lia |].
      simpl. apply nth_repeat_zero.
Qed.

Lemma impulse_sample (p q : nat) (i : Z) :
  sample (impulse p q) i = if (i =? Z.of_nat p)%Z then 1 else 0.
Proof.
  unfold sample. destruct (i <? 0)%Z eqn:E.
  - apply Z.ltb_lt in E.
    destruct (i =? Z.of_nat p)%Z eqn:E2; [apply Z.eqb_eq in E2; lia | reflexivity].
  - apply Z.ltb_ge in E. rewrite impulse_nth.
    destruct (Z.to_nat i =? p)%nat eqn:E1; destruct (i =? Z.of_nat p)%Z eqn:E2;
      try reflexivity.
    + apply Nat.eqb_eq in E1. apply Z.eqb_neq in E2. lia.
    + apply Nat.eqb_neq in E1. apply Z.eqb_eq in E2. lia.
Qed.

(** A sum with at most one non-zero term. *)
Lemma sumf_single (f : nat -> R) (n k : nat) :
  (k < n)%nat ->
  (forall j, (j < n)%nat -> j <> k -> f j = 0) ->
  sumf f n = f k.
Proof.
  intros Hk Hz.
  rewrite (sumf_split f k (n - k) n) by lia.
  rewrite (sumf_zero f k) by (intros j Hj; apply Hz; lia).
  destruct (n - k)%nat as [| m] eqn:E; [lia |].
  rewrite sumf_head, Nat.add_0_r.
  rewrite sumf_zero by (intros j Hj; apply Hz; lia).
  ring.
Qed.

(** X15.  The impulse response of [apply_fir] is the kernel.  A unit
    impulse at position [p] of a signal at least as long as the kernel
    comes out as the kernel, its centre tap [(len(kernel) - 1) // 2] at
    position [p] and cut off at the ends of the signal; the impulse at
    the centre of a signal as long as the kernel returns the kernel
    itself. *)
Theorem apply_fir_impulse (kernel : list R) (p q : nat) :
  (0 < length kernel <= p + 1 + q)%nat ->
  (exists out : list R,
      apply_fir (impulse p q) kernel = Ok out /\
      length out = (p + 1 + q)%nat /\
      forall k : nat, (k < p + 1 + q)%nat ->
        nth k out 0
        = sample kernel (Z.of_nat k + Z.of_nat ((length kernel - 1) / 2) - Z.of_nat p))
  /\ apply_fir (impulse ((length kernel - 1) / 2)
                        (length kernel - 1 - (length kernel - 1) / 2)) kernel
     = Ok kernel.
Proof.
  intros Hk.
  assert (Hgen : forall p' q' : nat,
             (0 < length kernel <= p' + 1 + q')%nat ->
             forall k : nat, (k < p' + 1 + q')%nat ->
               nth k (correlate_same (impulse p' q') (rev kernel)) 0
               = sample kernel
                   (Z.of_nat k + Z.of_nat ((length kernel - 1) / 2) - Z.of_nat p')).
  { intros p' q' Hk' k Hkl.
    rewrite correlate_same_nth
      by (rewrite ?length_rev, impulse_length; assumption).
    rewrite corr_at_rev by lia. unfold centered_conv.
    set (c := ((length kernel - 1) / 2)%nat).
    destruct (Z_lt_ge_dec (Z.of_nat k + Z.of_nat c - Z.of_nat p') 0) as [Hneg | Hpos].
    - rewrite sample_neg by exact Hneg.
      apply sumf_zero. intros j Hj. rewrite impulse_sample.
      destruct (Z.of_nat k + Z.of_nat c - Z.of_nat j =? Z.of_nat p')%Z eqn:E.
      + apply Z.eqb_eq in E. lia.
      + ring.
    - destruct (Z_lt_ge_dec (Z.of_nat k + Z.of_nat c - Z.of_nat p')
                            (Z.of_nat (length kernel))) as [Hin | Hout].
      + set (j0 := Z.to_nat (Z.of_nat k + Z.of_nat c - Z.of_nat p')).
        assert (Hj0 : (j0 < length kernel)%nat) by (unfold j0; lia).
        rewrite (sumf_single _ (length kernel) j0 Hj0).
        2: { intros j Hj Hne. rewrite impulse_sample.
             destruct (Z.of_nat k + Z.of_nat c - Z.of_nat j =? Z.of_nat p')%Z eqn:E.
             - apply Z.eqb_eq in E. unfold j0 in Hne. lia.
             - ring. }
        rewrite impulse_sample.
        replace (Z.of_nat k + Z.of_nat c - Z.of_nat j0 =? Z.of_nat p')%Z with true
          by (symmetry; apply Z.eqb_eq; unfold j0; lia).
        replace (Z.of_nat k + Z.of_nat c - Z.of_nat p')%Z with (Z.of_nat j0)
          by (unfold j0; lia).
        rewrite sample_nat. ring.
      + rewrite sample_beyond by lia.
        apply sumf_zero. intros j Hj. rewrite impulse_sample.
        destruct (Z.of_nat k + Z.of_nat c - Z.of_nat j =? Z.of_nat p')%Z eqn:E.
        * apply Z.eqb_eq in E. lia.
        * ring. }
  split.
  - exists (correlate_same (impulse p q) (rev kernel)).
    split; [apply apply_fir_long_signal; rewrite impulse_length; exact Hk |].
    split.
    + rewrite correlate_same_length by (rewrite length_rev, impulse_length; exact Hk).
      apply impulse_length.
    + apply Hgen. exact Hk.
  - set (c := ((length kernel - 1) / 2)%nat).
    assert (Hc : (c <= length kernel - 1)%nat).
    { unfold c. apply Nat.Div0.div_le_upper_bound. lia. }
    assert (Hfit : (0 < length kernel <= c + 1 + (length kernel - 1 - c))%nat) by lia.
    rewrite apply_fir_long_signal by (rewrite impulse_length; exact Hfit).
    f_equal. apply (nth_ext _ _ 0 0).
    + rewrite correlate_same_length by (rewrite length_rev, impulse_length; exact Hfit).
      rewrite impulse_length. lia.
    + intros k Hkl.
      rewrite correlate_same_length in Hkl
        by (rewrite length_rev, impulse_length; exact Hfit).
      rewrite impulse_length in Hkl.
      rewrite (Hgen c (length kernel - 1 - c)%nat Hfit k Hkl). fold c.
      replace (Z.of_nat k + Z.of_nat c - Z.of_nat c)%Z with (Z.of_nat k) by lia.
      apply sample_nat.
Qed.

(** X15 on a three-tap kernel and the impulse [[0; 1; 0; 0]]. *)
Lemma apply_fir_impulse_witness :
  apply_fir (impulse ((length [1; 2; 3] - 1) / 2)
                     (length [1; 2; 3] - 1 - (length [1; 2; 3] - 1) / 2)) [1; 2; 3]
  = Ok [1; 2; 3].
Proof.
  apply (proj2 (apply_fir_impulse [1; 2; 3] 1 2 ltac:(simpl; lia))).
Defined.

(** ** More on [adaptive_numtaps] *)

(** X16.  For a positive transition width, a positive sample rate and an
    attenuation scipy's Kaiser estimate accepts ([|attenuation_db| >= 8]),
    [adaptive_numtaps] returns an odd number of taps that is at least 3. *)
Theorem adaptive_numtaps_positive_width (transition_width fs attenuation_db : R) :
  0 < transition_width -> 0 < fs -> 8 <= Rabs attenuation_db ->
  exists n : Z,
    adaptive_numtaps scipy_kaiserord transition_width fs attenuation_db = Ok n /\
    Z.odd n = true /\ (3 <= n)%Z.
Proof.
  intros Htw Hfs HA.
  assert (Hhalf : 0.5 * fs <> 0) by lra.
  set (width := transition_width / (0.5 * fs)).
  assert (Hw : 0 < width) by (unfold width; apply Rdiv_lt_0_compat; lra).
  set (m := Zceil ((Rabs attenuation_db - 7.95) / 2.285 / (PI * width) + 1)).
  exists (if (m mod 2 =? 0)%Z then (m + 1)%Z else m).
  split; [| split].
  - apply (adaptive_numtaps_value scipy_kaiserord _ _ _ m
                                  (kaiser_beta (Rabs attenuation_db)) Hhalf).
    fold width. apply scipy_kaiserord_returns; [exact HA | lra].
  - apply bump_to_odd.
  - assert (Hq : 0 < (Rabs attenuation_db - 7.95) / 2.285 / (PI * width)).
    { assert (Hpi := PI_gt_3). apply Rdiv_lt_0_compat; [lra | nra]. }
    assert (Hm : (2 <= m)%Z).
    { destruct (Zceil_bound ((Rabs attenuation_db - 7.95) / 2.285 / (PI * width) + 1))
        as [_ Hhi].
      fold m in Hhi.
      assert (H1 : 1 < IZR m) by lra.
      apply lt_IZR in H1. lia. }
    rewrite Zmod_odd. destruct (Z.odd m) eqn:Eo; simpl; [| lia].
    assert (m <> 2%Z) by (intros ->; discriminate Eo). lia.
Qed.

(** X16 on a 500 Hz transition band at 44.1 kHz and 60 dB. *)
Lemma adaptive_numtaps_positive_width_witness :
  exists n : Z,
    adaptive_numtaps scipy_kaiserord 500 44100 60 = Ok n /\
    Z.odd n = true /\ (3 <= n)%Z.
Proof.
  apply (adaptive_numtaps_positive_width 500 44100 60);
    [lra | lra | rewrite Rabs_pos_eq; lra].
Defined.

(** ** The test-signal generator *)

(** *** Integer conversion and ranges *)

Lemma Rabs_le_between (a b : R) : Rabs a <= b -> - b <= a <= b.
Proof.
  unfold Rabs. destruct (Rcase_abs a); lra.
Qed.

Lemma pyint_between (x : R) (lo hi : Z) :
  (lo <= 0 <= hi)%Z -> IZR lo - 1 < x < IZR hi + 1 ->
  (lo <= Generate.pyint x <= hi)%Z.
Proof.
  intros [Hlo Hhi] [Hx1 Hx2]. unfold Generate.pyint.
  destruct (Rlt_dec x 0) as [Hneg | Hpos].
  - destruct (Zceil_bound x) as [Hc1 Hc2]. split.
    + assert (H : IZR lo - 1 < IZR (Zceil x)) by lra.
      rewrite <- minus_IZR in H. apply lt_IZR in H. lia.
    + assert (H : IZR (Zceil x) < 1) by lra.
      apply lt_IZR in H. lia.
  - destruct (Zfloor_bound x) as [Hf1 Hf2]. split.
    + assert (H : -1 < IZR (Zfloor x)) by lra.
      apply lt_IZR in H. lia.
    + assert (H : IZR (Zfloor x) < IZR hi + 1) by lra.
      rewrite <- plus_IZR in H. apply lt_IZR in H. lia.
Qed.

Lemma pyint_zero : Generate.pyint 0 = 0%Z.
Proof.
  assert (H := pyint_between 0 0 0 ltac:(lia) ltac:(simpl; lra)). lia.
Qed.

Lemma range_length (n : Z) : length (Generate.range n) = Z.to_nat n.
Proof. unfold Generate.range. rewrite length_map, length_seq. reflexivity. Qed.

Lemma range_In (n i : Z) : In i (Generate.range n) -> (0 <= i < n)%Z.
Proof.
  unfold Generate.range. intros H. apply in_map_iff in H.
  destruct H as [j [<- Hj]]. apply in_seq in Hj. lia.
Qed.

Lemma comprehension_map {I A : Type} (f : I -> Generate.result A) (g : I -> A)
      (l : list I) :
  (forall i, In i l -> f i = Generate.ret (g i)) ->
  Generate.comprehension f l = Generate.ret (map g l).
Proof.
  induction l as [| i l IH]; intros H.
  - reflexivity.
  - simpl. rewrite (H i) by (left; reflexivity). simpl.
    rewrite IH by (intros j Hj; apply H; right; exact Hj).
    reflexivity.
Qed.

Lemma truediv_value (x y : Z) :
  y <> 0%Z -> Generate.truediv x y = Generate.ret (IZR x / IZR y).
Proof.
  intros Hy. unfold Generate.truediv.
  destruct (y =? 0)%Z eqn:E; [apply Z.eqb_eq in E; contradiction | reflexivity].
Qed.

(** X17.  [sine_wave] never fails, not even with [sr = 0] (the product
    [length * 0] is zero, the range is empty and [i / sr] is never
    evaluated).  It returns [int(length * sr)] samples, the product taken
    as Python rounds it (none if that is negative), sample [i] being
    [amp * sin(2 pi freq (i / sr) + phase)], each of magnitude at most
    [|amp|]. *)
Theorem sine_wave_samples (round : R -> R) (freq length : R) (sr : Z) (phase amp : R) :
  round 0 = 0 ->
  exists out : list R,
    Generate.sine_wave round freq length sr phase amp = Generate.ret out /\
    List.length out = Z.to_nat (Generate.pyint (round (length * IZR sr))) /\
    (forall i : nat, (i < List.length out)%nat ->
       nth i out 0 = amp * sin (2 * PI * freq * (INR i / IZR sr) + phase)) /\
    Forall (fun v => Rabs v <= Rabs amp) out.
Proof.
  intros Hzero.
  set (g := fun i : Z => amp * sin (2 * PI * freq * (IZR i / IZR sr) + phase)).
  exists (map g (Generate.range (Generate.pyint (round (length * IZR sr))))).
  assert (Hbound : forall t : R, Rabs (amp * sin t) <= Rabs amp).
  { intros t. rewrite Rabs_mult.
    assert (H := SIN_bound t). assert (Ha := Rabs_pos amp).
    assert (Hs : Rabs (sin t) <= 1) by (apply Rabs_le; lra).
    nra. }
  split; [| split; [| split]].
  - unfold Generate.sine_wave. apply comprehension_map.
    intros i Hi. apply range_In in Hi.
    assert (Hsr : sr <> 0%Z).
    { intros ->. rewrite Rmult_0_r, Hzero, pyint_zero in Hi. lia. }
    rewrite (truediv_value _ _ Hsr). reflexivity.
  - rewrite length_map. apply range_length.
  - intros i Hi. rewrite length_map, range_length in Hi.
    unfold Generate.range. rewrite map_map.
    rewrite (nth_indep _ 0 (g (Z.of_nat 0))) by (rewrite length_map, length_seq; exact Hi).
    rewrite (map_nth (fun j => g (Z.of_nat j))), seq_nth by exact Hi.
    unfold g. simpl. rewrite <- INR_IZR_INZ. reflexivity.
  - apply Forall_forall. intros v Hv. apply in_map_iff in Hv.
    destruct Hv as [i [<- _]]. apply Hbound.
Qed.

(** X17 on 10 ms of the 440 Hz tone at 200 samples per second, the
    product [0.01 * 200] being a double itself. *)
Lemma sine_wave_samples_witness :
  exists out : list R,
    Generate.sine_wave (fun x => x) 440 (1 / 100) 200 0 1 = Generate.ret out /\
    List.length out = Z.to_nat (Generate.pyint (1 / 100 * IZR 200)) /\
    (forall i : nat, (i < List.length out)%nat ->
       nth i out 0 = 1 * sin (2 * PI * 440 * (INR i / IZR 200) + 0)) /\
    Forall (fun v => Rabs v <= Rabs 1) out.
Proof.
  apply (sine_wave_samples (fun x => x) 440 (1 / 100) 200 0 1). reflexivity.
Defined.

(** *** The frames [write_wav] packs *)

Lemma fold_Rmax_abs_ge (rest : list R) :
  forall m : R,
    m <= fold_left (fun m t => Rmax m (Rabs t)) rest m
    /\ Forall (fun t => Rabs t <= fold_left (fun m t => Rmax m (Rabs t)) rest m) rest.
Proof.
  induction rest as [| t rest IH]; intros m; simpl.
  - split; [lra | constructor].
  - destruct (IH (Rmax m (Rabs t))) as [H1 H2].
    assert (Hm := Rmax_l m (Rabs t)). assert (Ht := Rmax_r m (Rabs t)).
    split; [lra |].
    constructor; [lra | exact H2].
Qed.

Lemma max_abs_bounds (samples : list R) :
  0 <= Generate.max_abs samples
  /\ Forall (fun s => Rabs s <= Generate.max_abs samples) samples.
Proof.
  destruct samples as [| s rest]; simpl.
  - split; [lra | constructor].
  - destruct (fold_Rmax_abs_ge rest (Rabs s)) as [H1 H2].
    assert (H0 := Rabs_pos s).
    split; [lra |]. constructor; assumption.
Qed.

Lemma fold_Rmax_abs_attained (rest : list R) :
  forall m : R,
    fold_left (fun m t => Rmax m (Rabs t)) rest m = m
    \/ exists t, In t rest /\ fold_left (fun m t => Rmax m (Rabs t)) rest m = Rabs t.
Proof.
  induction rest as [| t rest IH]; intros m; simpl.
  - left. reflexivity.
  - destruct (IH (Rmax m (Rabs t))) as [E | [u [Hu E]]].
    + rewrite E. unfold Rmax. destruct (Rle_dec m (Rabs t)).
      * right. exists t. split; [left; reflexivity | reflexivity].
      * left. reflexivity.
    + right. exists u. split; [right; exact Hu | exact E].
Qed.

Lemma max_abs_attained (samples : list R) :
  samples <> [] -> exists s, In s samples /\ Generate.max_abs samples = Rabs s.
Proof.
  destruct samples as [| s rest]; intros Hne; [contradiction Hne; reflexivity |].
  simpl. destruct (fold_Rmax_abs_attained rest (Rabs s)) as [E | [t [Ht E]]].
  - exists s. split; [left; reflexivity | exact E].
  - exists t. split; [right; exact Ht | exact E].
Qed.

(** The scaled sample stays within 0.9 of full scale, so the clamp to
    the 16-bit range does nothing. *)
Lemma write_wav_scaled (samples : list R) (s : R) :
  In s samples ->
  let m := Generate.max_abs samples in
  let m' := if Rlt_dec m (1 / 1000000000) then 1 else m in
  Rabs (s * (0.9 * 32767 / m')) <= 0.9 * 32767
  /\ Rmax (-32768) (Rmin 32767 (s * (0.9 * 32767 / m'))) = s * (0.9 * 32767 / m').
Proof.
  intros Hs m m'.
  destruct (max_abs_bounds samples) as [Hm0 Hall].
  rewrite Forall_forall in Hall. specialize (Hall s Hs). fold m in Hm0, Hall.
  assert (Hm' : 0 < m' /\ Rabs s <= m').
  { unfold m'. destruct (Rlt_dec m (1 / 1000000000)); lra. }
  destruct Hm' as [Hpos Hle].
  assert (Hb : Rabs (s * (0.9 * 32767 / m')) <= 0.9 * 32767).
  { rewrite Rabs_mult. rewrite (Rabs_pos_eq (0.9 * 32767 / m'))
      by (apply Rlt_le, Rdiv_lt_0_compat; lra).
    apply (Rmult_le_reg_r m'); [exact Hpos |].
    replace (Rabs s * (0.9 * 32767 / m') * m') with (Rabs s * (0.9 * 32767))
      by (field; lra).
    assert (H0 := Rabs_pos s). nra. }
  split; [exact Hb |].
  apply Rabs_le_between in Hb.
  rewrite Rmin_right by lra. rewrite Rmax_right by lra. reflexivity.
Qed.

(** X18.  [write_wav] never clips and never overflows the 16-bit frame:
    it packs one integer per sample, each between -29490 and 29490
    (0.9 of full scale).  Unless the signal is silent (peak below 1e-9),
    every sample whose magnitude is the peak, and a signal of at least
    one sample has one, is packed as exactly 29490 if it is positive
    and -29490 if it is negative. *)
Theorem write_wav_frames_in_range (samples : list R) :
  length (Generate.write_wav samples) = length samples
  /\ Forall (fun v => (-29490 <= v <= 29490)%Z) (Generate.write_wav samples)
  /\ (forall (i : nat) (s : R),
        nth_error samples i = Some s ->
        Rabs s = Generate.max_abs samples -> 1 / 1000000000 <= Rabs s ->
        nth_error (Generate.write_wav samples) i
        = Some (if Rlt_dec s 0 then (-29490)%Z else 29490%Z))
  /\ (samples <> [] ->
      exists (i : nat) (s : R),
        nth_error samples i = Some s /\ Rabs s = Generate.max_abs samples).
Proof.
  split; [| split; [| split]].
  - unfold Generate.write_wav. apply length_map.
  - apply Forall_forall. intros v Hv.
    unfold Generate.write_wav in Hv. apply in_map_iff in Hv.
    destruct Hv as [s [<- Hs]].
    destruct (write_wav_scaled samples s Hs) as [Hb Hclamp].
    rewrite Hclamp. apply Rabs_le_between in Hb.
    apply pyint_between; [lia | lra].
  - intros i s Hi Hmax Hloud.
    assert (Hs : In s samples) by (apply (nth_error_In _ _ Hi)).
    unfold Generate.write_wav. rewrite nth_error_map, Hi. simpl option_map.
    f_equal.
    destruct (write_wav_scaled samples s Hs) as [_ Hclamp]. rewrite Hclamp.
    rewrite <- Hmax.
    destruct (Rlt_dec (Rabs s) (1 / 1000000000)) as [L | _]; [lra |].
    unfold Rabs in *. destruct (Rcase_abs s) as [Hn | Hp].
    + destruct (Rlt_dec s 0) as [_ | N]; [| lra].
      replace (s * (0.9 * 32767 / - s)) with (- (0.9 * 32767)) by (field; lra).
      unfold Generate.pyint. destruct (Rlt_dec (- (0.9 * 32767)) 0); [| lra].
      apply Zceil_eq. simpl. lra.
    + destruct (Rlt_dec s 0) as [N | _]; [lra |].
      replace (s * (0.9 * 32767 / s)) with (0.9 * 32767) by (field; lra).
      unfold Generate.pyint. destruct (Rlt_dec (0.9 * 32767) 0); [lra |].
      apply Zfloor_eq. simpl. lra.
  - intros Hne.
    destruct (max_abs_attained samples Hne) as [s [Hs Hmax]].
    destruct (In_nth_error _ _ Hs) as [i Hi].
    exists i, s. split; [exact Hi | symmetry; exact Hmax].
Qed.

(** X18 on a three-sample signal whose second sample is the loudest. *)
Lemma write_wav_frames_in_range_witness :
  nth_error (Generate.write_wav [1 / 2; -1; 1 / 4]) 1
  = Some (if Rlt_dec (-1) 0 then (-29490)%Z else 29490%Z).
Proof.
  apply (proj1 (proj2 (proj2 (write_wav_frames_in_range [1 / 2; -1; 1 / 4]))) 1%nat (-1)).
  - reflexivity.
  - simpl. unfold Rmax, Rabs.
    repeat match goal with
           | |- context [Rcase_abs ?x] => destruct (Rcase_abs x)
           | |- context [Rle_dec ?x ?y] => destruct (Rle_dec x y)
           | H : context [Rle_dec ?x ?y] |- _ => destruct (Rle_dec x y)
           end; lra.
  - unfold Rabs. destruct (Rcase_abs (-1)); lra.
Defined.

(** *** Index assignment and loops over it *)

Lemma position_in_range (n j : nat) :
  (j < n)%nat -> Generate.position n (Z.of_nat j) = Some j.
Proof.
  intros H. unfold Generate.position.
  destruct (Z.of_nat j <? - Z.of_nat n)%Z eqn:E1; [apply Z.ltb_lt in E1; lia |].
  destruct (Z.of_nat n <=? Z.of_nat j)%Z eqn:E2; [apply Z.leb_le in E2; lia |].
  simpl.
  destruct (Z.of_nat j <? 0)%Z eqn:E3; [apply Z.ltb_lt in E3; lia |].
  rewrite Nat2Z.id. reflexivity.
Qed.

Lemma position_past_end (n j : nat) :
  (n <= j)%nat -> Generate.position n (Z.of_nat j) = None.
Proof.
  intros H. unfold Generate.position.
  destruct (Z.of_nat n <=? Z.of_nat j)%Z eqn:E2.
  - rewrite orb_true_r. reflexivity.
  - apply Z.leb_gt in E2. lia.
Qed.

Lemma setitem_middle (pre post : list R) (m v : R) (j : nat) :
  length pre = j ->
  Generate.setitem (pre ++ m :: post) (Z.of_nat j) v = Generate.ret (pre ++ v :: post).
Proof.
  intros Hj. unfold Generate.setitem.
  rewrite position_in_range by (rewrite length_app; simpl; lia).
  subst j.
  assert (F : firstn (length pre) (pre ++ m :: post) = pre).
  { rewrite firstn_app, firstn_all, Nat.sub_diag. simpl. apply app_nil_r. }
  assert (K : skipn (S (length pre)) (pre ++ m :: post) = post).
  { rewrite skipn_app, skipn_all2 by lia.
    replace (S (length pre) - length pre)%nat with 1%nat by lia.
    reflexivity. }
  rewrite F, K. reflexivity.
Qed.

Lemma getitem_middle (pre post : list R) (m : R) (j : nat) :
  length pre = j ->
  Generate.getitem (pre ++ m :: post) (Z.of_nat j) = Generate.ret m.
Proof.
  intros Hj. unfold Generate.getitem.
  rewrite position_in_range by (rewrite length_app; simpl; lia).
  subst j. rewrite nth_middle. reflexivity.
Qed.

Lemma setitem_past_end (l : list R) (j : nat) (v : R) :
  (length l <= j)%nat ->
  Generate.setitem l (Z.of_nat j) v = Generate.raise Generate.IndexError.
Proof.
  intros H. unfold Generate.setitem. rewrite position_past_end by exact H. reflexivity.
Qed.

Lemma setitem_length (l l' : list R) (i : Z) (v : R) :
  Generate.setitem l i v = Generate.ret l' -> length l' = length l.
Proof.
  unfold Generate.setitem, Generate.position.
  destruct ((i <? - Z.of_nat (length l)) || (Z.of_nat (length l) <=? i))%Z eqn:E;
    [discriminate |].
  intros H. injection H as <-.
  apply orb_false_iff in E. destruct E as [E1 E2].
  apply Z.ltb_ge in E1. apply Z.leb_gt in E2.
  set (j := Z.to_nat (if (i <? 0)%Z then (i + Z.of_nat (length l))%Z else i)).
  assert (Hj : (j < length l)%nat).
  { unfold j. destruct (i <? 0)%Z eqn:E3.
    - apply Z.ltb_lt in E3. lia.
    - apply Z.ltb_ge in E3. lia. }
  rewrite length_app, length_firstn. cbn [length].
  change (match l with [] => [] | _ :: l0 => skipn j l0 end) with (skipn (S j) l).
  rewrite length_skipn. lia.
Qed.

Lemma gen_bind_ret {A B : Type} (a : A) (k : A -> Generate.result B) :
  Generate.bind (Generate.ret a) k = k a.
Proof. reflexivity. Qed.

Lemma for_each_app {I S : Type} (l1 l2 : list I)
      (body : I -> S -> Generate.result S) (s : S) :
  Generate.for_each (l1 ++ l2) body s
  = Generate.bind (Generate.for_each l1 body s) (Generate.for_each l2 body).
Proof.
  revert s. induction l1 as [| i l1 IH]; intros s; simpl.
  - reflexivity.
  - destruct (body i s) as [e | s']; simpl; [reflexivity | apply IH].
Qed.

Lemma for_each_skip {I S : Type} (l : list I)
      (body : I -> S -> Generate.result S) (s : S) :
  (forall i t, In i l -> body i t = Generate.ret t) ->
  Generate.for_each l body s = Generate.ret s.
Proof.
  induction l as [| i l IH]; intros H; simpl.
  - reflexivity.
  - rewrite (H i s) by (left; reflexivity). simpl.
    apply IH. intros j t Hj. apply H. right. exact Hj.
Qed.

(** A loop that assigns [g i] to position [off + i] for [i] running over
    [st .. st + k - 1] overwrites exactly that run of the list. *)
Lemma write_run (body : Z -> list R -> Generate.result (list R)) (g : nat -> R)
      (off : nat) (k : nat) :
  forall (st : nat) (pre mid post : list R),
    length pre = (off + st)%nat -> length mid = k ->
    (forall i env, (st <= i < st + k)%nat ->
       body (Z.of_nat i) env = Generate.setitem env (Z.of_nat (off + i)) (g i)) ->
    Generate.for_each (map Z.of_nat (seq st k)) body (pre ++ mid ++ post)
    = Generate.ret (pre ++ map g (seq st k) ++ post).
Proof.
  induction k as [| k IH]; intros st pre mid post Hpre Hmid Hbody.
  - destruct mid; [| discriminate Hmid]. reflexivity.
  - destruct mid as [| m mid]; [discriminate Hmid |].
    simpl. rewrite Hbody by lia.
    rewrite setitem_middle by exact Hpre. simpl.
    replace (pre ++ g st :: mid ++ post) with ((pre ++ [g st]) ++ mid ++ post)
      by (rewrite <- app_assoc; reflexivity).
    rewrite (IH (S st)).
    + rewrite <- app_assoc. reflexivity.
    + rewrite length_app. simpl. lia.
    + simpl in Hmid. lia.
    + intros i env Hi. apply Hbody. lia.
Qed.

(** The same loop on a list too short for the run ends in [IndexError]. *)
Lemma write_overflow (body : Z -> list R -> Generate.result (list R)) (g : nat -> R)
      (off : nat) (k : nat) :
  forall (st : nat) (env : list R),
    (0 < k)%nat -> (length env < off + st + k)%nat ->
    (forall i env, (st <= i < st + k)%nat ->
       body (Z.of_nat i) env = Generate.setitem env (Z.of_nat (off + i)) (g i)) ->
    Generate.for_each (map Z.of_nat (seq st k)) body env
    = Generate.raise Generate.IndexError.
Proof.
  induction k as [| k IH]; intros st env Hk Hlen Hbody.
  - lia.
  - simpl. rewrite Hbody by lia.
    destruct (Nat.le_gt_cases (length env) (off + st)) as [Hout | Hin].
    + rewrite setitem_past_end by exact Hout. reflexivity.
    + destruct (Generate.setitem env (Z.of_nat (off + st)) (g st)) as [e | env'] eqn:E.
      * unfold Generate.setitem in E.
        rewrite position_in_range in E by exact Hin. discriminate E.
      * simpl. apply setitem_length in E.
        apply IH; [lia | lia |].
        intros i env0 Hi. apply Hbody. lia.
Qed.

(** X19.  [generate_hum] never fails.  It returns [int(duration * sr)]
    samples, the product taken as Python rounds it (none if that is
    negative or [sr] is 0), each of magnitude at most [|amp|]: the three
    harmonics are weighted 0.7, 0.2 and 0.1. *)
Theorem generate_hum_samples (round : R -> R) (sr : Z) (duration freq amp : R) :
  round 0 = 0 ->
  exists out : list R,
    Generate.generate_hum round sr duration freq amp = Generate.ret out /\
    length out = Z.to_nat (Generate.pyint (round (duration * IZR sr))) /\
    Forall (fun v => Rabs v <= Rabs amp) out.
Proof.
  intros Hzero.
  set (n := Generate.pyint (round (duration * IZR sr))).
  set (h := fun i : nat =>
              amp * (0.7 * sin (2 * PI * freq * (IZR (Z.of_nat i) / IZR sr))
                     + 0.2 * sin (2 * PI * 2 * freq * (IZR (Z.of_nat i) / IZR sr))
                     + 0.1 * sin (2 * PI * 3 * freq * (IZR (Z.of_nat i) / IZR sr)))).
  exists (map h (seq 0 (Z.to_nat n))).
  split; [| split].
  - unfold Generate.generate_hum. fold n.
    unfold Generate.range, Generate.replicate.
    assert (Hsr : (0 < Z.to_nat n)%nat -> sr <> 0%Z).
    { intros Hpos ->. unfold n in Hpos. rewrite Rmult_0_r, Hzero, pyint_zero in Hpos.
      simpl in Hpos. lia. }
    rewrite <- (app_nil_l (repeat 0 (Z.to_nat n))).
    rewrite <- (app_nil_r (repeat 0 (Z.to_nat n))).
    rewrite (write_run _ h 0 (Z.to_nat n) 0 [] (repeat 0 (Z.to_nat n)) []).
    + simpl. rewrite app_nil_r. reflexivity.
    + reflexivity.
    + apply repeat_length.
    + intros i env Hi. rewrite truediv_value by (apply Hsr; lia).
      reflexivity.
  - rewrite length_map, length_seq. reflexivity.
  - apply Forall_forall. intros v Hv. apply in_map_iff in Hv.
    destruct Hv as [i [<- _]]. unfold h.
    rewrite Rabs_mult. assert (Ha := Rabs_pos amp).
    assert (Hs : forall t, -1 <= sin t <= 1) by (intros t; apply SIN_bound).
    set (t1 := 2 * PI * freq * (IZR (Z.of_nat i) / IZR sr)).
    set (t2 := 2 * PI * 2 * freq * (IZR (Z.of_nat i) / IZR sr)).
    set (t3 := 2 * PI * 3 * freq * (IZR (Z.of_nat i) / IZR sr)).
    assert (H1 := Hs t1). assert (H2 := Hs t2). assert (H3 := Hs t3).
    assert (Hsum : Rabs (0.7 * sin t1 + 0.2 * sin t2 + 0.1 * sin t3) <= 1)
      by (apply Rabs_le; lra).
    nra.
Qed.

(** X19 on 10 ms of the 60 Hz hum at 200 samples per second. *)
Lemma generate_hum_samples_witness :
  exists out : list R,
    Generate.generate_hum (fun x => x) 200 (1 / 100) 60 (5 / 100) = Generate.ret out /\
    length out = Z.to_nat (Generate.pyint (1 / 100 * IZR 200)) /\
    Forall (fun v => Rabs v <= Rabs (5 / 100)) out.
Proof.
  apply (generate_hum_samples (fun x => x) 200 (1 / 100) 60 (5 / 100)). reflexivity.
Defined.

(** *** The envelope *)

Lemma range_of_nat (k : nat) :
  Generate.range (Z.of_nat k) = map Z.of_nat (seq 0 k).
Proof. unfold Generate.range. rewrite Nat2Z.id. reflexivity. Qed.

Lemma replicate_of_nat (k : nat) (v : R) :
  Generate.replicate (Z.of_nat k) v = repeat v k.
Proof. unfold Generate.replicate. rewrite Nat2Z.id. reflexivity. Qed.

Lemma Forall_map_seq (P : R -> Prop) (g : nat -> R) (st k : nat) :
  (forall i, (st <= i < st + k)%nat -> P (g i)) -> Forall P (map g (seq st k)).
Proof.
  intros H. apply Forall_forall. intros v Hv. apply in_map_iff in Hv.
  destruct Hv as [i [<- Hi]]. apply in_seq in Hi. apply H. exact Hi.
Qed.

Lemma ratio_in_unit (i k : nat) :
  (i < k)%nat -> 0 <= IZR (Z.of_nat i) / IZR (Z.of_nat k) <= 1.
Proof.
  intros H.
  assert (Hi : 0 <= IZR (Z.of_nat i)) by (apply IZR_le; lia).
  assert (Hk : 0 < IZR (Z.of_nat k)) by (apply IZR_lt; lia).
  assert (Hik : IZR (Z.of_nat i) <= IZR (Z.of_nat k)) by (apply IZR_le; lia).
  split.
  - apply Rmult_le_pos; [exact Hi | apply Rlt_le, Rinv_0_lt_compat; exact Hk].
  - apply (Rmult_le_reg_r (IZR (Z.of_nat k))); [exact Hk |].
    replace (IZR (Z.of_nat i) / IZR (Z.of_nat k) * IZR (Z.of_nat k))
      with (IZR (Z.of_nat i)) by (field; lra).
    lra.
Qed.

Lemma adsr_phases_length (aN dN sN rel rN : nat) (s : R) :
  length (adsr_phases aN dN sN rel rN s) = (aN + dN + sN + rel)%nat.
Proof.
  unfold adsr_phases. rewrite !length_app, !length_map, !length_seq. lia.
Qed.

Lemma adsr_phases_bounds (aN dN sN rel rN : nat) (s : R) :
  0 <= s <= 1 -> (rel <= rN)%nat ->
  Forall (fun v => 0 <= v <= 1) (adsr_phases aN dN sN rel rN s).
Proof.
  intros Hs Hrel. unfold adsr_phases.
  repeat (apply Forall_app; split); apply Forall_map_seq; intros i Hi.
  - apply ratio_in_unit. lia.
  - assert (H := ratio_in_unit i dN ltac:(lia)). nra.
  - exact Hs.
  - assert (H := ratio_in_unit i rN ltac:(lia)). nra.
Qed.

Lemma adsr_envelope_long (round : R -> R) (n sr : Z) (a d s r : R) (aN dN rN : nat) :
  Z.max 1 (Generate.pyint (round (a * IZR sr))) = Z.of_nat aN ->
  Z.max 1 (Generate.pyint (round (d * IZR sr))) = Z.of_nat dN ->
  Z.max 1 (Generate.pyint (round (r * IZR sr))) = Z.of_nat rN ->
  (Z.of_nat aN + Z.of_nat dN <= n)%Z ->
  let sN := Z.to_nat (n - (Z.of_nat aN + Z.of_nat dN + Z.of_nat rN)) in
  let rel := (Z.to_nat n - aN - dN - sN)%nat in
  Generate.adsr_envelope round n sr a d s r
  = Generate.ret (adsr_phases aN dN sN rel rN s)
  /\ (rel <= rN)%nat /\ (aN + dN + sN + rel = Z.to_nat n)%nat.
Proof.
  intros Ea Ed Er Hn sN rel.
  assert (HaN : (1 <= aN)%nat) by lia.
  assert (HdN : (1 <= dN)%nat) by lia.
  assert (HrN : (1 <= rN)%nat) by lia.
  assert (Hsus : Z.max 0 (n - (Z.of_nat aN + Z.of_nat dN + Z.of_nat rN)) = Z.of_nat sN)
    by (unfold sN; lia).
  assert (Hrel : (rel <= rN)%nat) by (unfold rel, sN; lia).
  assert (Hsum : (aN + dN + sN + rel = Z.to_nat n)%nat) by (unfold rel, sN; lia).
  split; [| split; assumption].
  unfold Generate.adsr_envelope. rewrite Ea, Ed, Er, Hsus.
  rewrite !range_of_nat.
  unfold Generate.replicate. rewrite <- Hsum.
  rewrite !repeat_app, <- !app_assoc.
  (* attack *)
  rewrite <- (app_nil_l (repeat 0 aN ++ _)).
  rewrite (write_run _ (fun i => IZR (Z.of_nat i) / IZR (Z.of_nat aN)) 0 aN 0 []);
    [| reflexivity | apply repeat_length
     | intros i env Hi; rewrite truediv_value by lia; reflexivity].
  simpl Generate.bind. rewrite ?app_nil_l.
  (* decay *)
  rewrite (write_run _ (fun i => 1 - (1 - s) * (IZR (Z.of_nat i) / IZR (Z.of_nat dN)))
                     aN dN 0);
    [| rewrite length_map, length_seq; lia | apply repeat_length
     | intros i env Hi; rewrite truediv_value by lia;
       replace (Z.of_nat aN + Z.of_nat i)%Z with (Z.of_nat (aN + i)) by lia;
       reflexivity].
  simpl Generate.bind.
  (* sustain *)
  rewrite (app_assoc (map _ (seq 0 aN)) (map _ (seq 0 dN))).
  rewrite (write_run _ (fun _ => s) (aN + dN) sN 0);
    [| rewrite length_app, !length_map, !length_seq; lia | apply repeat_length
     | intros i env Hi;
       replace (Z.of_nat aN + Z.of_nat dN + Z.of_nat i)%Z
         with (Z.of_nat (aN + dN + i)) by lia;
       reflexivity].
  simpl Generate.bind.
  (* release: [rel] assignments, then the guard is false *)
  replace (seq 0 rN) with (seq 0 rel ++ seq rel (rN - rel))
    by (rewrite <- seq_app; f_equal; lia).
  rewrite map_app, for_each_app.
  rewrite (app_assoc (_ ++ _) (map _ (seq 0 sN))).
  rewrite <- (app_nil_r (repeat 0 rel)).
  rewrite (write_run _ (fun i => s * (1 - IZR (Z.of_nat i) / IZR (Z.of_nat rN)))
                     (aN + dN + sN) rel 0);
    [| rewrite !length_app, !length_map, !length_seq; lia | apply repeat_length
     | intros i env Hi;
       replace (Z.of_nat aN + Z.of_nat dN + Z.of_nat sN + Z.of_nat i)%Z
         with (Z.of_nat (aN + dN + sN + i)) by lia;
       replace (Z.of_nat (aN + dN + sN + i) <? n)%Z with true
         by (symmetry; apply Z.ltb_lt; lia);
       rewrite truediv_value by lia; reflexivity].
  simpl Generate.bind.
  rewrite for_each_skip.
  - simpl. rewrite app_nil_r. unfold adsr_phases.
    rewrite <- !app_assoc. reflexivity.
  - intros i env Hi. apply in_map_iff in Hi. destruct Hi as [j [<- Hj]].
    apply in_seq in Hj.
    replace (Z.of_nat aN + Z.of_nat dN + Z.of_nat sN + Z.of_nat j <? n)%Z with false
      by (symmetry; apply Z.ltb_ge; lia).
    reflexivity.
Qed.

Lemma adsr_envelope_short (round : R -> R) (n sr : Z) (a d s r : R) (aN dN : nat) :
  Z.max 1 (Generate.pyint (round (a * IZR sr))) = Z.of_nat aN ->
  Z.max 1 (Generate.pyint (round (d * IZR sr))) = Z.of_nat dN ->
  (n < Z.of_nat aN + Z.of_nat dN)%Z ->
  Generate.adsr_envelope round n sr a d s r = Generate.raise Generate.IndexError.
Proof.
  intros Ea Ed Hn.
  assert (HaN : (1 <= aN)%nat) by lia.
  assert (HdN : (1 <= dN)%nat) by lia.
  unfold Generate.adsr_envelope. rewrite Ea, Ed. rewrite !range_of_nat.
  unfold Generate.replicate.
  destruct (Nat.lt_ge_cases (Z.to_nat n) aN) as [Hshort | Hfits].
  - rewrite (write_overflow _ (fun i => IZR (Z.of_nat i) / IZR (Z.of_nat aN)) 0 aN 0);
      [reflexivity | lia | rewrite repeat_length; lia
       | intros i env Hi; rewrite truediv_value by lia; reflexivity].
  - replace (Z.to_nat n) with (aN + (Z.to_nat n - aN))%nat by lia.
    rewrite repeat_app.
    rewrite <- (app_nil_l (repeat 0 aN ++ _)).
    rewrite (write_run _ (fun i => IZR (Z.of_nat i) / IZR (Z.of_nat aN)) 0 aN 0 []);
      [| reflexivity | apply repeat_length
       | intros i env Hi; rewrite truediv_value by lia; reflexivity].
    simpl Generate.bind. rewrite ?app_nil_l.
    rewrite (write_overflow _
               (fun i => 1 - (1 - s) * (IZR (Z.of_nat i) / IZR (Z.of_nat dN))) aN dN 0);
      [reflexivity | lia
       | rewrite length_app, length_map, length_seq, repeat_length; lia
       | intros i env Hi; rewrite truediv_value by lia;
         replace (Z.of_nat aN + Z.of_nat i)%Z with (Z.of_nat (aN + i)) by lia;
         reflexivity].
Qed.

(** X20.  [adsr_envelope] needs room for attack and decay.  With
    [a_n = max(1, int(a * sr))] and [d_n = max(1, int(d * sr))], the
    products taken as Python rounds them: a length [n < a_n + d_n] ends
    in [IndexError] (the attack and decay loops assign without checking
    the index; only the release loop checks); otherwise the call returns
    [n] samples, the first of them 0, and for a sustain level
    [0 <= s <= 1] all of them between 0 and 1. *)
Theorem adsr_envelope_result (round : R -> R) (n sr : Z) (a d s r : R) :
  let a_n := Z.max 1 (Generate.pyint (round (a * IZR sr))) in
  let d_n := Z.max 1 (Generate.pyint (round (d * IZR sr))) in
  ((n < a_n + d_n)%Z ->
   Generate.adsr_envelope round n sr a d s r = Generate.raise Generate.IndexError)
  /\ ((a_n + d_n <= n)%Z ->
      exists env : list R,
        Generate.adsr_envelope round n sr a d s r = Generate.ret env /\
        length env = Z.to_nat n /\
        nth 0 env 0 = 0 /\
        (0 <= s <= 1 -> Forall (fun v => 0 <= v <= 1) env)).
Proof.
  intros a_n d_n.
  assert (Ea : a_n = Z.of_nat (Z.to_nat a_n)) by (unfold a_n; lia).
  assert (Ed : d_n = Z.of_nat (Z.to_nat d_n)) by (unfold d_n; lia).
  set (r_n := Z.max 1 (Generate.pyint (round (r * IZR sr)))).
  assert (Er : r_n = Z.of_nat (Z.to_nat r_n)) by (unfold r_n; lia).
  split.
  - intros Hn.
    apply (adsr_envelope_short round n sr a d s r (Z.to_nat a_n) (Z.to_nat d_n)); lia.
  - intros Hn.
    destruct (adsr_envelope_long round n sr a d s r
                (Z.to_nat a_n) (Z.to_nat d_n) (Z.to_nat r_n) Ea Ed Er ltac:(lia))
      as [Hret [Hrel Hsum]].
    eexists. split; [exact Hret |].
    split; [rewrite adsr_phases_length; exact Hsum |].
    split.
    + unfold adsr_phases.
      destruct (Z.to_nat a_n) as [| k] eqn:Ek; [unfold a_n in Ek; lia |].
      simpl. unfold Rdiv. ring.
    + intros Hs. apply adsr_phases_bounds; assumption.
Qed.

(** X20 on the envelope of one note of the demo's melody (27562 samples
    at 44.1 kHz, 5 ms attack, 80 ms decay), with products that are not
    rounded across an integer. *)
Lemma adsr_envelope_result_witness :
  exists env : list R,
    Generate.adsr_envelope (fun x => x) 27562 44100 (5 / 1000) (8 / 100) (6 / 10) (8 / 100)
    = Generate.ret env /\
    length env = Z.to_nat 27562 /\
    nth 0 env 0 = 0 /\
    (0 <= 6 / 10 <= 1 -> Forall (fun v => 0 <= v <= 1) env).
Proof.
  apply (proj2 (adsr_envelope_result (fun x => x) 27562 44100
                  (5 / 1000) (8 / 100) (6 / 10) (8 / 100))).
  assert (Ha := pyint_between (5 / 1000 * 44100) 0 220 ltac:(lia) ltac:(simpl; lra)).
  assert (Hd := pyint_between (8 / 100 * 44100) 0 3528 ltac:(lia) ltac:(simpl; lra)).
  lia.
Defined.

(** *** Mixing *)

(** The inner loop of [mix]: [out[i] += v] over one signal. *)
Lemma add_run (s : list R) :
  forall (st : nat) (pre mid post : list R),
    length pre = st -> length mid = length s ->
    Generate.for_each (combine (map Z.of_nat (seq st (length s))) s)
      (fun iv out =>
         Generate.bind (Generate.getitem out (fst iv))
           (fun x => Generate.setitem out (fst iv) (x + snd iv)))
      (pre ++ mid ++ post)
    = Generate.ret (pre ++ map (fun p => fst p + snd p) (combine mid s) ++ post).
Proof.
  induction s as [| v s IH]; intros st pre mid post Hpre Hmid.
  - destruct mid; [| discriminate Hmid]. reflexivity.
  - destruct mid as [| m mid]; [discriminate Hmid |].
    simpl. rewrite getitem_middle by exact Hpre. simpl.
    rewrite setitem_middle by exact Hpre. simpl.
    replace (pre ++ m + v :: mid ++ post) with ((pre ++ [m + v]) ++ mid ++ post)
      by (rewrite <- app_assoc; reflexivity).
    rewrite (IH (S st)).
    + rewrite <- app_assoc. reflexivity.
    + rewrite length_app. simpl. lia.
    + simpl in Hmid. lia.
Qed.

Lemma accumulate_loop (out s : list R) :
  (length s <= length out)%nat ->
  Generate.for_each (Generate.enumerate s)
    (fun iv out =>
       Generate.bind (Generate.getitem out (fst iv))
         (fun x => Generate.setitem out (fst iv) (x + snd iv)))
    out
  = Generate.ret (accumulate out s).
Proof.
  intros Hl. unfold Generate.enumerate. rewrite range_of_nat.
  rewrite <- (firstn_skipn (length s) out) at 1.
  rewrite <- (app_nil_l (firstn _ _ ++ _)).
  rewrite add_run; [reflexivity | reflexivity |].
  rewrite length_firstn. lia.
Qed.

Lemma accumulate_length (out s : list R) :
  (length s <= length out)%nat -> length (accumulate out s) = length out.
Proof.
  intros Hl. unfold accumulate.
  rewrite length_app, length_map, length_combine, length_firstn, length_skipn. lia.
Qed.

Lemma accumulate_nth (s : list R) :
  forall (out : list R) (k : nat),
    (length s <= length out)%nat ->
    nth k (accumulate out s) 0 = nth k out 0 + nth k s 0.
Proof.
  unfold accumulate.
  induction s as [| v s IH]; intros out k Hl.
  - simpl. destruct k; ring.
  - destruct out as [| o out]; [simpl in Hl; lia |].
    simpl in Hl. destruct k as [| k]; simpl; [reflexivity |].
    apply IH. lia.
Qed.

Lemma mix_outer_loop (signals : list (list R)) :
  forall out : list R,
    Forall (fun s => (length s <= length out)%nat) signals ->
    Generate.for_each signals
      (fun s out =>
         Generate.for_each (Generate.enumerate s)
           (fun iv out =>
              Generate.bind (Generate.getitem out (fst iv))
                (fun x => Generate.setitem out (fst iv) (x + snd iv))) out)
      out
    = Generate.ret (fold_left accumulate signals out).
Proof.
  induction signals as [| s signals IH]; intros out Hall.
  - reflexivity.
  - inversion Hall as [| ? ? Hs Hrest]; subst.
    simpl. rewrite accumulate_loop by exact Hs. simpl.
    apply IH. rewrite accumulate_length by exact Hs. exact Hrest.
Qed.

Lemma fold_accumulate_spec (signals : list (list R)) :
  forall out : list R,
    Forall (fun s => (length s <= length out)%nat) signals ->
    length (fold_left accumulate signals out) = length out
    /\ forall k, nth k (fold_left accumulate signals out) 0
                 = nth k out 0 + sum_at signals k.
Proof.
  induction signals as [| s signals IH]; intros out Hall.
  - simpl. split; [reflexivity | intros k; ring].
  - inversion Hall as [| ? ? Hs Hrest]; subst.
    simpl. rewrite <- (accumulate_length out s Hs) in Hrest.
    destruct (IH _ Hrest) as [Hlen Hnth].
    split.
    + rewrite Hlen. apply accumulate_length. exact Hs.
    + intros k. rewrite Hnth, accumulate_nth by exact Hs. ring.
Qed.

Lemma fold_max_len (rest : list (list R)) :
  forall m : Z,
    (m <= fold_left (fun m t => Z.max m (Z.of_nat (length t))) rest m)%Z
    /\ Forall (fun t => (Z.of_nat (length t)
                         <= fold_left (fun m t => Z.max m (Z.of_nat (length t))) rest m)%Z)
              rest
    /\ (fold_left (fun m t => Z.max m (Z.of_nat (length t))) rest m = m
        \/ exists t, In t rest
                     /\ fold_left (fun m t => Z.max m (Z.of_nat (length t))) rest m
                        = Z.of_nat (length t)).
Proof.
  induction rest as [| t rest IH]; intros m; simpl.
  - split; [lia | split; [constructor | left; reflexivity]].
  - destruct (IH (Z.max m (Z.of_nat (length t)))) as [H1 [H2 H3]].
    split; [lia |]. split.
    + constructor; [lia | exact H2].
    + destruct H3 as [E | [u [Hu E]]].
      * destruct (Z.max_spec m (Z.of_nat (length t))) as [[_ Em] | [_ Em]].
        -- right. exists t. split; [left; reflexivity | lia].
        -- left. lia.
      * right. exists u. split; [right; exact Hu | exact E].
Qed.

Lemma mix_samples_aux (signals : list (list R)) :
  (signals = [] ->
   exists msg, Generate.mix signals = Generate.raise (Generate.ValueError msg))
  /\ (signals <> [] ->
      exists out : list R,
        Generate.mix signals = Generate.ret out /\
        Forall (fun s => (length s <= length out)%nat) signals /\
        (exists s, In s signals /\ length s = length out) /\
        forall k : nat, (k < length out)%nat ->
          nth k out 0
          = sum_at signals k / Rmax 1 (IZR (Z.of_nat (length signals)) * 0.9)).
Proof.
  split.
  - intros ->. eexists. reflexivity.
  - intros Hne. destruct signals as [| s rest]; [contradiction Hne; reflexivity |].
    set (signals := s :: rest).
    set (maxlen := fold_left (fun m t => Z.max m (Z.of_nat (length t))) rest
                             (Z.of_nat (length s))).
    destruct (fold_max_len rest (Z.of_nat (length s))) as [H1 [H2 H3]].
    fold maxlen in H1, H2, H3.
    assert (Hall : Forall (fun t => (length t <= length (Generate.replicate maxlen 0))%nat)
                          signals).
    { unfold Generate.replicate. rewrite repeat_length. constructor; [lia |].
      apply Forall_forall. intros t Ht. rewrite Forall_forall in H2.
      specialize (H2 t Ht). lia. }
    destruct (fold_accumulate_spec signals _ Hall) as [Hlen Hnth].
    set (acc := fold_left accumulate signals (Generate.replicate maxlen 0)) in *.
    set (D := Rmax 1 (IZR (Z.of_nat (length signals)) * 0.9)).
    assert (HD : D <> 0).
    { unfold D. assert (H := Rmax_l 1 (IZR (Z.of_nat (length signals)) * 0.9)). lra. }
    exists (map (fun x => x / D) acc).
    assert (Hlen' : length acc = Z.to_nat maxlen).
    { rewrite Hlen. unfold Generate.replicate. apply repeat_length. }
    split; [| split; [| split]].
    + unfold Generate.mix.
      change (Generate.max_len signals) with (Generate.ret maxlen).
      rewrite gen_bind_ret.
      rewrite (mix_outer_loop signals _ Hall).
      rewrite gen_bind_ret. fold acc. fold D.
      apply comprehension_map. intros x _. unfold Generate.fdiv.
      destruct (Req_dec_T D 0); [contradiction | reflexivity].
    + rewrite length_map, Hlen. exact Hall.
    + rewrite length_map, Hlen'.
      destruct H3 as [E | [t [Ht E]]].
      * exists s. split; [left; reflexivity | lia].
      * exists t. split; [right; exact Ht | lia].
    + intros k Hk. rewrite length_map in Hk.
      rewrite (nth_indep _ 0 ((fun x => x / D) 0)) by (rewrite length_map; exact Hk).
      rewrite (map_nth (fun x => x / D)). rewrite Hnth.
      unfold Generate.replicate. rewrite nth_repeat_zero. f_equal. ring.
Qed.

(** X21.  [mix] of no signals fails with [max]'s [ValueError]; of at
    least one signal it returns as many samples as the longest signal
    has, sample [k] being the sum of the signals' samples [k] (a shorter
    signal counting as zero past its end) divided by
    [max(1.0, 0.9 * len(signals))]; the index assignments never leave
    the list. *)
Theorem mix_samples (signals : list (list R)) :
  (signals = [] ->
   exists msg, Generate.mix signals = Generate.raise (Generate.ValueError msg))
  /\ (signals <> [] ->
      exists out : list R,
        Generate.mix signals = Generate.ret out /\
        Forall (fun s => (length s <= length out)%nat) signals /\
        (exists s, In s signals /\ length s = length out) /\
        forall k : nat, (k < length out)%nat ->
          nth k out 0
          = sum_at signals k / Rmax 1 (IZR (Z.of_nat (length signals)) * 0.9)).
Proof.
  destruct (mix_samples_aux signals) as [Hempty Hsome].
  split; [exact Hempty | exact Hsome].
Qed.

(** X21 on the demo's mix of three signals. *)
Lemma mix_samples_witness :
  exists out : list R,
    Generate.mix [[1; 2]; [3]; [4; 5; 6]] = Generate.ret out /\
    Forall (fun s => (length s <= length out)%nat) [[1; 2]; [3]; [4; 5; 6]] /\
    (exists s, In s [[1; 2]; [3]; [4; 5; 6]] /\ length s = length out) /\
    forall k : nat, (k < length out)%nat ->
      nth k out 0
      = sum_at [[1; 2]; [3]; [4; 5; 6]] k
        / Rmax 1 (IZR (Z.of_nat (length [[1; 2]; [3]; [4; 5; 6]])) * 0.9).
Proof.
  apply (proj2 (mix_samples [[1; 2]; [3]; [4; 5; 6]])). discriminate.
Defined.

(** X22.  Mixing one signal returns it unchanged: the divisor
    [max(1.0, 0.9)] is 1. *)
Theorem mix_single (s : list R) :
  Generate.mix [s] = Generate.ret s.
Proof.
  destruct (proj2 (mix_samples_aux [s]) ltac:(discriminate))
    as [out [Hret [Hall [[t [Ht Hmax]] Hnth]]]].
  rewrite Hret. f_equal.
  destruct Ht as [<- | []].
  apply (nth_ext _ _ 0 0).
  - symmetry. exact Hmax.
  - intros k Hk. rewrite (Hnth k Hk). simpl.
    rewrite Rmax_left by lra. field.
Qed.

(** ** Peak normalisation *)





(** ** Command line of the GUI *)

(** X24.  [_resolve_host] never returns the empty string, and resolving
    its own answer changes nothing, provided [strip().lower()] leaves
    the two addresses ["0.0.0.0"] and ["127.0.0.1"] as they are. *)
Theorem resolve_host_idempotent
  (strip_lower : string -> string) (host_option : option string) :
  strip_lower "0.0.0.0"%string = "0.0.0.0"%string ->
  strip_lower "127.0.0.1"%string = "127.0.0.1"%string ->
  _resolve_host strip_lower host_option <> ""%string
  /\ _resolve_host strip_lower (Some (_resolve_host strip_lower host_option))
     = _resolve_host strip_lower host_option.
Proof.
  intros H0 H1.
  assert (Eall : _resolve_host strip_lower (Some "0.0.0.0"%string) = "0.0.0.0"%string).
  { unfold _resolve_host. simpl. rewrite H0. reflexivity. }
  assert (Eloc : _resolve_host strip_lower (Some "127.0.0.1"%string) = "127.0.0.1"%string).
  { unfold _resolve_host. simpl. rewrite H1. reflexivity. }
  destruct host_option as [h |]; [| split; [discriminate | exact Eloc]].
  assert (Hc : _resolve_host strip_lower (Some h) = "127.0.0.1"%string
               \/ _resolve_host strip_lower (Some h) = "0.0.0.0"%string
               \/ (_resolve_host strip_lower (Some h) = h /\ h <> ""%string)).
  { unfold _resolve_host.
    destruct (String.eqb h "") eqn:Eh; [left; reflexivity |].
    cbv zeta.
    destruct (in_set (strip_lower h) ["global"%string; "public"%string; "all"%string;
                                      "0.0.0.0"%string]);
      [right; left; reflexivity |].
    destruct (in_set (strip_lower h) ["local"%string; "localhost"%string;
                                      "127.0.0.1"%string]);
      [left; reflexivity |].
    right. right. split; [reflexivity |].
    intros ->. discriminate Eh. }
  destruct Hc as [E | [E | [E Hne]]]; rewrite E.
  - split; [discriminate | exact Eloc].
  - split; [discriminate | exact Eall].
  - split; [exact Hne | exact E].
Qed.

(** X24 with the ASCII reading of [strip().lower()], on an alias written
    with blanks and capitals. *)
Lemma resolve_host_idempotent_witness :
  _resolve_host ascii_strip_lower (Some "  Global "%string) <> ""%string
  /\ _resolve_host ascii_strip_lower
       (Some (_resolve_host ascii_strip_lower (Some "  Global "%string)))
     = _resolve_host ascii_strip_lower (Some "  Global "%string).
Proof.
  apply (resolve_host_idempotent ascii_strip_lower (Some "  Global "%string));
    reflexivity.
Defined.

Lemma existsb_eqb_In (option : string) (args : list string) :
  existsb (String.eqb option) args = true <-> In option args.
Proof.
  rewrite existsb_exists. split.
  - intros [a [Ha E]]. apply String.eqb_eq in E. subst a. exact Ha.
  - intros H. exists option. split; [exact H | apply String.eqb_refl].
Qed.

Lemma list_index_first (option : string) (pre rest : list string) :
  ~ In option pre -> list_index option (pre ++ option :: rest) = length pre.
Proof.
  induction pre as [| a pre IH]; intros Hn; simpl.
  - rewrite String.eqb_refl. reflexivity.
  - destruct (String.eqb a option) eqn:E.
    + apply String.eqb_eq in E. subst a. contradiction Hn. left. reflexivity.
    + rewrite IH; [reflexivity |]. intros H. apply Hn. right. exact H.
Qed.

Lemma list_pop_middle (pre post : list string) (a : string) :
  list_pop (length pre) (pre ++ a :: post) = pre ++ post.
Proof.
  unfold list_pop.
  rewrite firstn_app, firstn_all, Nat.sub_diag. simpl firstn. rewrite app_nil_r.
  rewrite skipn_app, skipn_all2 by lia.
  replace (S (length pre) - length pre)%nat with 1%nat by lia.
  reflexivity.
Qed.

(** X25.  What [pop_opt] does to the argument list.  An option that
    does not occur leaves the list alone and yields [None]; otherwise
    its first occurrence is removed together with the argument after
    it, which is the value returned; an option standing last is removed
    and yields [None].  Everything else keeps its order. *)
Theorem pop_opt_spec (option : string) (pre post : list string) (v : string) :
  ~ In option pre ->
  pop_opt option pre = (None, pre)
  /\ pop_opt option (pre ++ option :: v :: post) = (Some v, pre ++ post)
  /\ pop_opt option (pre ++ [option]) = (None, pre).
Proof.
  intros Hn. split; [| split].
  - unfold pop_opt.
    destruct (existsb (String.eqb option) pre) eqn:E; [| reflexivity].
    apply existsb_eqb_In in E. contradiction.
  - unfold pop_opt.
    assert (E : existsb (String.eqb option) (pre ++ option :: v :: post) = true).
    { apply existsb_eqb_In. apply in_or_app. right. left. reflexivity. }
    rewrite E. simpl negb. cbv iota.
    rewrite list_index_first by exact Hn.
    replace (length pre + 1 <? length (pre ++ option :: v :: post))%nat with true
      by (symmetry; apply Nat.ltb_lt; rewrite length_app; simpl; lia).
    cbv zeta. f_equal.
    + f_equal. rewrite app_nth2 by lia.
      replace (length pre + 1 - length pre)%nat with 1%nat by lia. reflexivity.
    + replace (pre ++ option :: v :: post) with ((pre ++ [option]) ++ v :: post)
        by (rewrite <- app_assoc; reflexivity).
      replace (length pre + 1)%nat with (length (pre ++ [option]))
        by (rewrite length_app; simpl; lia).
      rewrite list_pop_middle. rewrite <- app_assoc. simpl.
      apply list_pop_middle.
  - unfold pop_opt.
    assert (E : existsb (String.eqb option) (pre ++ [option]) = true).
    { apply existsb_eqb_In. apply in_or_app. right. left. reflexivity. }
    rewrite E. simpl negb. cbv iota.
    rewrite list_index_first by exact Hn.
    replace (length pre + 1 <? length (pre ++ [option]))%nat with false
      by (symmetry; apply Nat.ltb_ge; rewrite length_app; simpl; lia).
    f_equal. rewrite list_pop_middle. apply app_nil_r.
Qed.

(** X25 on the command line of the module's docstring. *)
Lemma pop_opt_spec_witness :
  pop_opt "--host"%string
          ([] ++ "--host"%string :: "global"%string
              :: ["--port"%string; "8501"%string])
  = (Some "global"%string, [] ++ ["--port"%string; "8501"%string]).
Proof.
  apply (proj1 (proj2 (pop_opt_spec "--host"%string []
                         ["--port"%string; "8501"%string] "global"%string
                         (fun H => H)))).
Defined.

(** ** More properties *)

(** *** [apply_fir] does not tell signal from kernel *)

Lemma conv_sum_symmetric (a v : list R) (T : nat) :
  length a = length v ->
  sumf (fun j => nth j v 0 * sample a (Z.of_nat T - Z.of_nat j)) (length v)
  = sumf (fun j => nth j a 0 * sample v (Z.of_nat T - Z.of_nat j)) (length a).
Proof.
  intros Hl. set (n := length v) in *. rewrite Hl.
  destruct (Nat.lt_ge_cases T n) as [Hlt | Hge].
  - (* only the taps [0 .. T] reach the signal *)
    rewrite (sumf_split _ (S T) (n - S T) n) by lia.
    rewrite (sumf_split (fun j => nth j a 0 * _) (S T) (n - S T) n) by lia.
    rewrite (sumf_zero _ (n - S T)) by (intros i Hi; rewrite sample_neg by lia; ring).
    rewrite (sumf_zero _ (n - S T)) by (intros i Hi; rewrite sample_neg by lia; ring).
    rewrite (sumf_rev _ (S T)). f_equal.
    apply sumf_ext. intros j Hj.
    replace (Z.of_nat T - Z.of_nat (S T - 1 - j))%Z with (Z.of_nat j) by lia.
    replace (Z.of_nat T - Z.of_nat j)%Z with (Z.of_nat (S T - 1 - j)) by lia.
    rewrite !sample_nat. ring.
  - (* only the taps [T - n + 1 .. n - 1] reach the signal *)
    destruct (Nat.le_gt_cases n (T - n + 1)) as [Hall | Hsome].
    + rewrite !sumf_zero; [reflexivity | |];
        intros i Hi; rewrite sample_beyond by lia; ring.
    + set (lo := (T - n + 1)%nat) in *.
      rewrite (sumf_split _ lo (n - lo) n) by lia.
      rewrite (sumf_split (fun j => nth j a 0 * _) lo (n - lo) n) by lia.
      rewrite (sumf_zero _ lo)
        by (intros i Hi; rewrite sample_beyond by (unfold lo in *; lia); ring).
      rewrite (sumf_zero (fun j => nth j a 0 * _) lo)
        by (intros i Hi; rewrite sample_beyond by (unfold lo in *; lia); ring).
      rewrite (sumf_rev _ (n - lo)). f_equal.
      apply sumf_ext. intros m Hm.
      replace (Z.of_nat T - Z.of_nat (lo + (n - lo - 1 - m)))%Z
        with (Z.of_nat (lo + m)) by (unfold lo in *; lia).
      replace (Z.of_nat T - Z.of_nat (lo + m))%Z
        with (Z.of_nat (lo + (n - lo - 1 - m))) by (unfold lo in *; lia).
      rewrite !sample_nat. ring.
Qed.

(** X26.  [apply_fir] is symmetric in its arguments when neither is
    empty: numpy puts the longer array first, and for arrays of one
    length the centered convolution itself is symmetric. *)
Theorem apply_fir_commutative (signal kernel : list R) :
  signal <> [] -> kernel <> [] ->
  apply_fir signal kernel = apply_fir kernel signal.
Proof.
  intros Hs Hker.
  assert (Ls : (0 < length signal)%nat) by (destruct signal; [contradiction | simpl; lia]).
  assert (Lk : (0 < length kernel)%nat) by (destruct kernel; [contradiction | simpl; lia]).
  destruct (Nat.lt_trichotomy (length signal) (length kernel)) as [Hlt | [Heq | Hgt]].
  - rewrite apply_fir_long_kernel, apply_fir_long_signal by lia. reflexivity.
  - rewrite !apply_fir_long_signal by lia. f_equal.
    apply (nth_ext _ _ 0 0).
    + rewrite !correlate_same_length by (rewrite length_rev; lia). exact Heq.
    + intros k Hk.
      rewrite correlate_same_length in Hk by (rewrite length_rev; lia).
      rewrite !correlate_same_nth by (rewrite ?length_rev; lia).
      rewrite !corr_at_rev by lia.
      unfold centered_conv. rewrite <- Heq.
      set (c := ((length signal - 1) / 2)%nat).
      assert (E : forall (x : list R) (j : nat),
                 sample x (Z.of_nat k + Z.of_nat c - Z.of_nat j)
                 = sample x (Z.of_nat (k + c) - Z.of_nat j))
        by (intros x j; f_equal; lia).
      rewrite (sumf_ext _ (fun j => nth j kernel 0
                                    * sample signal (Z.of_nat (k + c) - Z.of_nat j)))
        by (intros j _; rewrite E; reflexivity).
      rewrite (sumf_ext (fun j => nth j signal 0 * _)
                        (fun j => nth j signal 0
                                  * sample kernel (Z.of_nat (k + c) - Z.of_nat j)))
        by (intros j _; rewrite E; reflexivity).
      rewrite Heq at 1.
      apply (conv_sum_symmetric signal kernel (k + c)). exact Heq.
  - rewrite apply_fir_long_signal, apply_fir_long_kernel by lia. reflexivity.
Qed.

(** X26 on a three-sample signal and a two-tap kernel. *)
Lemma apply_fir_commutative_witness :
  apply_fir [1; 2; 3] [1; 1] = apply_fir [1; 1] [1; 2; 3].
Proof.
  apply (apply_fir_commutative [1; 2; 3] [1; 1]); discriminate.
Defined.

(** *** More taps for a harder specification *)

Lemma bump_monotone (m1 m2 : Z) :
  (m2 <= m1)%Z ->
  ((if (m2 mod 2 =? 0)%Z then m2 + 1 else m2)
   <= (if (m1 mod 2 =? 0)%Z then m1 + 1 else m1))%Z.
Proof.
  intros H.
  destruct (Z.eq_dec m1 m2) as [-> | Hne]; [lia |].
  destruct (m2 mod 2 =? 0)%Z; destruct (m1 mod 2 =? 0)%Z; lia.
Qed.

(** X27.  [adaptive_numtaps] asks for at least as many taps when the
    transition band gets narrower or the attenuation larger: for
    positive widths [tw1 <= tw2], a positive [fs] and attenuations
    [8 <= |att2| <= |att1|], the count for [(tw1, att1)] is at least the
    count for [(tw2, att2)]. *)
Theorem adaptive_numtaps_monotone (tw1 tw2 fs att1 att2 : R) :
  0 < tw1 <= tw2 -> 0 < fs -> 8 <= Rabs att2 <= Rabs att1 ->
  exists n1 n2 : Z,
    adaptive_numtaps scipy_kaiserord tw1 fs att1 = Ok n1 /\
    adaptive_numtaps scipy_kaiserord tw2 fs att2 = Ok n2 /\
    (n2 <= n1)%Z.
Proof.
  intros [Htw1 Htw] Hfs [HA2 HA].
  assert (Hhalf : 0.5 * fs <> 0) by lra.
  assert (Hpi := PI_gt_3).
  set (w1 := tw1 / (0.5 * fs)). set (w2 := tw2 / (0.5 * fs)).
  assert (Hw1 : 0 < w1) by (unfold w1; apply Rdiv_lt_0_compat; lra).
  assert (Hw12 : w1 <= w2).
  { unfold w1, w2. apply Rmult_le_compat_r; [| exact Htw].
    apply Rlt_le, Rinv_0_lt_compat. lra. }
  set (q1 := (Rabs att1 - 7.95) / 2.285 / (PI * w1)).
  set (q2 := (Rabs att2 - 7.95) / 2.285 / (PI * w2)).
  assert (Hq : q2 <= q1).
  { unfold q1, q2.
    assert (Hc : 0 < (Rabs att2 - 7.95) / 2.285 <= (Rabs att1 - 7.95) / 2.285) by lra.
    assert (Hp1 : 0 < PI * w1) by nra.
    assert (Hp12 : PI * w1 <= PI * w2) by nra.
    assert (Hi : / (PI * w2) <= / (PI * w1)) by (apply Rinv_le_contravar; assumption).
    assert (Hi2 : 0 < / (PI * w2)) by (apply Rinv_0_lt_compat; lra).
    unfold Rdiv at 1 3. nra. }
  set (m1 := Zceil (q1 + 1)). set (m2 := Zceil (q2 + 1)).
  assert (Hm : (m2 <= m1)%Z) by (apply Zceil_le; lra).
  exists (if (m1 mod 2 =? 0)%Z then (m1 + 1)%Z else m1),
         (if (m2 mod 2 =? 0)%Z then (m2 + 1)%Z else m2).
  split; [| split].
  - apply (adaptive_numtaps_value scipy_kaiserord _ _ _ m1 (kaiser_beta (Rabs att1)) Hhalf).
    fold w1. apply scipy_kaiserord_returns; lra.
  - apply (adaptive_numtaps_value scipy_kaiserord _ _ _ m2 (kaiser_beta (Rabs att2)) Hhalf).
    fold w2. apply scipy_kaiserord_returns; lra.
  - apply bump_monotone. exact Hm.
Qed.

(** X27 on a 200 Hz against a 500 Hz transition band at 60 dB. *)
Lemma adaptive_numtaps_monotone_witness :
  exists n1 n2 : Z,
    adaptive_numtaps scipy_kaiserord 200 44100 60 = Ok n1 /\
    adaptive_numtaps scipy_kaiserord 500 44100 60 = Ok n2 /\
    (n2 <= n1)%Z.
Proof.
  apply (adaptive_numtaps_monotone 200 500 44100 60 60);
    [lra | lra | rewrite Rabs_pos_eq; lra].
Defined.

(** *** The shelves are stable *)

(** X28.  With [0 < q_factor <= 1] and the cutoff strictly inside
    [(0, fs/2)], the sections of both shelving designers are stable: the
    denominator coefficients lie strictly inside the stability triangle
    [|a2| < 1], [|a1| < 1 + a2]. *)
Theorem shelving_stable (cutoff gain_db fs q_factor : R) :
  0 < cutoff < fs / 2 -> 0 < q_factor <= 1 ->
  exists s t : Biquad,
    shelving_lowshelf cutoff gain_db fs q_factor = Ok [s] /\
    shelving_highshelf cutoff gain_db fs q_factor = Ok [t] /\
    (Rabs (a2 s) < 1 /\ Rabs (a1 s) < 1 + a2 s) /\
    (Rabs (a2 t) < 1 /\ Rabs (a1 t) < 1 + a2 t).
Proof.
  intros Hc Hq.
  assert (HA := gain_pos gain_db).
  assert (Hr2 := shelf_radicand_low_q (Rpower 10 (gain_db / 40)) q_factor HA Hq).
  assert (Hr : 0 <= shelf_radicand (Rpower 10 (gain_db / 40)) q_factor) by lra.
  destruct (shelving_in_band cutoff gain_db fs q_factor Hc (proj1 Hq) Hr)
    as [_ [Hcos [Hlo [Hhi [Hs Ht]]]]].
  exists (lowshelf_section cutoff gain_db fs q_factor),
         (highshelf_section cutoff gain_db fs q_factor).
  split; [exact Hs |]. split; [exact Ht |].
  destruct (w0_in_range _ _ Hc) as [Hw0 Hw1].
  set (A := Rpower 10 (gain_db / 40)) in *.
  set (w0 := 2 * PI * cutoff / fs) in *.
  assert (Hsin : 0 < sin w0) by (apply sin_gt_0; assumption).
  assert (Hsr : 0 < sqrt (shelf_radicand A q_factor)) by (apply sqrt_lt_R0; lra).
  assert (HsA : 0 < sqrt A) by (apply sqrt_lt_R0; exact HA).
  set (alpha := sin w0 / 2 * sqrt (shelf_radicand A q_factor)) in *.
  assert (Hal : 0 < alpha) by (unfold alpha; nra).
  assert (Hp : 0 < 2 * sqrt A * alpha) by nra.
  set (p := 2 * sqrt A * alpha) in *. set (c := cos w0) in *.
  unfold lowshelf_section, highshelf_section. simpl.
  fold A. fold w0. fold alpha. fold p. fold c.
  assert (Hilo : 0 < / (A + 1 + (A - 1) * c + p)) by (apply Rinv_0_lt_compat; lra).
  assert (Hihi : 0 < / (A + 1 - (A - 1) * c + p)) by (apply Rinv_0_lt_compat; lra).
  assert (Elo : (A + 1 + (A - 1) * c + p) * / (A + 1 + (A - 1) * c + p) = 1)
    by (field; lra).
  assert (Ehi : (A + 1 - (A - 1) * c + p) * / (A + 1 - (A - 1) * c + p) = 1)
    by (field; lra).
  unfold Rdiv.
  set (il := / (A + 1 + (A - 1) * c + p)) in *.
  set (ih := / (A + 1 - (A - 1) * c + p)) in *.
  assert (HAc1 : 0 < A * (1 + c)) by nra.
  assert (HAc2 : 0 < A * (1 - c)) by nra.
  repeat split; apply Rabs_def1; nra.
Qed.

(** X28 on the demo's bass boost. *)
Lemma shelving_stable_witness :
  exists s t : Biquad,
    shelving_lowshelf 200 6 44100 (707 / 1000) = Ok [s] /\
    shelving_highshelf 200 6 44100 (707 / 1000) = Ok [t] /\
    (Rabs (a2 s) < 1 /\ Rabs (a1 s) < 1 + a2 s) /\
    (Rabs (a2 t) < 1 /\ Rabs (a1 t) < 1 + a2 t).
Proof.
  apply (shelving_stable 200 6 44100 (707 / 1000)); lra.
Defined.
